(** * BioMark: biometric watermarking pipeline

    A shallow embedding of [src/lib/biometric.ts] and
    [src/lib/docx-handler.ts], and the properties of the fuzzy vault, the
    zero-width watermark codec, the payload distributor, the minutiae
    normaliser, the median filter and the verification orchestrator. *)

From Stdlib Require Import ZArith NArith QArith Qround Lia ZifyNat List Sorted Ascii String Bool.
From Stdlib Require Import DecimalFacts DecimalPos DecimalN.
From Stdlib Require HexadecimalPos.
From stdpp Require Import base list.

Set Warnings "-register-all".

Local Open Scope N_scope.

(** ** JavaScript strings

    A JavaScript string is a sequence of UTF-16 code units; [text[i]],
    [charCodeAt], [length], [slice] and [substr] all work on code units. *)

Abbreviation jsstring := (list N).

Module JS.

(** The code unit of an ASCII character, and the string of an ASCII
    literal. *)
Definition ch (a : ascii) : N := N_of_ascii a.

Definition lit (s : string) : jsstring := map N_of_ascii (list_ascii_of_string s).

(** [s.slice(a, b)] for [0 <= a <= b]. *)
Definition slice (s : jsstring) (a b : nat) : jsstring := take (b - a) (drop a s).

(** [s.substr(i, n)]. *)
Definition substr (s : jsstring) (i n : nat) : jsstring := take n (drop i s).

(** [s.padStart(len, fill)] for a one-character [fill]. *)
Definition padStart (len : nat) (fill : N) (s : jsstring) : jsstring :=
  replicate (len - length s) fill ++ s.

(** ECMAScript [WhiteSpace] and [LineTerminator] code units: the class
    matched by [\s] and removed by [trim]. *)
Definition isWhiteSpace (c : N) : bool :=
  (c =? 9) || (c =? 10) || (c =? 11) || (c =? 12) || (c =? 13) || (c =? 32)
  || (c =? 160) || (c =? 5760) || ((8192 <=? c) && (c <=? 8202))
  || (c =? 8232) || (c =? 8233) || (c =? 8239) || (c =? 8287)
  || (c =? 12288) || (c =? 65279).

(** [n.toString(2)] for a non-negative integer. *)
Fixpoint pos_toString2 (p : positive) : jsstring :=
  match p with
  | xH => [ch "1"]
  | xO p' => pos_toString2 p' ++ [ch "0"]
  | xI p' => pos_toString2 p' ++ [ch "1"]
  end.

Definition toString2 (n : N) : jsstring :=
  match n with
  | N0 => [ch "0"]
  | Npos p => pos_toString2 p
  end.

(** [parseInt(s, 2)] on a string that starts with binary digits: the
    value of the longest prefix of binary digits, [None] (NaN) when that
    prefix is empty.  (Leading white space and a sign, which [parseInt]
    also accepts, never occur in the strings the watermark codec
    passes.) *)
Fixpoint parseInt2_digits (acc : N) (s : jsstring) : N :=
  match s with
  | [] => acc
  | c :: s' =>
      if c =? ch "0" then parseInt2_digits (2 * acc) s'
      else if c =? ch "1" then parseInt2_digits (2 * acc + 1) s'
      else acc
  end.

Definition isBinaryDigit (c : N) : bool := (c =? ch "0") || (c =? ch "1").

Definition parseInt2 (s : jsstring) : option N :=
  match s with
  | [] => None
  | c :: _ => if isBinaryDigit c then Some (parseInt2_digits 0 s) else None
  end.

(** [String.fromCharCode(n)]: the code unit [ToUint16(n)], and U+0000 for
    NaN. *)
Definition fromCharCode (n : option N) : N :=
  match n with
  | Some v => v mod 65536
  | None => 0
  end.

(** Ascending numeric sort, [a.sort((x, y) => x - y)]. *)
Fixpoint insert_sorted (x : nat) (l : list nat) : list nat :=
  match l with
  | [] => [x]
  | y :: l' => if (x <=? y)%nat then x :: l else y :: insert_sorted x l'
  end.

Definition sort_asc (l : list nat) : list nat := foldr insert_sorted [] l.

(** [Set.prototype.add] on an insertion-ordered set. *)
Definition set_add (x : nat) (s : list nat) : list nat :=
  if existsb (Nat.eqb x) s then s else s ++ [x].

(** [s.split(/(\s+)/)]: the pieces between maximal white-space runs at
    the even positions and the captured runs at the odd positions.  The
    first and last pieces are empty when the string starts or ends with
    white space, and the empty string gives one empty piece.

    The scan keeps the tokens finished so far, the token being read and
    whether that token is a white-space run. *)
Fixpoint split_ws_scan (s : jsstring) (done : list jsstring)
    (cur : jsstring) (in_ws : bool) : list jsstring :=
  match s with
  | [] => if in_ws then done ++ [cur; []] else done ++ [cur]
  | c :: s' =>
      if Bool.eqb (isWhiteSpace c) in_ws
      then split_ws_scan s' done (cur ++ [c]) in_ws
      else split_ws_scan s' (done ++ [cur]) [c] (isWhiteSpace c)
  end.

Definition split_ws (s : jsstring) : list jsstring := split_ws_scan s [] [] false.

(** [tokens.join('')]. *)
Definition join (tokens : list jsstring) : jsstring := concat tokens.

(** [s.trim()]. *)
Fixpoint trimStart (s : jsstring) : jsstring :=
  match s with
  | c :: s' => if isWhiteSpace c then trimStart s' else s
  | [] => []
  end.

Definition trimEnd (s : jsstring) : jsstring := rev (trimStart (rev s)).

Definition trim (s : jsstring) : jsstring := trimEnd (trimStart s).

(** [/^\s+$/.test(s)]. *)
Definition allWhiteSpace (s : jsstring) : bool :=
  negb (length s =? 0)%nat && forallb isWhiteSpace s.

(** [s.replace(/\s+/g, ' ')]: every maximal white-space run becomes one
    space. *)
Fixpoint collapse_ws (in_ws : bool) (s : jsstring) : jsstring :=
  match s with
  | [] => []
  | c :: s' =>
      if isWhiteSpace c
      then (if in_ws then collapse_ws true s' else ch " " :: collapse_ws true s')
      else c :: collapse_ws false s'
  end.

(** [str.endsWith(searchString)]. *)
Definition endsWith (str searchString : jsstring) : bool :=
  (length searchString <=? length str)%nat
  && bool_decide (drop (length str - length searchString) str = searchString).

(** [value.replace(/c/g, replacement)] for a pattern of one literal
    character and a replacement without [$]. *)
Definition replaceAll (search : N) (replacement value : jsstring) : jsstring :=
  flat_map (fun char => if char =? search then replacement else [char]) value.

(** *** Numbers as text

    Integers print in decimal ([String(n)], template literals,
    [JSON.stringify]) when they are below 10^21 in magnitude, which
    covers every integer a JavaScript number holds exactly. *)
Fixpoint uint_chars (u : Decimal.uint) : jsstring :=
  match u with
  | Decimal.Nil => []
  | Decimal.D0 u' => 48 :: uint_chars u'
  | Decimal.D1 u' => 49 :: uint_chars u'
  | Decimal.D2 u' => 50 :: uint_chars u'
  | Decimal.D3 u' => 51 :: uint_chars u'
  | Decimal.D4 u' => 52 :: uint_chars u'
  | Decimal.D5 u' => 53 :: uint_chars u'
  | Decimal.D6 u' => 54 :: uint_chars u'
  | Decimal.D7 u' => 55 :: uint_chars u'
  | Decimal.D8 u' => 56 :: uint_chars u'
  | Decimal.D9 u' => 57 :: uint_chars u'
  end.

Definition N_toString (n : N) : jsstring := uint_chars (N.to_uint n).

Definition Z_toString (z : Z) : jsstring :=
  if (z <? 0)%Z then ch "-" :: N_toString (Z.to_N (- z)) else N_toString (Z.to_N z).

(** [n.toString(16)] for an integer: lower-case digits, and a minus
    sign before the digits of a negative number. *)
Fixpoint hex_uint_chars (u : Hexadecimal.uint) : jsstring :=
  match u with
  | Hexadecimal.Nil => []
  | Hexadecimal.D0 u' => 48 :: hex_uint_chars u'
  | Hexadecimal.D1 u' => 49 :: hex_uint_chars u'
  | Hexadecimal.D2 u' => 50 :: hex_uint_chars u'
  | Hexadecimal.D3 u' => 51 :: hex_uint_chars u'
  | Hexadecimal.D4 u' => 52 :: hex_uint_chars u'
  | Hexadecimal.D5 u' => 53 :: hex_uint_chars u'
  | Hexadecimal.D6 u' => 54 :: hex_uint_chars u'
  | Hexadecimal.D7 u' => 55 :: hex_uint_chars u'
  | Hexadecimal.D8 u' => 56 :: hex_uint_chars u'
  | Hexadecimal.D9 u' => 57 :: hex_uint_chars u'
  | Hexadecimal.Da u' => 97 :: hex_uint_chars u'
  | Hexadecimal.Db u' => 98 :: hex_uint_chars u'
  | Hexadecimal.Dc u' => 99 :: hex_uint_chars u'
  | Hexadecimal.Dd u' => 100 :: hex_uint_chars u'
  | Hexadecimal.De u' => 101 :: hex_uint_chars u'
  | Hexadecimal.Df u' => 102 :: hex_uint_chars u'
  end.

Definition N_toString16 (n : N) : jsstring := hex_uint_chars (N.to_hex_uint n).

Definition Z_toString16 (z : Z) : jsstring :=
  if (z <? 0)%Z then ch "-" :: N_toString16 (Z.to_N (- z)) else N_toString16 (Z.to_N z).

(** *** Values and JSON

    The values [JSON.parse] can produce, and [undefined] for a missing
    property.  A number is a double: [JNum q] is the finite double of
    value [q] (the two zeros are not told apart: no operation here
    does), and [JInfinity] is [Infinity] or [-Infinity], which
    [JSON.parse] gives for a literal beyond the range of the doubles. *)
Inductive JSVal : Type :=
| JUndefined
| JNull
| JBool (b : bool)
| JNum (q : Q)
| JInfinity (negative : bool)
| JStr (s : jsstring)
| JArr (items : list JSVal)
| JObj (members : list (jsstring * JSVal)).

(** [ToBoolean]. *)
Definition truthy (v : JSVal) : bool :=
  match v with
  | JUndefined | JNull => false
  | JBool b => b
  | JNum q => negb (Qnum q =? 0)%Z
  | JInfinity _ => true
  | JStr s => negb (length s =? 0)%nat
  | JArr _ | JObj _ => true
  end.

(** [a || b]. *)
Definition or_else (a b : JSVal) : JSVal := if truthy a then a else b.

(** [str === v] for a string [str]. *)
Definition string_strict_eq (str : jsstring) (v : JSVal) : bool :=
  match v with
  | JStr s => bool_decide (str = s)
  | _ => false
  end.

(** The value of the last member named [key]: [JSON.parse] lets a later
    duplicate overwrite an earlier one. *)
Fixpoint lookup_member (key : jsstring) (members : list (jsstring * JSVal)) : JSVal :=
  match members with
  | [] => JUndefined
  | (k, v) :: members' =>
      match lookup_member key members' with
      | JUndefined => if bool_decide (k = key) then v else JUndefined
      | later => later
      end
  end.

(** [v.key] for one of the keys [f], [s], [t], [c], which no prototype
    defines: the member of an object, [undefined] on any other value,
    and a [TypeError] ([None]) on [null] and [undefined]. *)
Definition get_property (v : JSVal) (key : jsstring) : option JSVal :=
  match v with
  | JUndefined | JNull => None
  | JObj members => Some (lookup_member key members)
  | _ => Some JUndefined
  end.

(** [QuoteJSONString] of ECMAScript 2019. *)
Definition hex_digit_char (d : N) : N := if d <? 10 then 48 + d else 87 + d.

Definition unicode_escape (c : N) : jsstring :=
  [ch "\"; ch "u"; hex_digit_char (c / 4096 mod 16); hex_digit_char (c / 256 mod 16);
   hex_digit_char (c / 16 mod 16); hex_digit_char (c mod 16)].

Definition isHighSurrogate (c : N) : bool := (55296 <=? c) && (c <=? 56319).
Definition isLowSurrogate (c : N) : bool := (56320 <=? c) && (c <=? 57343).

Definition quote_unit (c : N) : jsstring :=
  if c =? 8 then [ch "\"; ch "b"]
  else if c =? 9 then [ch "\"; ch "t"]
  else if c =? 10 then [ch "\"; ch "n"]
  else if c =? 12 then [ch "\"; ch "f"]
  else if c =? 13 then [ch "\"; ch "r"]
  else if c =? 34 then [ch "\"; 34]
  else if c =? 92 then [ch "\"; ch "\"]
  else if c <? 32 then unicode_escape c
  else if isHighSurrogate c || isLowSurrogate c then unicode_escape c
  else [c].

Fixpoint quote_units (s : jsstring) : jsstring :=
  match s with
  | [] => []
  | c :: s' =>
      if isHighSurrogate c then
        match s' with
        | d :: s'' =>
            if isLowSurrogate d then c :: d :: quote_units s''
            else quote_unit c ++ quote_units s'
        | [] => quote_unit c
        end
      else quote_unit c ++ quote_units s'
  end.

Definition quoteJSONString (s : jsstring) : jsstring := 34 :: quote_units s ++ [34].

(** [JSON.parse]. *)
Definition isJSONWhiteSpace (c : N) : bool :=
  (c =? 32) || (c =? 9) || (c =? 10) || (c =? 13).

Fixpoint skipWS (s : jsstring) : jsstring :=
  match s with
  | c :: s' => if isJSONWhiteSpace c then skipWS s' else s
  | [] => []
  end.

Definition hex_value (c : N) : option N :=
  if (48 <=? c) && (c <=? 57) then Some (c - 48)
  else if (97 <=? c) && (c <=? 102) then Some (c - 87)
  else if (65 <=? c) && (c <=? 70) then Some (c - 55)
  else None.

Definition hex4_value (a b c d : N) : option N :=
  match hex_value a, hex_value b, hex_value c, hex_value d with
  | Some x, Some y, Some z, Some w => Some (4096 * x + 256 * y + 16 * z + w)
  | _, _, _, _ => None
  end.

Definition simple_escape (e : N) : option N :=
  if e =? 34 then Some 34
  else if e =? 92 then Some 92
  else if e =? ch "/" then Some (ch "/")
  else if e =? ch "b" then Some 8
  else if e =? ch "f" then Some 12
  else if e =? ch "n" then Some 10
  else if e =? ch "r" then Some 13
  else if e =? ch "t" then Some 9
  else None.

(** The characters of a string literal after its opening quote, and the
    input after its closing quote. *)
Fixpoint parseStringChars (s : jsstring) : option (jsstring * jsstring) :=
  match s with
  | [] => None
  | c :: s' =>
      if c =? 34 then Some ([], s')
      else if c =? 92 then
        match s' with
        | e :: s'' =>
            if e =? ch "u" then
              match s'' with
              | h1 :: h2 :: h3 :: h4 :: s4 =>
                  match hex4_value h1 h2 h3 h4 with
                  | Some v =>
                      match parseStringChars s4 with
                      | Some (str, rest) => Some (v :: str, rest)
                      | None => None
                      end
                  | None => None
                  end
              | _ => None
              end
            else
              match simple_escape e with
              | Some v =>
                  match parseStringChars s'' with
                  | Some (str, rest) => Some (v :: str, rest)
                  | None => None
                  end
              | None => None
              end
        | [] => None
        end
      else if c <? 32 then None
      else
        match parseStringChars s' with
        | Some (str, rest) => Some (c :: str, rest)
        | None => None
        end
  end.

Definition digit_of (c : N) (u : Decimal.uint) : option Decimal.uint :=
  if c =? 48 then Some (Decimal.D0 u) else if c =? 49 then Some (Decimal.D1 u)
  else if c =? 50 then Some (Decimal.D2 u) else if c =? 51 then Some (Decimal.D3 u)
  else if c =? 52 then Some (Decimal.D4 u) else if c =? 53 then Some (Decimal.D5 u)
  else if c =? 54 then Some (Decimal.D6 u) else if c =? 55 then Some (Decimal.D7 u)
  else if c =? 56 then Some (Decimal.D8 u) else if c =? 57 then Some (Decimal.D9 u)
  else None.

Definition isDigit (c : N) : bool := (48 <=? c) && (c <=? 57).

(** The longest run of decimal digits at the start of the input. *)
Fixpoint takeDigits (s : jsstring) : Decimal.uint * jsstring :=
  match s with
  | [] => (Decimal.Nil, [])
  | c :: s' =>
      let '(u, rest) := takeDigits s' in
      match digit_of c u with
      | Some u' => (u', rest)
      | None => (Decimal.Nil, s)
      end
  end.

Definition uint_length (u : Decimal.uint) : nat := length (uint_chars u).

(** The value [m * 10^e] of a literal with mantissa [m] and exponent
    [e]. *)
Definition decimal_value (m e : Z) : Q :=
  if (0 <=? e)%Z then inject_Z (m * 10 ^ e)
  else Qmake m (Z.to_pos (10 ^ (- e))).

(** A JSON number: [-? int frac? exp?], where [int] has no leading zero.
    The result is the mathematical value of the literal, which
    [numberValue] below turns into the double [JSON.parse] returns. *)
Definition parseNumber (s : jsstring) : option (Q * jsstring) :=
  let '(negative, s1) :=
    match s with
    | c :: s' => if c =? ch "-" then (true, s') else (false, s)
    | [] => (false, s)
    end in
  let '(int_part, s2) :=
    match s1 with
    | c :: s' => if c =? 48 then (Decimal.D0 Decimal.Nil, s') else takeDigits s1
    | [] => (Decimal.Nil, s1)
    end in
  match int_part with
  | Decimal.Nil => None
  | _ =>
      let frac :=
        match s2 with
        | c :: s' =>
            if c =? ch "." then
              match takeDigits s' with
              | (Decimal.Nil, _) => None
              | (u, rest) => Some (u, rest)
              end
            else Some (Decimal.Nil, s2)
        | [] => Some (Decimal.Nil, s2)
        end in
      match frac with
      | None => None
      | Some (frac_part, s3) =>
          let exponent :=
            match s3 with
            | c :: s' =>
                if (c =? ch "e") || (c =? ch "E") then
                  let '(exp_negative, s4) :=
                    match s' with
                    | d :: s'' =>
                        if d =? ch "-" then (true, s'')
                        else if d =? ch "+" then (false, s'')
                        else (false, s')
                    | [] => (false, s')
                    end in
                  match takeDigits s4 with
                  | (Decimal.Nil, _) => None
                  | (u, rest) =>
                      Some ((if exp_negative then - Z.of_N (N.of_uint u)
                             else Z.of_N (N.of_uint u))%Z, rest)
                  end
                else Some (0%Z, s3)
            | [] => Some (0%Z, s3)
            end in
          match exponent with
          | None => None
          | Some (e, s5) =>
              let k := Z.of_nat (uint_length frac_part) in
              let magnitude :=
                (Z.of_N (N.of_uint int_part) * 10 ^ k + Z.of_N (N.of_uint frac_part))%Z in
              let mantissa := (if negative then - magnitude else magnitude)%Z in
              Some (decimal_value mantissa (e - k), s5)
          end
      end
  end.

(** *** The Number value of a literal

    [JSON.parse] returns the double nearest to the value of the literal,
    and of two equally near doubles the one with the even significand.
    A finite double is [m * 2^u] with [m < 2^53] and [u] from -1074 to
    971; a value that rounds to [2^1024] or more becomes [Infinity], and
    one of at most [2^-1075] becomes zero. *)

(** The [e] with [2^e <= n/d < 2^(e+1)]: the difference of the binary
    lengths of [n] and [d], or one less. *)
Definition floorLog2 (n d : positive) : Z :=
  let e := (Z.log2 (Z.pos n) - Z.log2 (Z.pos d))%Z in
  if (Z.pos d * 2 ^ Z.max 0 e <=? Z.pos n * 2 ^ Z.max 0 (- e))%Z then e else (e - 1)%Z.

(** The integer nearest to [n/d], the even one of two equally near. *)
Definition roundHalfEven (n d : Z) : Z :=
  let low := (n / d)%Z in
  let twice := (2 * (n mod d))%Z in
  if (twice <? d)%Z then low
  else if (d <? twice)%Z then (low + 1)%Z
  else if Z.even low then low else (low + 1)%Z.

(** The exponent [u] of the unit of the binade of [n/d]: the doubles
    near [n/d] are the multiples of [2^u].  Below [2^-1022] the unit
    stays [2^-1074]. *)
Definition unitExponent (n d : positive) : Z := Z.max (floorLog2 n d - 52) (-1074).

(** [n/d] in units of [2^u], rounded. *)
Definition significand (n d : positive) : Z :=
  let u := unitExponent n d in
  roundHalfEven (Z.pos n * 2 ^ Z.max 0 (- u)) (Z.pos d * 2 ^ Z.max 0 u).

(** The double nearest to [n/d], [significand * 2^u] as a fraction in
    lowest terms.  [None] stands for [Infinity]. *)
Definition roundToDouble (n d : positive) : option Q :=
  let u := unitExponent n d in
  let m := significand n d in
  if (2 ^ 1024 * 2 ^ Z.max 0 (- u) <=? m * 2 ^ Z.max 0 u)%Z then None
  else Some (Qred (Qmake (m * 2 ^ Z.max 0 u) (Z.to_pos (2 ^ Z.max 0 (- u))))).

(** The Number value of the mathematical value [q]. *)
Definition numberValue (q : Q) : JSVal :=
  match Qnum q with
  | Z0 => JNum (inject_Z 0)
  | Zpos n =>
      match roundToDouble n (Qden q) with
      | Some v => JNum v
      | None => JInfinity false
      end
  | Zneg n =>
      match roundToDouble n (Qden q) with
      | Some v => JNum (- v)
      | None => JInfinity true
      end
  end.

(** A keyword [true], [false] or [null] at the start of the input. *)
Fixpoint strip_prefix (word s : jsstring) : option jsstring :=
  match word, s with
  | [], _ => Some s
  | w :: word', c :: s' => if w =? c then strip_prefix word' s' else None
  | _ :: _, [] => None
  end.

(** One value, the elements of an array after its first bracket, and the
    members of an object after its first brace.  Every call reads at
    least one character before the next, so the fuel [JSON_parse] gives
    is never used up ([JSON_parse_fuel]). *)
Fixpoint parseValue (fuel : nat) (s : jsstring) : option (JSVal * jsstring) :=
  match fuel with
  | O => None
  | S fuel' =>
      match skipWS s with
      | [] => None
      | c :: s' =>
          if c =? ch "{" then
            match skipWS s' with
            | c2 :: s2 =>
                if c2 =? ch "}" then Some (JObj [], s2)
                else parseMembers fuel' (c2 :: s2) []
            | [] => None
            end
          else if c =? ch "[" then
            match skipWS s' with
            | c2 :: s2 =>
                if c2 =? ch "]" then Some (JArr [], s2)
                else parseElements fuel' (c2 :: s2) []
            | [] => None
            end
          else if c =? 34 then
            match parseStringChars s' with
            | Some (str, rest) => Some (JStr str, rest)
            | None => None
            end
          else if c =? ch "t" then
            match strip_prefix (lit "true") (c :: s') with
            | Some rest => Some (JBool true, rest)
            | None => None
            end
          else if c =? ch "f" then
            match strip_prefix (lit "false") (c :: s') with
            | Some rest => Some (JBool false, rest)
            | None => None
            end
          else if c =? ch "n" then
            match strip_prefix (lit "null") (c :: s') with
            | Some rest => Some (JNull, rest)
            | None => None
            end
          else
            match parseNumber (c :: s') with
            | Some (q, rest) => Some (numberValue q, rest)
            | None => None
            end
      end
  end
with parseElements (fuel : nat) (s : jsstring) (acc : list JSVal)
    : option (JSVal * jsstring) :=
  match fuel with
  | O => None
  | S fuel' =>
      match parseValue fuel' s with
      | Some (v, rest) =>
          match skipWS rest with
          | c :: rest' =>
              if c =? ch "," then parseElements fuel' rest' (acc ++ [v])
              else if c =? ch "]" then Some (JArr (acc ++ [v]), rest')
              else None
          | [] => None
          end
      | None => None
      end
  end
with parseMembers (fuel : nat) (s : jsstring) (acc : list (jsstring * JSVal))
    : option (JSVal * jsstring) :=
  match fuel with
  | O => None
  | S fuel' =>
      match skipWS s with
      | c :: s1 =>
          if c =? 34 then
            match parseStringChars s1 with
            | Some (key, rest) =>
                match skipWS rest with
                | c2 :: rest2 =>
                    if c2 =? ch ":" then
                      match parseValue fuel' rest2 with
                      | Some (v, rest3) =>
                          match skipWS rest3 with
                          | c3 :: rest4 =>
                              if c3 =? ch "," then
                                parseMembers fuel' rest4 (acc ++ [(key, v)])
                              else if c3 =? ch "}" then
                                Some (JObj (acc ++ [(key, v)]), rest4)
                              else None
                          | [] => None
                          end
                      | None => None
                      end
                    else None
                | [] => None
                end
            | None => None
            end
          else None
      | [] => None
      end
  end.

(** [JSON.parse(text)]; [None] stands for a [SyntaxError]. *)
Definition JSON_parse (text : jsstring) : option JSVal :=
  match parseValue (2 * length text + 2) text with
  | Some (v, rest) =>
      match skipWS rest with
      | [] => Some v
      | _ :: _ => None
      end
  | None => None
  end.

End JS.

(** ** The data model *)

Inductive MinutiaType : Type := ending | bifurcation.

(** A minutia.  The coordinates are pixel positions; the angle is a
    floating-point number of degrees, kept as the rational it denotes. *)
Record MinutiaePoint : Type := {
  x : Z;
  y : Z;
  angle : Q;
  type : MinutiaType
}.

Record FuzzyVault : Type := {
  vault : list (Z * Z);
  secret : jsstring;
  polynomial : list Z
}.

(** The field [vault] of the source is [wm_vault] here: [vault] already
    names the points of a [FuzzyVault]. *)
Record WatermarkData : Type := {
  fingerprintHash : jsstring;
  wm_vault : FuzzyVault;
  timestamp : Z;
  contentHash : jsstring
}.

Record UltraCompactWatermarkData : Type := {
  f : jsstring;
  s : jsstring;
  t : Z;
  c : jsstring
}.

Record WatermarkEmbeddingResult : Type := {
  watermarkedText : jsstring;
  invisiblePayload : jsstring
}.

(** The object [extractWatermark] builds.  Its type is [WatermarkData] in
    the source, but the cast of the parsed JSON is not checked when the
    program runs, so the fields hold whatever [JSON.parse] delivered. *)
Record ParsedFuzzyVault : Type := {
  p_vault : list (Z * Z);
  p_secret : JS.JSVal;
  p_polynomial : list Z
}.

Record ParsedWatermarkData : Type := {
  p_fingerprintHash : JS.JSVal;
  p_wm_vault : ParsedFuzzyVault;
  p_timestamp : JS.JSVal;
  p_contentHash : JS.JSVal
}.

(** A promise that has settled: resolved with a value, or rejected with
    the message of an [Error]. *)
Inductive Promise (A : Type) : Type :=
| Resolved (value : A)
| Rejected (message : jsstring).

Arguments Resolved {A} value.
Arguments Rejected {A} message.

(** The pixels an [ImageData] holds: four bytes (red, green, blue, alpha)
    per pixel, row by row.  The canvas gives [width] and [height] at least
    one and [data] of length [4 * width * height]. *)
Record ImageData : Type := {
  data : list N;
  width : nat;
  height : nat
}.

(** ** Phase 1: fingerprint preprocessing and minutiae extraction
    ([FingerprintProcessor]) *)

Module FingerprintProcessor.

Definition MIN_MINUTIAE : nat := 12.
Definition MAX_MINUTIAE : nat := 80.

(** [enhanceContrast] followed by the store into a [Uint8ClampedArray]:
    [(value - 128) * 1.5 + 128] is a multiple of one half, clamped to
    [0, 255], and the store rounds a half to the even neighbour.
    [doubled] is twice the clamped value. *)
Definition enhanceContrast_stored (value : Z) : N :=
  let doubled := Z.min 510 (Z.max 0 (3 * (value - 128) + 256)) in
  let low := (doubled / 2)%Z in
  Z.to_N (if Z.even doubled then low
          else if Z.even low then low else low + 1)%Z.

(** Ascending numeric sort of the neighbourhood. *)
Fixpoint insert_value (v : N) (l : list N) : list N :=
  match l with
  | [] => [v]
  | w :: l' => if v <=? w then v :: l else w :: insert_value v l'
  end.

Definition sort_values (l : list N) : list N := foldr insert_value [] l.

(** The median of the 3x3 neighbourhood of an interior pixel, read from
    the red channel.  On the buffer of an [ImageData], of four bytes per
    pixel, the nine reads of an interior pixel are inside the buffer.
    (Outside of it JavaScript reads [undefined], which the sort puts
    last; the default of [nth] here does not model that.) *)
Definition medianAt (data : list N) (width : nat) (px py : nat) : N :=
  let neighbors :=
    flat_map (fun ky : Z =>
      map (fun kx : Z =>
        nth (Z.to_nat (((Z.of_nat py + ky) * Z.of_nat width + (Z.of_nat px + kx)) * 4))
            data 0)
        [-1; 0; 1]%Z)
      [-1; 0; 1]%Z in
  nth (length neighbors / 2) (sort_values neighbors) 0.

Definition filterPixel (data : list N) (width : nat) (py : nat)
    (filtered : list N) (px : nat) : list N :=
  let idx := ((py * width + px) * 4)%nat in
  let median := medianAt data width px py in
  <[(idx + 3)%nat := nth (idx + 3) data 0]>
    (<[(idx + 2)%nat := median]> (<[(idx + 1)%nat := median]> (<[idx := median]> filtered))).

(** [applyMedianFilter]: a fresh buffer of zeros, written at the pixels
    that are not on the border. *)
Definition applyMedianFilter (data : list N) (width height : nat) : list N :=
  foldl (fun filtered py =>
           foldl (filterPixel data width py) filtered (seq 1 (width - 2)))
        (replicate (length data) 0) (seq 1 (height - 2)).

(** [binarizeImage]: the red channel against the threshold 128. *)
Fixpoint binarizeImage (data : list N) : list N :=
  match data with
  | red :: rest =>
      (if 128 <? red then 1 else 0)
      :: match rest with
         | _ :: _ :: _ :: rest' => binarizeImage rest'
         | _ => []
         end
  | [] => []
  end.

(** [getNeighbors]: the eight neighbours, zero outside the image. *)
Definition positions : list (Z * Z) :=
  [(-1, -1); (-1, 0); (-1, 1); (0, -1); (0, 1); (1, -1); (1, 0); (1, 1)]%Z.

Definition getNeighbors (data : list N) (px py : nat) (width height : nat) : list N :=
  map (fun '(dx, dy) =>
         let nx := (Z.of_nat px + dx)%Z in
         let ny := (Z.of_nat py + dy)%Z in
         if (0 <=? nx)%Z && (nx <? Z.of_nat width)%Z
            && (0 <=? ny)%Z && (ny <? Z.of_nat height)%Z
         then nth (Z.to_nat (ny * Z.of_nat width + nx)) data 0
         else 0)
      positions.

(** [countTransitions]: the steps from 0 to 1 around the neighbour list. *)
Definition countTransitions (neighbors : list N) : nat :=
  length (filter (fun i =>
                    (nth i neighbors 0 =? 0)
                    && (nth ((i + 1) mod length neighbors) neighbors 0 =? 1) = true)
                 (seq 0 (length neighbors))).

Definition sum_values (l : list N) : N := foldl N.add 0 l.

(** [shouldRemove]. *)
Definition shouldRemove (neighbors : list N) : bool :=
  let sum := sum_values neighbors in (2 <=? sum) && (sum <=? 6).

(** [skeletonize]: passes over the interior pixels, each updating the
    image in place, until a pass changes nothing or fifty passes ran. *)
Definition thinPixel (width height : nat) (py : nat) (state : list N * bool)
    (px : nat) : list N * bool :=
  let '(skeleton, changed) := state in
  let idx := (py * width + px)%nat in
  if nth idx skeleton 0 =? 1 then
    let neighbors := getNeighbors skeleton px py width height in
    if (countTransitions neighbors =? 1)%nat && shouldRemove neighbors
    then (<[idx := 0]> skeleton, true)
    else state
  else state.

Definition thinPass (width height : nat) (skeleton : list N) : list N * bool :=
  foldl (fun state py => foldl (thinPixel width height py) state (seq 1 (width - 2)))
        (skeleton, false) (seq 1 (height - 2)).

Fixpoint skeletonize_loop (passes : nat) (width height : nat) (skeleton : list N) : list N :=
  match passes with
  | O => skeleton
  | S passes' =>
      let '(skeleton', changed) := thinPass width height skeleton in
      if changed then skeletonize_loop passes' width height skeleton' else skeleton'
  end.

Definition skeletonize (binaryData : list N) (width height : nat) : list N :=
  skeletonize_loop 50 width height binaryData.

(** [normalizeMinutiae].  [Math.hypot(dx, dy) < 5] on integers is
    [dx^2 + dy^2 < 25]. *)
Definition tooClose (point existing : MinutiaePoint) : bool :=
  let dx := (existing.(x) - point.(x))%Z in
  let dy := (existing.(y) - point.(y))%Z in
  (dx * dx + dy * dy <? 25)%Z.

Fixpoint normalize_loop (minutiae filtered : list MinutiaePoint) : list MinutiaePoint :=
  match minutiae with
  | [] => filtered
  | point :: rest =>
      let isTooClose := existsb (tooClose point) filtered in
      let filtered' := if isTooClose then filtered else filtered ++ [point] in
      if (MAX_MINUTIAE <=? length filtered')%nat then filtered'
      else normalize_loop rest filtered'
  end.

Definition normalizeMinutiae (minutiae : list MinutiaePoint) : list MinutiaePoint :=
  normalize_loop minutiae [].

(** The quality gate of [processFingerprint]. *)
Definition qualityMessage (detected required : nat) : jsstring :=
  JS.lit "Fingerprint quality insufficient: detected "
  ++ JS.N_toString (N.of_nat detected)
  ++ JS.lit " minutiae; at least "
  ++ JS.N_toString (N.of_nat required)
  ++ JS.lit " are required.".

Definition qualityGate (normalizedMinutiae : list MinutiaePoint)
    : Promise (list MinutiaePoint) :=
  if (length normalizedMinutiae <? MIN_MINUTIAE)%nat
  then Rejected (qualityMessage (length normalizedMinutiae) MIN_MINUTIAE)
  else Resolved normalizedMinutiae.

Section Pipeline.

(** The two floating-point computations of the pipeline:
    [Math.round(0.299 * r + 0.587 * g + 0.114 * b)] and
    [Math.atan2(wy, wx) * (180 / Math.PI)]. *)
Variable luminance : N -> N -> N -> Z.
Variable atan2_degrees : Z -> Z -> Q.

(** The first loop of [preprocessImage]: grey level, contrast, and
    the alpha channel copied. *)
Fixpoint enhancePixels (data : list N) : list N :=
  match data with
  | r :: g :: b :: a :: rest =>
      let enhanced := enhanceContrast_stored (luminance r g b) in
      enhanced :: enhanced :: enhanced :: a :: enhancePixels rest
  | _ => []
  end.

(** [preprocessImage]. *)
Definition preprocessImage (imageData : ImageData) : ImageData :=
  let processedData := enhancePixels imageData.(data) in
  {| data := applyMedianFilter processedData imageData.(width) imageData.(height);
     width := imageData.(width);
     height := imageData.(height) |}.

(** [calculateAngle]. *)
Definition calculateAngle (neighbors : list N) : Q :=
  let weighted :=
    foldl (fun '(wx, wy) '(neighbor, (dx, dy)) =>
             if neighbor =? 1 then (wx + dx, wy + dy)%Z else (wx, wy))
          (0, 0)%Z (zip neighbors positions) in
  atan2_degrees (snd weighted) (fst weighted).

(** [analyzeMinutia]. *)
Definition analyzeMinutia (skeletonData : list N) (px py : nat)
    (width height : nat) : option MinutiaePoint :=
  let neighbors := getNeighbors skeletonData px py width height in
  let sum := sum_values neighbors in
  if sum =? 1 then
    Some {| x := Z.of_nat px; y := Z.of_nat py;
            angle := calculateAngle neighbors; type := ending |}
  else if sum =? 3 then
    Some {| x := Z.of_nat px; y := Z.of_nat py;
            angle := calculateAngle neighbors; type := bifurcation |}
  else None.

(** [extractMinutiae]. *)
Definition extractMinutiae (imageData : ImageData) : list MinutiaePoint :=
  let w := imageData.(width) in
  let h := imageData.(height) in
  let binaryData := binarizeImage imageData.(data) in
  let skeletonData := skeletonize binaryData w h in
  flat_map (fun py =>
    flat_map (fun px =>
      if nth (py * w + px) skeletonData 0 =? 1 then
        match analyzeMinutia skeletonData px py w h with
        | Some minutia => [minutia]
        | None => []
        end
      else [])
      (seq 1 (w - 2)))
    (seq 1 (h - 2)).

(** The minutiae of an image after normalisation. *)
Definition normalizedMinutiae (imageData : ImageData) : list MinutiaePoint :=
  normalizeMinutiae (extractMinutiae (preprocessImage imageData)).

(** [processFingerprint].  [None] is a file the browser cannot decode
    ([img.onerror]); otherwise the argument is the image data read
    back from the canvas. *)
Definition processFingerprint (image : option ImageData)
    : Promise (list MinutiaePoint) :=
  match image with
  | None => Rejected (JS.lit "Failed to load image")
  | Some imageData => qualityGate (normalizedMinutiae imageData)
  end.

End Pipeline.

End FingerprintProcessor.

(** ** Phase 2: the fuzzy vault ([FuzzyVaultGenerator]) *)

Module FuzzyVaultGenerator.

Local Open Scope Z_scope.

Definition fieldSize : Z := 251.
Definition vaultSize : nat := 5.

(** [Math.random]: the [i]-th draw of [Math.floor(Math.random() * k)] is
    [rnd i mod k]. *)
Definition MathRandom := nat -> nat.

Definition randomBelow (rnd : MathRandom) (draw : nat) (k : nat) : nat :=
  (rnd draw mod k)%nat.

(** [generateSecret], from the four bytes the cryptographic generator
    delivers. *)
Definition byteToHex (byte : Z) : jsstring :=
  JS.padStart 2 (JS.ch "0") (JS.Z_toString16 byte).

Definition generateSecret (bytes : list Z) : jsstring := flat_map byteToHex bytes.

(** [parseInt(s, 16)] on a string of at most two characters; [None] is
    NaN. *)
Definition parseInt16 (str : jsstring) : option Z :=
  match str with
  | [] => None
  | a :: rest =>
      match JS.hex_value a with
      | None => None
      | Some hi =>
          match rest with
          | b :: _ =>
              match JS.hex_value b with
              | Some lo => Some (Z.of_N (16 * hi + lo))
              | None => Some (Z.of_N hi)
              end
          | [] => Some (Z.of_N hi)
          end
      end
  end.

(** [hexToBytes]; [None] when some pair of characters is not a number,
    which no secret of [generateSecret] contains. *)
Fixpoint hexToBytes_loop (fuel : nat) (hex : jsstring) : option (list Z) :=
  match fuel with
  | O => Some []
  | S fuel' =>
      match hex with
      | [] => Some []
      | _ :: _ =>
          match parseInt16 (JS.substr hex 0 2), hexToBytes_loop fuel' (drop 2 hex) with
          | Some byte, Some bytes => Some (byte :: bytes)
          | _, _ => None
          end
      end
  end.

Definition hexToBytes (hex : jsstring) : option (list Z) :=
  hexToBytes_loop (length hex) hex.

(** [secretToPolynomial]. *)
Definition secretToPolynomial (secret : jsstring) : option (list Z) :=
  match hexToBytes secret with
  | Some secretBytes => Some (map (fun byte => Z.rem byte fieldSize) secretBytes)
  | None => None
  end.

(** [encodeMinutia]. *)
Definition encodeMinutia (minutia : MinutiaePoint) : Z :=
  let combined :=
    Z.rem (minutia.(x) * 1000 + minutia.(y) * 10 + Qfloor minutia.(angle)
           + (match minutia.(type) with bifurcation => 1 | ending => 0 end))
          fieldSize in
  Z.max 1 combined.

(** [evaluatePolynomial]. *)
Fixpoint evaluate_loop (coefficients : list Z) (x0 : Z) (result power : Z) : Z :=
  match coefficients with
  | [] => result
  | coeff :: rest =>
      evaluate_loop rest x0 (Z.rem (result + coeff * power) fieldSize)
                    (Z.rem (power * x0) fieldSize)
  end.

Definition evaluatePolynomial (coefficients : list Z) (x0 : Z) : Z :=
  evaluate_loop coefficients x0 0 1.

(** [shuffleArray]. *)
Definition swap {A : Type} (arr : list A) (i j : nat) : list A :=
  match arr !! i, arr !! j with
  | Some ai, Some aj => <[j := ai]> (<[i := aj]> arr)
  | _, _ => arr
  end.

Fixpoint shuffle_loop {A : Type} (rnd : MathRandom) (draw : nat) (i : nat)
    (shuffled : list A) : list A :=
  match i with
  | O => shuffled
  | S i' =>
      let j := randomBelow rnd draw (i + 1) in
      shuffle_loop rnd (S draw) i' (swap shuffled i j)
  end.

Definition shuffleArray {A : Type} (rnd : MathRandom) (draw : nat) (array : list A) : list A :=
  shuffle_loop rnd draw (length array - 1) array.

(** [generateVaultPoints]. *)
Definition realPoints (minutiae : list MinutiaePoint) (polynomial : list Z) : list (Z * Z) :=
  map (fun minutia =>
         let x0 := encodeMinutia minutia in
         (x0, evaluatePolynomial polynomial x0))
      minutiae.

Definition chaffPoints (rnd : MathRandom) (chaffCount : nat) : list (Z * Z) :=
  map (fun i =>
         (Z.of_nat (randomBelow rnd (2 * i) (Z.to_nat fieldSize)),
          Z.of_nat (randomBelow rnd (2 * i + 1) (Z.to_nat fieldSize))))
      (seq 0 chaffCount).

Definition generateVaultPoints (rnd : MathRandom) (minutiae : list MinutiaePoint)
    (polynomial : list Z) : list (Z * Z) :=
  let chaffCount := (vaultSize - length minutiae)%nat in
  shuffleArray rnd (2 * chaffCount)
    (realPoints minutiae polynomial ++ chaffPoints rnd chaffCount).

(** [generateVault], from the random bytes of the secret and the draws of
    [Math.random]. *)
Definition generateVault (bytes : list Z) (rnd : MathRandom)
    (minutiae : list MinutiaePoint) : option FuzzyVault :=
  let secret0 := generateSecret bytes in
  match secretToPolynomial secret0 with
  | Some polynomial0 =>
      Some {| vault := generateVaultPoints rnd minutiae polynomial0;
              secret := secret0;
              polynomial := polynomial0 |}
  | None => None
  end.

(** [findMatchingPoints]: for every minutia the first vault point with
    its abscissa, if there is one. *)
Definition findMatchingPoints (vault0 : list (Z * Z)) (minutiae : list MinutiaePoint)
    : list (Z * Z) :=
  flat_map (fun minutia =>
              let encodedX := encodeMinutia minutia in
              match List.find (fun point => fst point =? encodedX) vault0 with
              | Some point => [point]
              | None => []
              end)
           minutiae.

(** [modInverse]: the extended Euclidean algorithm.  After the first
    step the remainder lies in [0, m) and then decreases, so [m + 2]
    steps always reach zero for a positive modulus. *)
Fixpoint modInverse_loop (fuel : nat) (oldR r oldS s0 : Z) : Z * Z :=
  match fuel with
  | O => (oldR, oldS)
  | S fuel' =>
      if r =? 0 then (oldR, oldS)
      else
        let quotient := oldR / r in
        modInverse_loop fuel' r (oldR - quotient * r) s0 (oldS - quotient * s0)
  end.

Definition modInverse (a m : Z) : Z :=
  let oldS := snd (modInverse_loop (Z.to_nat m + 2) a m 1 0) in
  if oldS <? 0 then oldS + m else oldS.

(** [lagrangeInterpolation]. *)
Definition multiplyTerm (n : nat) (term : list Z) (xj denominator : Z) : list Z :=
  map (fun k =>
         let scaled := Z.rem (nth k term 0 * denominator) fieldSize in
         if (0 <? k)%nat
         then Z.rem (scaled - nth (k - 1) term 0 * xj * denominator) fieldSize
         else scaled)
      (seq 0 n).

Definition lagrangeTerm (points : list (Z * Z)) (i : nat) (xi yi : Z) : list Z :=
  let n := length points in
  foldl (fun term '(j, (xj, _)) =>
           if (i =? j)%nat then term
           else
             let denominator :=
               modInverse (Z.rem (xi - xj + fieldSize) fieldSize) fieldSize in
             multiplyTerm n term xj denominator)
        (<[0%nat := yi]> (replicate n 0))
        (zip (seq 0 n) points).

Definition lagrangeInterpolation (points : list (Z * Z)) : list Z :=
  let n := length points in
  foldl (fun coefficients '(i, (xi, yi)) =>
           let term := lagrangeTerm points i xi yi in
           map (fun k => Z.rem (nth k coefficients 0 + nth k term 0) fieldSize) (seq 0 n))
        (replicate n 0)
        (zip (seq 0 n) points).

(** [polynomialToSecret]. *)
Definition polynomialToSecret (polynomial0 : list Z) : jsstring :=
  flat_map byteToHex polynomial0.

(** [unlockVault]; [None] is [null].  Nothing in the body throws, so the
    handler never runs. *)
Definition unlockVault (vault0 : FuzzyVault) (minutiae : list MinutiaePoint)
    : option jsstring :=
  let matchingPoints := findMatchingPoints vault0.(vault) minutiae in
  if (length matchingPoints <? length vault0.(polynomial))%nat then None
  else Some (polynomialToSecret (lagrangeInterpolation matchingPoints)).

End FuzzyVaultGenerator.

(** ** Phase 3: the watermark codec and the payload distributor
    ([DocumentWatermarker]) *)

Module DocumentWatermarker.

(** [JSON.stringify] of the ultra-compact record: the members in the
    order [f], [s], [t], [c]. *)
Definition member_key (k : ascii) : jsstring := [34; JS.ch k; 34; JS.ch ":"].

Definition stringify (data : UltraCompactWatermarkData) : jsstring :=
  JS.ch "{" :: member_key "f" ++ JS.quoteJSONString data.(f)
  ++ JS.ch "," :: member_key "s" ++ JS.quoteJSONString data.(s)
  ++ JS.ch "," :: member_key "t" ++ JS.Z_toString data.(t)
  ++ JS.ch "," :: member_key "c" ++ JS.quoteJSONString data.(c)
  ++ [JS.ch "}"].

(** [dataToBinary]: the code of every character of the JSON text in
    binary, padded on the left to eight digits. *)
Fixpoint charsToBinary (jsonString : jsstring) : jsstring :=
  match jsonString with
  | [] => []
  | charCode :: rest => JS.padStart 8 (JS.ch "0") (JS.toString2 charCode) ++ charsToBinary rest
  end.

Definition dataToBinary (data : UltraCompactWatermarkData) : jsstring :=
  charsToBinary (stringify data).

(** [binaryToData]: one character per group of eight binary digits (the
    last group may be shorter), then [JSON.parse]. *)
Fixpoint binaryToChars (fuel : nat) (binary : jsstring) : jsstring :=
  match fuel with
  | O => []
  | S fuel' =>
      match binary with
      | [] => []
      | _ :: _ =>
          JS.fromCharCode (JS.parseInt2 (JS.substr binary 0 8))
          :: binaryToChars fuel' (drop 8 binary)
      end
  end.

Definition binaryToData (binary : jsstring) : option JS.JSVal :=
  JS.JSON_parse (binaryToChars (length binary) binary).

Definition ZERO_BIT : N := 8203.   (* U+200B zero width space *)
Definition ONE_BIT : N := 8204.    (* U+200C zero width non-joiner *)
Definition SEPARATOR : N := 8205.  (* U+200D zero width joiner *)

(** [binaryToInvisibleText]: one marker per character of [binary], and a
    separator after every eighth character except the last. *)
Fixpoint binaryToInvisibleText_loop (len i : nat) (rest : jsstring) : jsstring :=
  match rest with
  | [] => []
  | b :: rest' =>
      (if b =? JS.ch "1" then ONE_BIT else ZERO_BIT)
      :: (if ((i + 1) mod 8 =? 0)%nat && negb (i =? len - 1)%nat
          then [SEPARATOR] else [])
      ++ binaryToInvisibleText_loop len (S i) rest'
  end.

Definition binaryToInvisibleText (binary : jsstring) : jsstring :=
  binaryToInvisibleText_loop (length binary) 0 binary.

(** [extractFromZeroWidth]: the bits of all markers of the text, in
    order; [None] when there is none. *)
Fixpoint collectBits (text : jsstring) : jsstring :=
  match text with
  | [] => []
  | c :: text' =>
      if c =? ZERO_BIT then JS.ch "0" :: collectBits text'
      else if c =? ONE_BIT then JS.ch "1" :: collectBits text'
      else collectBits text'
  end.

Definition extractFromZeroWidth (text : jsstring) : option jsstring :=
  match collectBits text with
  | [] => None
  | bits => Some bits
  end.

(** [invisibleTextToBinary]: the bits of the markers up to the first
    character that is no marker. *)
Fixpoint invisibleTextToBinary (invisibleText : jsstring) : jsstring :=
  match invisibleText with
  | [] => []
  | char :: rest =>
      if char =? ZERO_BIT then JS.ch "0" :: invisibleTextToBinary rest
      else if char =? ONE_BIT then JS.ch "1" :: invisibleTextToBinary rest
      else if char =? SEPARATOR then invisibleTextToBinary rest
      else []
  end.

(** The source of random 32-bit words: [rng k i] is [randomBuffer[i]]
    after the [k]-th call of [crypto.getRandomValues(randomBuffer)]. *)
Definition RandomSource := nat -> nat -> N.

(** [pickRandomWordSlots]. *)
Fixpoint pickRandom_fill (rng : RandomSource) (wordIndexes : list nat)
    (count attempt : nat) (i n : nat) (selected : list nat) : list nat :=
  match n with
  | O => selected
  | S n' =>
      if (length selected <? count)%nat then
        let randomIndex := N.to_nat ((rng attempt i mod 2 ^ 32) mod N.of_nat (length wordIndexes)) in
        pickRandom_fill rng wordIndexes count attempt (S i) n'
          (JS.set_add (nth randomIndex wordIndexes 0%nat) selected)
      else selected
  end.

Fixpoint pickRandom_attempts (rng : RandomSource) (wordIndexes : list nat)
    (count attempts left : nat) (selected : list nat) : list nat :=
  match left with
  | O => selected
  | S left' =>
      if (length selected <? count)%nat then
        pickRandom_attempts rng wordIndexes count (S attempts) left'
          (pickRandom_fill rng wordIndexes count attempts 0 (count * 2) selected)
      else selected
  end.

Definition pickRandomWordSlots (rng : RandomSource) (wordIndexes : list nat)
    (count : nat) : list nat :=
  if (length wordIndexes <=? count)%nat then wordIndexes
  else pickRandom_attempts rng wordIndexes count 0 (count * 5) [].

(** The indexes of the tokens that hold a word. *)
Definition isWordToken (t : jsstring) : bool :=
  (0 <? length (JS.trim t))%nat && negb (JS.allWhiteSpace t).

Fixpoint wordIndexes_from (i : nat) (tokens : list jsstring) : list nat :=
  match tokens with
  | [] => []
  | t :: tokens' =>
      if isWordToken t then i :: wordIndexes_from (S i) tokens'
      else wordIndexes_from (S i) tokens'
  end.

(** The number of slots the plain-text distributor asks for. *)
Definition slotsToUse (words payloadLength : nat) : nat :=
  let maxSlots := Nat.max 1 (words * 3 / 10) in
  let minSlots := Nat.max 1 ((payloadLength + 31) / 32) in
  Nat.min words (Nat.max 1 (Nat.min maxSlots minSlots)).

(** The loop that appends one chunk after each selected slot. *)
Fixpoint appendChunks (payload : jsstring) (chunkSize : nat)
    (slots : list nat) (payloadIndex : nat) (tokens : list jsstring)
    : nat * list jsstring :=
  match slots with
  | [] => (payloadIndex, tokens)
  | slot :: slots' =>
      if (length payload <=? payloadIndex)%nat then (payloadIndex, tokens)
      else
        let chunk := JS.slice payload payloadIndex (payloadIndex + chunkSize) in
        appendChunks payload chunkSize slots' (payloadIndex + length chunk)
          (alter (fun t => t ++ chunk) slot tokens)
  end.

(** [distributeInvisiblePayload]. *)
Definition distributeInvisiblePayload (rng : RandomSource)
    (text payload : jsstring) : jsstring :=
  match payload with
  | [] => text
  | _ =>
      let tokens := JS.split_ws text in
      if (length tokens =? 0)%nat then payload ++ text
      else
        let wordIndexes := wordIndexes_from 0 tokens in
        if (length wordIndexes =? 0)%nat then payload ++ text
        else
          let selectedSlots :=
            JS.sort_asc (pickRandomWordSlots rng wordIndexes
                           (slotsToUse (length wordIndexes) (length payload))) in
          let chunkSize :=
            Nat.max 8 ((length payload + length selectedSlots - 1) / length selectedSlots) in
          let '(payloadIndex, tokens1) :=
            appendChunks payload chunkSize selectedSlots 0 tokens in
          let tokens2 :=
            if (payloadIndex <? length payload)%nat then
              match selectedSlots with
              | [] => tokens1   (* [tokens[undefined]] is no array element *)
              | _ =>
                  alter (fun t => t ++ JS.slice payload payloadIndex (length payload))
                    (List.last selectedSlots 0%nat) tokens1
              end
            else tokens1 in
          JS.join tokens2
  end.

Definition embedWithZeroWidth := distributeInvisiblePayload.

(** [embedWatermark]. *)
Definition embedWatermark (rng : RandomSource) (text : jsstring)
    (watermarkData : WatermarkData) : WatermarkEmbeddingResult :=
  let ultraCompactData :=
    {| f := watermarkData.(fingerprintHash);
       s := watermarkData.(wm_vault).(secret);
       t := watermarkData.(timestamp);
       c := watermarkData.(contentHash) |} in
  let watermarkBinary := dataToBinary ultraCompactData in
  let payload := binaryToInvisibleText watermarkBinary in
  {| watermarkedText := embedWithZeroWidth rng text payload;
     invisiblePayload := payload |}.

(** [extractWatermark]; [None] is [null].  Reading a property of a
    parsed [null] throws, and the handler turns that into [null] too. *)
Definition extractWatermark (text : jsstring) : option ParsedWatermarkData :=
  match extractFromZeroWidth text with
  | None => None
  | Some watermarkBinary =>
      match binaryToData watermarkBinary with
      | None => None
      | Some ultraCompactData =>
          match JS.get_property ultraCompactData [JS.ch "f"],
                JS.get_property ultraCompactData [JS.ch "s"],
                JS.get_property ultraCompactData [JS.ch "t"],
                JS.get_property ultraCompactData [JS.ch "c"] with
          | Some vf, Some vs, Some vt, Some vc =>
              Some {| p_fingerprintHash := vf;
                      p_wm_vault := {| p_vault := []; p_secret := vs; p_polynomial := [] |};
                      p_timestamp := vt;
                      p_contentHash := JS.or_else vc (JS.JStr []) |}
          | _, _, _, _ => None
          end
      end
  end.

End DocumentWatermarker.

(** ** The word-processor distributor ([docx-handler.ts]) *)

Module DocxHandler.

(** [determineSlotCount]. *)
Definition determineSlotCount (totalNodes payloadLength : nat) : nat :=
  let maxSlots := Nat.max 1 (totalNodes * 3 / 10) in
  let minSlots := Nat.max 1 ((payloadLength + 31) / 32) in
  Nat.min totalNodes (Nat.max minSlots (Nat.min maxSlots totalNodes)).

(** The two formats of a document, and the MIME type of a Word file. *)
Inductive DocumentFormat : Type := txt | docx.

Definition DOCX_MIME : jsstring :=
  JS.lit "application/vnd.openxmlformats-officedocument.wordprocessingml.document".

Section Files.

(** A [File] of the browser: its [name] and [type], the promise of
    [file.text()], the text [mammoth.extractRawText] extracts from it,
    and [String.prototype.toLowerCase]. *)
Variable File : Type.
Variable fileName : File -> jsstring.
Variable fileType : File -> jsstring.
Variable fileText : File -> Promise jsstring.
Variable extractTextFromDocx : File -> Promise jsstring.
Variable toLowerCase : jsstring -> jsstring.

(** [isDocLikeFile]. *)
Definition isDocLikeFile (file : File) : bool :=
  let lowerName := toLowerCase (fileName file) in
  bool_decide (fileType file = DOCX_MIME)
  || bool_decide (fileType file = JS.lit "application/msword")
  || JS.endsWith lowerName (JS.lit ".docx")
  || JS.endsWith lowerName (JS.lit ".doc").

(** [readDocumentAsPlainText]. *)
Definition readDocumentAsPlainText (file : File) : Promise (jsstring * DocumentFormat) :=
  if isDocLikeFile file then
    match extractTextFromDocx file with
    | Resolved text => Resolved (text, docx)
    | Rejected _ =>
        match fileText file with
        | Resolved fallbackText => Resolved (fallbackText, docx)
        | Rejected message => Rejected message
        end
    end
  else
    match fileText file with
    | Resolved text => Resolved (text, txt)
    | Rejected message => Rejected message
    end.

End Files.

(** [escapeXml]. *)
Definition escapeXml (value : jsstring) : jsstring :=
  JS.replaceAll (JS.ch "'") (JS.lit "&apos;")
    (JS.replaceAll 34 (JS.lit "&quot;")
       (JS.replaceAll (JS.ch ">") (JS.lit "&gt;")
          (JS.replaceAll (JS.ch "<") (JS.lit "&lt;")
             (JS.replaceAll (JS.ch "&") (JS.lit "&amp;") value)))).

(** The text nodes [embedPayloadInDocx] may write to: [textContent.trim()]
    is not empty and [/[\w\d]/] matches. *)
Definition isWordChar (char : N) : bool :=
  ((48 <=? char) && (char <=? 57)) || ((65 <=? char) && (char <=? 90))
  || (char =? 95) || ((97 <=? char) && (char <=? 122)).

Definition isCandidateNode (textContent : jsstring) : bool :=
  (0 <? length (JS.trim textContent))%nat && existsb isWordChar textContent.

Fixpoint candidateIndexes_from (i : nat) (textNodes : list jsstring) : list nat :=
  match textNodes with
  | [] => []
  | textContent :: textNodes' =>
      if isCandidateNode textContent then i :: candidateIndexes_from (S i) textNodes'
      else candidateIndexes_from (S i) textNodes'
  end.

(** [pickRandomIndexes].  The [while] loop has no bound in the source;
    [fuel] bounds the number of times it refills the buffer, and [None]
    is a loop that has not finished by then. *)
Fixpoint pickIndexes_fill (rng : DocumentWatermarker.RandomSource)
    (length0 count attempt : nat) (i n : nat) (selected : list nat) : list nat :=
  match n with
  | O => selected
  | S n' =>
      if (length selected <? count)%nat then
        let index := N.to_nat ((rng attempt i mod 2 ^ 32) mod N.of_nat length0) in
        pickIndexes_fill rng length0 count attempt (S i) n' (JS.set_add index selected)
      else selected
  end.

Fixpoint pickIndexes_loop (fuel : nat) (rng : DocumentWatermarker.RandomSource)
    (length0 count attempt : nat) (selected : list nat) : option (list nat) :=
  if (length selected <? count)%nat then
    match fuel with
    | O => None
    | S fuel' =>
        pickIndexes_loop fuel' rng length0 count (S attempt)
          (pickIndexes_fill rng length0 count attempt 0 (count * 2) selected)
    end
  else Some selected.

Definition pickRandomIndexes (fuel : nat) (rng : DocumentWatermarker.RandomSource)
    (length0 count : nat) : option (list nat) :=
  if (length0 <=? count)%nat then Some (seq 0 length0)
  else pickIndexes_loop fuel rng length0 count 0 [].

(** The loop of [embedPayloadInDocx] over the selected nodes; a node is
    named by its position among the text nodes of the document. *)
Fixpoint appendToNodes (payload : jsstring) (chunkSize : nat) (candidateNodes : list nat)
    (selectedIndexes : list nat) (cursor : nat) (nodes : list jsstring)
    : nat * list jsstring :=
  match selectedIndexes with
  | [] => (cursor, nodes)
  | index :: selectedIndexes' =>
      let node := nth index candidateNodes 0%nat in
      if (length payload <=? cursor)%nat then (cursor, nodes)
      else
        let chunk := JS.slice payload cursor (cursor + chunkSize) in
        appendToNodes payload chunkSize candidateNodes selectedIndexes'
          (cursor + length chunk)
          (alter (fun textContent => textContent ++ chunk) node nodes)
  end.

(** [embedPayloadInDocx] on the text nodes of [word/document.xml]: the
    [textContent] of every [w:t] element in document order, before and
    after.  Without a candidate an empty text node is appended to the
    body.  (With no selected index [Math.ceil] divides by zero; this is
    never reached, a candidate is always selected.) *)
Definition embedPayloadInNodes (fuel : nat) (rng : DocumentWatermarker.RandomSource)
    (textNodes : list jsstring) (payload : jsstring) : option (list jsstring) :=
  match payload with
  | [] => Some textNodes
  | _ =>
      let found := candidateIndexes_from 0 textNodes in
      let nodes := if (length found =? 0)%nat then textNodes ++ [[]] else textNodes in
      let candidateNodes :=
        if (length found =? 0)%nat then [length textNodes] else found in
      let slotsToUse := determineSlotCount (length candidateNodes) (length payload) in
      match pickRandomIndexes fuel rng (length candidateNodes) slotsToUse with
      | None => None
      | Some picked =>
          let selectedIndexes := JS.sort_asc picked in
          let chunkSize :=
            Nat.max 8 ((length payload + length selectedIndexes - 1)
                       / length selectedIndexes) in
          let '(cursor, nodes1) :=
            appendToNodes payload chunkSize candidateNodes selectedIndexes 0 nodes in
          Some (if (cursor <? length payload)%nat && (0 <? length selectedIndexes)%nat
                then alter (fun textContent =>
                              textContent ++ JS.slice payload cursor (length payload))
                           (nth (List.last selectedIndexes 0%nat) candidateNodes 0%nat)
                           nodes1
                else nodes1)
      end
  end.


End DocxHandler.

(** ** The orchestrator ([BiometricEncryptionService]) *)

Module BiometricEncryptionService.

(** [ToInt32]. *)
Definition toInt32 (z : Z) : Z := ((z + 2 ^ 31) mod 2 ^ 32 - 2 ^ 31)%Z.

(** [simpleHash]. *)
Definition hashStep (hash : Z) (char : N) : Z :=
  let hash1 := (toInt32 (hash * 32) - hash + Z.of_N char)%Z in
  toInt32 hash1.

Definition simpleHash (str : jsstring) : jsstring :=
  JS.Z_toString16 (Z.abs (foldl hashStep 0%Z str)).

(** [hashContent]. *)
Definition hashContent (content : jsstring) : jsstring :=
  let normalizedContent := JS.collapse_ws false (JS.trim content) in
  simpleHash normalizedContent.

(** [getUserVisibleText]. *)
Definition isMarker (c : N) : bool :=
  (c =? DocumentWatermarker.ZERO_BIT) || (c =? DocumentWatermarker.ONE_BIT)
  || (c =? DocumentWatermarker.SEPARATOR).

Definition getUserVisibleText (watermarkedText : jsstring) : jsstring :=
  List.filter (fun c => negb (isMarker c)) watermarkedText.

(** Sequencing of steps that may throw or reject. *)
Definition bind {A B : Type} (p : Promise A) (k : A -> Promise B) : Promise B :=
  match p with
  | Resolved a => k a
  | Rejected message => Rejected message
  end.

Notation "'await' x := p 'in' k" := (bind p (fun x => k))
  (at level 10, x name, p at level 100, k at level 200).

Section Service.

(** The files of the browser and what reading them gives: the decoded
    image of a fingerprint file and the plain text of a document
    ([readDocumentAsPlainText]). *)
Variable File : Type.
Variable decodeImage : File -> option ImageData.
Variable readDocument : File -> Promise jsstring.

Variable luminance : N -> N -> N -> Z.
Variable atan2_degrees : Z -> Z -> Q.

(** [String(angle)] for the floating-point angle of a minutia. *)
Variable angleToString : Q -> jsstring.

(** [hashMinutiae]. *)
Definition minutiaText (m : MinutiaePoint) : jsstring :=
  JS.Z_toString m.(x) ++ JS.ch "," :: JS.Z_toString m.(y)
  ++ JS.ch "," :: angleToString m.(angle)
  ++ JS.ch "," :: match m.(type) with
                  | ending => JS.lit "ending"
                  | bifurcation => JS.lit "bifurcation"
                  end.

Fixpoint joinWith (separator : N) (parts : list jsstring) : jsstring :=
  match parts with
  | [] => []
  | [part] => part
  | part :: rest => part ++ separator :: joinWith separator rest
  end.

Definition hashMinutiae (minutiae : list MinutiaePoint) : jsstring :=
  simpleHash (joinWith (JS.ch "|") (map minutiaText minutiae)).

Definition readWatermarkedDocument (file : File) : Promise jsstring :=
  readDocument file.

(** The text [verifyDocument] works on: the string itself, or the text
    read from the file. *)
Definition textOf (encryptedDocument : jsstring + File) : Promise jsstring :=
  match encryptedDocument with
  | inl text => Resolved text
  | inr file => readWatermarkedDocument file
  end.

(** The body of the [try] block of [verifyDocument]. *)
Definition verifyDocument_try (fingerprintFile : File)
    (encryptedDocument : jsstring + File) : Promise bool :=
  await encryptedText := textOf encryptedDocument in
  match DocumentWatermarker.extractWatermark encryptedText with
  | None => Resolved false
  | Some watermarkData =>
      let visibleContent := getUserVisibleText encryptedText in
      let currentContentHash := hashContent visibleContent in
      if JS.truthy watermarkData.(p_contentHash)
         && negb (JS.string_strict_eq currentContentHash watermarkData.(p_contentHash))
      then Resolved false
      else
        await minutiae :=
          FingerprintProcessor.processFingerprint luminance atan2_degrees
            (decodeImage fingerprintFile) in
        let currentHash := hashMinutiae minutiae in
        if negb (JS.string_strict_eq currentHash watermarkData.(p_fingerprintHash))
        then Resolved false
        else Resolved true
  end.

(** [verifyDocument]: the handler turns every rejection into [false]. *)
Definition verifyDocument (fingerprintFile : File)
    (encryptedDocument : jsstring + File) : bool :=
  match verifyDocument_try fingerprintFile encryptedDocument with
  | Resolved verified => verified
  | Rejected _ => false
  end.

End Service.

(** The result of [encryptDocument]. *)
Record EncryptionResult (Blob : Type) : Type := {
  encryptedDocument : jsstring;
  watermarkData : WatermarkData;
  downloadBlob : Blob;
  downloadName : jsstring;
  mimeType : jsstring;
  format : DocxHandler.DocumentFormat
}.

Arguments encryptedDocument {Blob} _.
Arguments watermarkData {Blob} _.
Arguments downloadBlob {Blob} _.
Arguments downloadName {Blob} _.
Arguments mimeType {Blob} _.
Arguments format {Blob} _.

(** [buildDownloadName].  [originalName.replace(/\.[^/.]+$/, ...)] removes
    the leftmost match: a full stop followed by one or more characters,
    none of them a slash or a full stop, up to the end of the name. *)
Definition isExtensionChar (char : N) : bool :=
  negb ((char =? JS.ch "/") || (char =? JS.ch ".")).

Fixpoint stripExtension (originalName : jsstring) : jsstring :=
  match originalName with
  | [] => []
  | char :: rest =>
      if (char =? JS.ch ".") && negb (length rest =? 0)%nat && forallb isExtensionChar rest
      then []
      else char :: stripExtension rest
  end.

Definition buildDownloadName (originalName : jsstring)
    (format0 : DocxHandler.DocumentFormat) : jsstring :=
  let safeBase :=
    if negb (length originalName =? 0)%nat then stripExtension originalName
    else JS.lit "document" in
  let extension :=
    match format0 with
    | DocxHandler.docx => JS.lit ".docx"
    | DocxHandler.txt => JS.lit ".txt"
    end in
  JS.lit "encrypted_" ++ safeBase ++ extension.

Section Encryption.

Variable File : Type.
Variable decodeImage : File -> option ImageData.
Variable fileName : File -> jsstring.
Variable fileType : File -> jsstring.
Variable fileText : File -> Promise jsstring.
Variable extractTextFromDocx : File -> Promise jsstring.
Variable toLowerCase : jsstring -> jsstring.

Variable luminance : N -> N -> N -> Z.
Variable atan2_degrees : Z -> Z -> Q.
Variable angleToString : Q -> jsstring.

(** The download artifact: the blob of [embedPayloadInDocx], of
    [createDocxFromText], and [new Blob([text], { type: "text/plain" })]. *)
Variable Blob : Type.
Variable embedPayloadInDocx : File -> jsstring -> Promise Blob.
Variable createDocxFromText : jsstring -> Promise Blob.
Variable textBlob : jsstring -> Blob.

(** [readDocument], and the text [readWatermarkedDocument] returns. *)
Definition readDocumentWithFormat (file : File)
    : Promise (jsstring * DocxHandler.DocumentFormat) :=
  DocxHandler.readDocumentAsPlainText File fileName fileType fileText
    extractTextFromDocx toLowerCase file.

Definition readDocumentText (file : File) : Promise jsstring :=
  await document := readDocumentWithFormat file in Resolved (fst document).

(** [encryptDocument], from the random bytes of the secret, the draws of
    [Math.random], the random words of the distributor and the value of
    [Date.now()].  [generateVault] has no polynomial only for a secret
    that is no hexadecimal text, which [generateSecret] never returns. *)
Definition encryptDocument (bytes : list Z) (rnd : FuzzyVaultGenerator.MathRandom)
    (rng : DocumentWatermarker.RandomSource) (now : Z)
    (fingerprintFile documentFile : File) : Promise (EncryptionResult Blob) :=
  await minutiae :=
    FingerprintProcessor.processFingerprint luminance atan2_degrees
      (decodeImage fingerprintFile) in
  match FuzzyVaultGenerator.generateVault bytes rnd minutiae with
  | None => Rejected (JS.lit "NaN")
  | Some vault0 =>
      await document := readDocumentWithFormat documentFile in
      let documentText := fst document in
      let format0 := snd document in
      let contentHash0 := hashContent documentText in
      let watermarkData0 :=
        {| fingerprintHash := hashMinutiae angleToString minutiae;
           wm_vault := vault0;
           timestamp := now;
           contentHash := contentHash0 |} in
      let embedding := DocumentWatermarker.embedWatermark rng documentText watermarkData0 in
      let encryptedDocument0 := embedding.(watermarkedText) in
      let isLegacyDoc :=
        JS.endsWith (toLowerCase (fileName documentFile)) (JS.lit ".doc") in
      await downloadBlob0 :=
        match format0 with
        | DocxHandler.docx =>
            if negb isLegacyDoc then
              match embedPayloadInDocx documentFile embedding.(invisiblePayload) with
              | Resolved blob => Resolved blob
              | Rejected _ => createDocxFromText encryptedDocument0
              end
            else createDocxFromText encryptedDocument0
        | DocxHandler.txt => Resolved (textBlob encryptedDocument0)
        end in
      Resolved {| encryptedDocument := encryptedDocument0;
                  watermarkData := watermarkData0;
                  downloadBlob := downloadBlob0;
                  downloadName := buildDownloadName (fileName documentFile) format0;
                  mimeType := match format0 with
                              | DocxHandler.docx => DocxHandler.DOCX_MIME
                              | DocxHandler.txt => JS.lit "text/plain"
                              end;
                  format := format0 |}
  end.

End Encryption.

End BiometricEncryptionService.

(** * Specification vocabulary and sample data *)

Section Vocabulary.

Import FingerprintProcessor.
Import FuzzyVaultGenerator.
Import DocumentWatermarker.
Import DocxHandler.
Import BiometricEncryptionService.

(** ** Minutiae *)

(** The squared Euclidean distance of two minutiae. *)
Definition distance2 (p q : MinutiaePoint) : Z :=
  ((p.(x) - q.(x)) ^ 2 + (p.(y) - q.(y)) ^ 2)%Z.

(** The greedy rule of the specification: once eighty points are kept
    nothing more is; before that a candidate is kept when it is at least
    five pixels from every point kept so far. *)
Definition greedy_step (kept : list MinutiaePoint) (candidate : MinutiaePoint)
    : list MinutiaePoint :=
  if (80 <=? length kept)%nat then kept
  else if forallb (fun existing => (25 <=? distance2 existing candidate)%Z) kept
       then kept ++ [candidate]
       else kept.

(** Any two points at different positions of the list are at least five
    pixels apart. *)
Definition farApart (kept : list MinutiaePoint) : Prop :=
  forall i j p q, i <> j -> kept !! i = Some p -> kept !! j = Some q ->
                  (25 <= distance2 p q)%Z.

(** A ridge ending with angle zero at a given pixel. *)
Definition minutiaAt (px py : Z) : MinutiaePoint :=
  {| x := px; y := py; angle := 0; type := ending |}.

(** Twelve minutiae, well apart, with twelve different abscissas. *)
Definition twelveMinutiae : list MinutiaePoint :=
  map (fun i => minutiaAt (10 * Z.of_nat i)%Z 1%Z) (seq 1 12).

(** Five minutiae of which the first two, at (1, 1) and (2, 152), have
    the same abscissa 6. *)
Definition collidingMinutiae : list MinutiaePoint :=
  [minutiaAt 1 1; minutiaAt 2 152; minutiaAt 10 1; minutiaAt 20 1; minutiaAt 30 1].

(** ** Images *)

(** The index of channel [channel] of the pixel in column [px] of row
    [py]. *)
Definition channelIndex (width px py channel : nat) : nat :=
  ((py * width + px) * 4 + channel)%nat.

Definition onBorder (width height px py : nat) : Prop :=
  px = 0%nat \/ py = 0%nat \/ px = (width - 1)%nat \/ py = (height - 1)%nat.

(** A white, opaque image of 3x3 pixels. *)
Definition whiteImage : list N := replicate 36 255.

(** ** Slot counts *)

(** The slot count of the specification:
    [clamp(1, max(1, ceil(payloadLen / 32)), max(1, floor(0.3 * slotCount)))],
    capped at the number of candidate slots. *)
Definition spec_minSlots (payloadLength : nat) : nat :=
  Nat.max 1 (Z.to_nat (Qceiling (inject_Z (Z.of_nat payloadLength) / 32))).

Definition spec_maxSlots (slotCount : nat) : nat :=
  Nat.max 1 (Z.to_nat (Qfloor ((3 # 10) * inject_Z (Z.of_nat slotCount)))).

Definition clamp (low value high : nat) : nat := Nat.max low (Nat.min value high).

Definition spec_slotCount (slotCount payloadLength : nat) : nat :=
  Nat.min slotCount (clamp 1 (spec_minSlots payloadLength) (spec_maxSlots slotCount)).

(** ** Random sources *)

(** A source of random words that varies with the attempt and the
    position, and a [Math.random] that always draws zero. *)
Definition sampleRandom : RandomSource := fun attempt i => N.of_nat (7 * attempt + 3 * i + 1).

Definition noRandom : MathRandom := fun _ => 0%nat.

(** ** The codec *)

(** A character as eight binary digits. *)
Definition byteBits (charCode : N) : jsstring :=
  JS.padStart 8 (JS.ch "0") (JS.toString2 charCode).

(** A string of 8-bit characters. *)
Definition latin1 (str : jsstring) : Prop := Forall (fun c0 => c0 < 256) str.

(** What the string parser returns for a character followed by the rest
    of a string. *)
Definition parsedAs (c0 : N) (result : option (jsstring * jsstring))
    : option (jsstring * jsstring) :=
  match result with
  | Some (str, rest) => Some (c0 :: str, rest)
  | None => None
  end.

(** The input does not go on with a decimal digit. *)
Definition startsWithoutDigit (X : jsstring) : Prop :=
  match X with
  | c0 :: _ => JS.isDigit c0 = false
  | [] => True
  end.

(** The ultra-compact form of a record, and the value [JSON.parse] builds
    from its text. *)
Definition compact (record : WatermarkData) : UltraCompactWatermarkData :=
  {| f := record.(fingerprintHash);
     s := record.(wm_vault).(secret);
     t := record.(timestamp);
     c := record.(contentHash) |}.

Definition parsedRecord (data : UltraCompactWatermarkData) : JS.JSVal :=
  JS.JObj [([JS.ch "f"], JS.JStr data.(f));
           ([JS.ch "s"], JS.JStr data.(s));
           ([JS.ch "t"], JS.JNum (inject_Z data.(t)));
           ([JS.ch "c"], JS.JStr data.(c))].

(** A record the codec carries faithfully: its three strings hold 8-bit
    characters only, and its timestamp is an integer JavaScript holds
    exactly. *)
Definition wellFormed (record : WatermarkData) : Prop :=
  latin1 record.(fingerprintHash)
  /\ latin1 record.(wm_vault).(secret)
  /\ latin1 record.(contentHash)
  /\ (- 2 ^ 53 < record.(timestamp) < 2 ^ 53)%Z.

(** The record [extractWatermark] returns for an embedded [record]: the
    four fields it carries, and an empty vault and polynomial. *)
Definition extracted (record : WatermarkData) : ParsedWatermarkData :=
  {| p_fingerprintHash := JS.JStr record.(fingerprintHash);
     p_wm_vault := {| p_vault := [];
                      p_secret := JS.JStr record.(wm_vault).(secret);
                      p_polynomial := [] |};
     p_timestamp := JS.JNum (inject_Z record.(timestamp));
     p_contentHash := JS.JStr record.(contentHash) |}.

(** The record of the specification's scenario, a record without content
    hash, and a record whose identity hash is the one character U+20AC. *)
Definition sampleRecord : WatermarkData :=
  {| fingerprintHash := JS.lit "test123";
     wm_vault := {| vault := [(1, 2); (3, 4)]%Z; secret := JS.lit "testsecret";
                    polynomial := [1; 2]%Z |};
     timestamp := 1700000000000;
     contentHash := JS.lit "7fa3" |}.

Definition legacyRecord : WatermarkData :=
  {| fingerprintHash := JS.lit "test123";
     wm_vault := {| vault := []; secret := JS.lit "testsecret"; polynomial := [] |};
     timestamp := 1700000000000;
     contentHash := [] |}.


(** ** Polynomials over the field *)

(** The value of the polynomial with the given coefficients, lowest
    degree first. *)
Fixpoint polynomialValue (coefficients : list Z) (x0 : Z) : Z :=
  match coefficients with
  | [] => 0%Z
  | coeff :: rest => (coeff + x0 * polynomialValue rest x0)%Z
  end.

(** ** Pixels and sample images *)

(** The red values of the 3x3 neighbourhood of a pixel, row by row. *)
Definition redNeighbourhood (data : list N) (width px py : nat) : list N :=
  flat_map (fun ky : Z =>
    map (fun kx : Z =>
      nth (Z.to_nat (((Z.of_nat py + ky) * Z.of_nat width + (Z.of_nat px + kx)) * 4))
          data 0)
      [-1; 0; 1]%Z)
    [-1; 0; 1]%Z.

(** A pixel that is not on the border of the image. *)
Definition interior (width height px py : nat) : Prop :=
  (1 <= px <= width - 2 /\ 1 <= py <= height - 2)%nat.

(** What thinning may do to an image: every pixel keeps its value, or is
    an interior pixel that was 1 and is now 0. *)
Definition thinned (width height : nat) (original current : list N) : Prop :=
  length current = length original
  /\ forall k, current !! k = original !! k
               \/ (original !! k = Some 1 /\ current !! k = Some 0
                   /\ exists px py, interior width height px py
                                    /\ k = (py * width + px)%nat).

(** An image of [w] by [h] opaque pixels, white where [inside] holds and
    black elsewhere. *)
Definition blackAndWhite (w h : nat) (inside : nat -> nat -> bool) : ImageData :=
  {| data := flat_map (fun py =>
               flat_map (fun px => if inside px py then [255; 255; 255; 255]
                                   else [0; 0; 0; 255])
                        (seq 0 w))
               (seq 0 h);
     width := w;
     height := h |}.

(** Twelve white blocks of 3 by 4 pixels, in three rows of four, on a
    black ground of 19 by 17 pixels; and a ridge of two pixels in an
    image of 3 by 3. *)
Definition blocksImage : ImageData :=
  blackAndWhite 19 17
    (fun px py => (1 <=? px)%nat && (1 <=? py)%nat
                  && ((px - 1) mod 5 <? 3)%nat && ((py - 1) mod 6 <? 4)%nat).

Definition ridgeImage : ImageData :=
  blackAndWhite 3 3 (fun px py => (1 <=? px)%nat && (py =? 1)%nat).

(** A grey, opaque image of 3x3 pixels with nine different levels: 70 in
    the middle, and the median 50 to its right. *)
Definition rampImage : list N :=
  flat_map (fun level => [level; level; level; 255]) [90; 10; 80; 20; 70; 50; 30; 60; 40].

(** The grey level of a grey pixel, and a ridge direction that is always
    zero. *)
Definition greyLevel (r g b : N) : Z := Z.of_N r.

Definition noAngle (wy wx : Z) : Q := 0.

(** ** Words, digits and entities *)

(** The words of a text: its maximal runs of characters that are not
    white space.  [current] is the word being read. *)
Fixpoint words_scan (content current : jsstring) : list jsstring :=
  match content with
  | [] => match current with [] => [] | _ => [current] end
  | char :: rest =>
      if JS.isWhiteSpace char
      then match current with
           | [] => words_scan rest []
           | _ => current :: words_scan rest []
           end
      else words_scan rest (current ++ [char])
  end.

Definition words (content : jsstring) : list jsstring := words_scan content [].

(** A lower-case hexadecimal digit. *)
Definition isHexDigit (char : N) : bool :=
  ((48 <=? char) && (char <=? 57)) || ((97 <=? char) && (char <=? 102)).

(** The entity of a character in XML text. *)
Definition xmlEntity (char : N) : jsstring :=
  if char =? JS.ch "&" then JS.lit "&amp;"
  else if char =? JS.ch "<" then JS.lit "&lt;"
  else if char =? JS.ch ">" then JS.lit "&gt;"
  else if char =? 34 then JS.lit "&quot;"
  else if char =? JS.ch "'" then JS.lit "&apos;"
  else [char].

Definition isXmlSpecial (char : N) : bool :=
  (char =? JS.ch "<") || (char =? JS.ch ">") || (char =? 34) || (char =? JS.ch "'").

(** ** A sample browser *)

(** A browser with two files: [true] is the image of a fingerprint that
    decodes to [blocksImage], [false] is the text document [notes.txt]. *)
Definition sampleDecodeImage (file : bool) : option ImageData :=
  if file then Some blocksImage else None.

Definition sampleFileName (file : bool) : jsstring :=
  if file then JS.lit "finger.png" else JS.lit "notes.txt".

Definition sampleFileType (file : bool) : jsstring :=
  if file then JS.lit "image/png" else JS.lit "text/plain".

Definition sampleFileText (file : bool) : Promise jsstring :=
  Resolved (JS.lit "Meet  me at noon").

Definition noDocx (file : bool) : Promise jsstring := Rejected (JS.lit "not a zip file").

Definition noDocxBlob (file : bool) (payload : jsstring) : Promise jsstring :=
  Rejected (JS.lit "not a zip file").

Definition angleAsZero (angle0 : Q) : jsstring := JS.lit "0".

Definition sampleLowerCase (name : jsstring) : jsstring := name.

Definition sampleTextBlob (text : jsstring) : jsstring := text.

(** Three text nodes of a word-processor document, a payload of sixteen
    bits and one of thirty-two. *)
Definition sampleNodes : list jsstring := [JS.lit "Hello"; JS.lit " "; JS.lit "world"].


Definition longPayload : jsstring :=
  binaryToInvisibleText (JS.lit "01001000011010010100100001101001").

End Vocabulary.

(** The sample encryption and the verifier of the sample browser. *)
Abbreviation sampleEncrypt :=
  (BiometricEncryptionService.encryptDocument bool sampleDecodeImage sampleFileName
     sampleFileType sampleFileText noDocx sampleLowerCase greyLevel noAngle angleAsZero
     jsstring noDocxBlob Resolved sampleTextBlob [1; 2; 3; 4]%Z noRandom sampleRandom
     1700000000000 true false).

Abbreviation sampleVerify :=
  (BiometricEncryptionService.verifyDocument bool sampleDecodeImage
     (BiometricEncryptionService.readDocumentText bool sampleFileName sampleFileType
        sampleFileText noDocx sampleLowerCase)
     greyLevel noAngle angleAsZero).

(** Character constants are evaluated before a goal is simplified. *)
Ltac eval_chars :=
  repeat match goal with
         | |- context [JS.ch ?a] =>
             let v := eval vm_compute in (JS.ch a) in change (JS.ch a) with v
         end.

(** * Properties *)

(** ** The model of the JavaScript runtime on small inputs *)

Section Runtime.

Import BiometricEncryptionService.

Example split_ws_words :
  JS.split_ws (JS.lit "a b") = [JS.lit "a"; JS.lit " "; JS.lit "b"]
  /\ JS.split_ws (JS.lit " a") = [[]; JS.lit " "; JS.lit "a"]
  /\ JS.split_ws (JS.lit "a  ") = [JS.lit "a"; JS.lit "  "; []]
  /\ JS.split_ws [] = [[]].
Proof. repeat split; reflexivity. Qed.

Example toString2_padStart :
  JS.padStart 8 (JS.ch "0") (JS.toString2 123) = JS.lit "01111011"
  /\ JS.padStart 8 (JS.ch "0") (JS.toString2 8364) = JS.lit "10000010101100"
  /\ JS.fromCharCode (JS.parseInt2 (JS.lit "01111011")) = 123.
Proof. repeat split; reflexivity. Qed.

Example JSON_parse_values :
  JS.JSON_parse (JS.lit "[1, -25, true, null, {}]")
  = Some (JS.JArr [JS.JNum 1; JS.JNum (-25); JS.JBool true; JS.JNull; JS.JObj []])
  /\ JS.JSON_parse (JS.lit "{'a':1}") = None
  /\ JS.JSON_parse (JS.lit "01") = None
  /\ JS.JSON_parse (JS.lit "null") = Some JS.JNull.
Proof. repeat split; reflexivity. Qed.

Example quoteJSONString_escapes :
  JS.quoteJSONString [JS.ch "a"; 10; 34; 92; 1; 233]
  = [34; JS.ch "a"; 92; JS.ch "n"; 92; 34; 92; 92;
     92; JS.ch "u"; 48; 48; 48; 49; 233; 34].
Proof. reflexivity. Qed.

Example simpleHash_Hi :
  simpleHash (JS.lit "Hi") = JS.lit "921"
  /\ hashContent (JS.lit "  Hi   there ") = hashContent (JS.lit "Hi there").
Proof. split; reflexivity. Qed.

Example toInt32_wraps :
  toInt32 (2 ^ 31) = (- 2 ^ 31)%Z /\ toInt32 (- 2 ^ 31 - 1) = (2 ^ 31 - 1)%Z.
Proof. split; reflexivity. Qed.

Example enhanceContrast_stored_rounding :
  map FingerprintProcessor.enhanceContrast_stored [0; 85; 128; 129; 131; 212; 255]%Z
  = [0; 64; 128; 130; 132; 254; 255].
Proof. reflexivity. Qed.

End Runtime.

(** ** The Number value of a literal *)

Section NumberValue.

Local Open Scope Z_scope.

Lemma roundHalfEven_nearest (n d : Z) :
  0 < d -> 2 * Z.abs (JS.roundHalfEven n d * d - n) <= d.
Proof.
  intros Hd. unfold JS.roundHalfEven.
  pose proof (Z.div_mod n d ltac:(lia)) as Hdiv.
  pose proof (Z.mod_pos_bound n d Hd) as Hmod.
  destruct (Z.ltb_spec (2 * (n mod d)) d); [nia|].
  destruct (Z.ltb_spec d (2 * (n mod d))); [nia|].
  destruct (Z.even (n / d)); nia.
Qed.

Lemma floorLog2_spec (n d : positive) :
  let e := JS.floorLog2 n d in
  Z.pos d * 2 ^ Z.max 0 e <= Z.pos n * 2 ^ Z.max 0 (- e)
  < 2 * (Z.pos d * 2 ^ Z.max 0 e).
Proof.
  cbv zeta. unfold JS.floorLog2.
  pose proof (Z.log2_spec (Z.pos n) ltac:(lia)) as [Hn1 Hn2].
  pose proof (Z.log2_spec (Z.pos d) ltac:(lia)) as [Hd1 Hd2].
  pose proof (Z.log2_nonneg (Z.pos n)) as Ha.
  pose proof (Z.log2_nonneg (Z.pos d)) as Hb.
  set (a := Z.log2 (Z.pos n)) in *. set (b := Z.log2 (Z.pos d)) in *.
  rewrite Z.pow_succ_r in Hn2, Hd2 by lia.
  set (N := Z.pos n) in *. set (D := Z.pos d) in *.
  assert (HN : 0 < N) by (unfold N; lia). assert (HD : 0 < D) by (unfold D; lia).
  clearbody N D a b.
  destruct (Z.le_gt_cases b a) as [Hge|Hlt].
  - assert (Hsplit : 2 ^ a = 2 ^ b * 2 ^ (a - b))
      by (rewrite <- Z.pow_add_r by lia; f_equal; lia).
    assert (Hpos : 0 < 2 ^ (a - b)) by (apply Z.pow_pos_nonneg; lia).
    assert (Hposb : 0 < 2 ^ b) by (apply Z.pow_pos_nonneg; lia).
    rewrite (Z.max_r 0 (a - b)), (Z.max_l 0 (- (a - b))) by lia.
    rewrite Z.pow_0_r, Z.mul_1_r.
    destruct (Z.leb_spec (D * 2 ^ (a - b)) N) as [Htest|Htest].
    + rewrite (Z.max_r 0 (a - b)), (Z.max_l 0 (- (a - b))) by lia.
      rewrite Z.pow_0_r, Z.mul_1_r. nia.
    + destruct (Z.eq_dec a b) as [Heq|Hne].
      * replace (a - b) with 0 in * by lia.
        change (Z.max 0 (0 - 1)) with 0. change (Z.max 0 (- (0 - 1))) with 1.
        rewrite Z.pow_0_r in *. rewrite Z.pow_1_r. subst b. nia.
      * rewrite (Z.max_r 0 (a - b - 1)), (Z.max_l 0 (- (a - b - 1))) by lia.
        rewrite Z.pow_0_r, Z.mul_1_r.
        assert (Hhalf : 2 ^ (a - b) = 2 * 2 ^ (a - b - 1))
          by (rewrite <- Z.pow_succ_r by lia; f_equal; lia).
        assert (0 < 2 ^ (a - b - 1)) by (apply Z.pow_pos_nonneg; lia).
        nia.
  - assert (Hsplit : 2 ^ b = 2 ^ a * 2 ^ (b - a))
      by (rewrite <- Z.pow_add_r by lia; f_equal; lia).
    assert (Hpos : 0 < 2 ^ (b - a)) by (apply Z.pow_pos_nonneg; lia).
    assert (Hposa : 0 < 2 ^ a) by (apply Z.pow_pos_nonneg; lia).
    rewrite (Z.max_l 0 (a - b)), (Z.max_r 0 (- (a - b))) by lia.
    rewrite Z.pow_0_r, Z.mul_1_r. replace (- (a - b)) with (b - a) by lia.
    destruct (Z.leb_spec D (N * 2 ^ (b - a))) as [Htest|Htest].
    + rewrite (Z.max_l 0 (a - b)), (Z.max_r 0 (- (a - b))) by lia.
      rewrite Z.pow_0_r, Z.mul_1_r. replace (- (a - b)) with (b - a) by lia. nia.
    + rewrite (Z.max_l 0 (a - b - 1)), (Z.max_r 0 (- (a - b - 1))) by lia.
      rewrite Z.pow_0_r, Z.mul_1_r. replace (- (a - b - 1)) with (Z.succ (b - a)) by lia.
      rewrite Z.pow_succ_r by lia. nia.
Qed.

(** The scaled value lies in the binade of the unit. *)
Lemma unitExponent_binade (n d : positive) :
  let u := JS.unitExponent n d in
  let scaled := Z.pos n * 2 ^ Z.max 0 (- u) in
  let unit := Z.pos d * 2 ^ Z.max 0 u in
  0 < unit /\ scaled < 2 ^ 53 * unit /\ (2 ^ 52 * unit <= scaled \/ u = -1074).
Proof.
  cbv zeta. unfold JS.unitExponent.
  pose proof (floorLog2_spec n d) as Hspec. cbv zeta in Hspec.
  set (e := JS.floorLog2 n d) in *.
  set (N := Z.pos n) in *. set (D := Z.pos d) in *.
  assert (HN : 0 < N) by (unfold N; lia). assert (HD : 0 < D) by (unfold D; lia).
  clearbody N D e.
  assert (H52 : 2 ^ 53 = 2 * 2 ^ 52) by reflexivity.
  assert (Hp52 : 0 < 2 ^ 52) by reflexivity.
  destruct (Z.le_gt_cases (-1074) (e - 52)) as [Hnormal|Hsub].
  - rewrite (Z.max_l (e - 52) (-1074)) by lia.
    destruct (Z.le_gt_cases 52 e) as [Hbig|Hsmall].
    + (* 0 <= u *)
      rewrite (Z.max_r 0 e), (Z.max_l 0 (- e)) in Hspec by lia.
      rewrite (Z.max_r 0 (e - 52)), (Z.max_l 0 (- (e - 52))) by lia.
      rewrite Z.pow_0_r, Z.mul_1_r in *.
      assert (Hsplit : 2 ^ e = 2 ^ 52 * 2 ^ (e - 52))
        by (rewrite <- Z.pow_add_r by lia; f_equal; lia).
      assert (Hpos : 0 < 2 ^ (e - 52)) by (apply Z.pow_pos_nonneg; lia).
      rewrite Hsplit in Hspec. split; [nia|]. split; [nia|left; nia].
    + rewrite (Z.max_l 0 (e - 52)), (Z.max_r 0 (- (e - 52))) by lia.
      rewrite Z.pow_0_r, Z.mul_1_r.
      assert (Hpos : 0 < 2 ^ (- (e - 52))) by (apply Z.pow_pos_nonneg; lia).
      destruct (Z.le_gt_cases 0 e) as [He|He].
      * rewrite (Z.max_r 0 e), (Z.max_l 0 (- e)) in Hspec by lia.
        rewrite Z.pow_0_r, Z.mul_1_r in Hspec.
        assert (Hsplit : 2 ^ 52 = 2 ^ e * 2 ^ (- (e - 52)))
          by (rewrite <- Z.pow_add_r by lia; f_equal; lia).
        assert (0 < 2 ^ e) by (apply Z.pow_pos_nonneg; lia).
        split; [lia|]. split; [nia|left; nia].
      * rewrite (Z.max_l 0 e), (Z.max_r 0 (- e)) in Hspec by lia.
        rewrite Z.pow_0_r, Z.mul_1_r in Hspec.
        assert (Hsplit : 2 ^ (- (e - 52)) = 2 ^ 52 * 2 ^ (- e))
          by (rewrite <- Z.pow_add_r by lia; f_equal; lia).
        assert (0 < 2 ^ (- e)) by (apply Z.pow_pos_nonneg; lia).
        split; [lia|]. split; [nia|left; nia].
  - rewrite (Z.max_r (e - 52) (-1074)) by lia.
    change (Z.max 0 (-1074)) with 0. change (Z.max 0 (- -1074)) with 1074.
    rewrite Z.pow_0_r, Z.mul_1_r.
    rewrite (Z.max_l 0 e), (Z.max_r 0 (- e)) in Hspec by lia.
    rewrite Z.pow_0_r, Z.mul_1_r in Hspec.
    assert (Hsplit : 2 ^ 52 * 2 ^ (- e) = 2 ^ 1074 * 2 ^ (-1022 - e))
      by (rewrite <- !Z.pow_add_r by lia; f_equal; lia).
    assert (Hpos : 1 < 2 ^ (-1022 - e)) by (apply Z.pow_gt_1; lia).
    assert (0 < 2 ^ 1074) by (apply Z.pow_pos_nonneg; lia).
    assert (0 < 2 ^ (- e)) by (apply Z.pow_pos_nonneg; lia).
    split; [lia|]. split; [|right; reflexivity].
    set (A := 2 ^ 1074) in *. set (B := 2 ^ (- e)) in *. set (C := 2 ^ (-1022 - e)) in *.
    clearbody A B C. nia.
Qed.

(** The JS.significand: the scaled value rounded to the nearest integer,
    which has at most 53 bits, and exactly 53 except for the
    subnormals and a rounding up to the next power of two. *)
Lemma significand_nearest (n d : positive) :
  let u := JS.unitExponent n d in
  let m := JS.significand n d in
  2 * Z.abs (m * (Z.pos d * 2 ^ Z.max 0 u) - Z.pos n * 2 ^ Z.max 0 (- u))
  <= Z.pos d * 2 ^ Z.max 0 u
  /\ 0 <= m <= 2 ^ 53
  /\ (2 ^ 52 <= m \/ u = -1074).
Proof.
  cbv zeta. unfold JS.significand.
  destruct (unitExponent_binade n d) as (Hunit & Hhigh & Hlow). cbv zeta in *.
  set (u := JS.unitExponent n d) in *.
  set (scaled := Z.pos n * 2 ^ Z.max 0 (- u)) in *.
  set (unit := Z.pos d * 2 ^ Z.max 0 u) in *.
  assert (Hscaled : 0 < scaled).
  { unfold scaled. apply Z.mul_pos_pos; [lia|]. apply Z.pow_pos_nonneg; lia. }
  pose proof (roundHalfEven_nearest scaled unit Hunit) as Hnear.
  set (m := JS.roundHalfEven scaled unit) in *.
  assert (H53 : 2 ^ 53 = 9007199254740992) by reflexivity.
  assert (H52 : 2 ^ 52 = 4503599627370496) by reflexivity.
  rewrite H53, H52 in *. clearbody m scaled unit u.
  split; [exact Hnear|]. split; [nia|].
  destruct Hlow as [Hlow|Hsub]; [left; nia|right; exact Hsub].
Qed.

Lemma roundToDouble_value (n d : positive) (v : Q) :
  JS.roundToDouble n d = Some v ->
  let u := JS.unitExponent n d in
  (v == Qmake (JS.significand n d * 2 ^ Z.max 0 u) (Z.to_pos (2 ^ Z.max 0 (- u))))%Q
  /\ (JS.significand n d * 2 ^ Z.max 0 u < 2 ^ 1024 * 2 ^ Z.max 0 (- u)).
Proof.
  unfold JS.roundToDouble. cbv zeta.
  destruct (Z.leb_spec (2 ^ 1024 * 2 ^ Z.max 0 (- JS.unitExponent n d))
              (JS.significand n d * 2 ^ Z.max 0 (JS.unitExponent n d))) as [|Hfinite];
    [discriminate|].
  intros Hv. injection Hv as Hv. rewrite <- Hv.
  split; [exact (Qred_correct _)|exact Hfinite].
Qed.

Lemma Qred_inject_Z (z : Z) : Qred (inject_Z z) = inject_Z z.
Proof.
  unfold Qred, inject_Z.
  pose proof (Z.ggcd_gcd z 1) as Hgcd.
  pose proof (Z.ggcd_correct_divisors z 1) as Hdiv.
  destruct (Z.ggcd z 1) as [g [r1 r2]]. cbn [fst snd] in *.
  rewrite Z.gcd_1_r in Hgcd. subst g. destruct Hdiv as [Hz Hone].
  rewrite !Z.mul_1_l in *. subst r1 r2. reflexivity.
Qed.

Lemma roundHalfEven_exact (m : Z) : JS.roundHalfEven m 1 = m.
Proof. unfold JS.roundHalfEven. rewrite Z.div_1_r, Z.mod_1_r. reflexivity. Qed.

(** An integer below 2^53 is a double. *)
Lemma roundToDouble_integer (n : positive) :
  Z.pos n < 2 ^ 53 -> JS.roundToDouble n 1 = Some (inject_Z (Z.pos n)).
Proof.
  intros Hn.
  assert (Hlog : 0 <= Z.log2 (Z.pos n) < 53).
  { split; [apply Z.log2_nonneg|]. apply Z.log2_lt_pow2; lia. }
  pose proof (Z.log2_spec (Z.pos n) ltac:(lia)) as [Hlow _].
  unfold JS.roundToDouble, JS.significand, JS.unitExponent, JS.floorLog2.
  change (Z.log2 1) with 0. rewrite Z.sub_0_r.
  set (e := Z.log2 (Z.pos n)) in *.
  rewrite (Z.max_r 0 e), (Z.max_l 0 (- e)) by lia.
  rewrite Z.pow_0_r, Z.mul_1_r, Z.mul_1_l.
  destruct (Z.leb_spec (2 ^ e) (Z.pos n)) as [_|Hlt]; [|lia].
  rewrite (Z.max_l (e - 52) (-1074)) by lia.
  rewrite (Z.max_l 0 (e - 52)), (Z.max_r 0 (- (e - 52))) by lia.
  rewrite Z.pow_0_r, !Z.mul_1_r. rewrite roundHalfEven_exact.
  set (down := 2 ^ (- (e - 52))).
  assert (Hdown : 0 < down) by (apply Z.pow_pos_nonneg; lia).
  assert (Hbig : 2 ^ 53 < 2 ^ 1024) by (apply Z.pow_lt_mono_r; lia).
  destruct (Z.leb_spec (2 ^ 1024 * down) (Z.pos n * down)) as [Hover|_]; [nia|].
  f_equal. rewrite <- (Qred_inject_Z (Z.pos n)). apply Qred_complete.
  unfold Qeq, inject_Z. cbn [Qnum Qden]. rewrite Z2Pos.id by exact Hdown. lia.
Qed.

Lemma numberValue_integer (z : Z) :
  - 2 ^ 53 < z < 2 ^ 53 -> JS.numberValue (inject_Z z) = JS.JNum (inject_Z z).
Proof.
  intros Hz. unfold JS.numberValue. destruct z as [|n|n]; cbn [inject_Z Qnum Qden].
  - reflexivity.
  - rewrite roundToDouble_integer by lia. reflexivity.
  - rewrite roundToDouble_integer by lia. reflexivity.
Qed.

(** Literals that are not doubles: one tenth; the integers after 2^53;
    the values around half the smallest double, which is
    2.47e-324, and around the largest; the literal 1e-400, which is
    zero and so counts as false. *)
Example JSON_parse_numbers :
  JS.JSON_parse (JS.lit "0.1") = Some (JS.JNum (3602879701896397 # 36028797018963968))
  /\ JS.JSON_parse (JS.lit "9007199254740993") = Some (JS.JNum (inject_Z 9007199254740992))
  /\ JS.JSON_parse (JS.lit "9007199254740995") = Some (JS.JNum (inject_Z 9007199254740996))
  /\ JS.JSON_parse (JS.lit "2.4e-324") = Some (JS.JNum (inject_Z 0))
  /\ JS.JSON_parse (JS.lit "2.5e-324") = Some (JS.JNum (Qmake 1 (2 ^ 1074)))
  /\ JS.JSON_parse (JS.lit "1.7976931348623157e308")
     = Some (JS.JNum (inject_Z (2 ^ 1024 - 2 ^ 971)))
  /\ JS.JSON_parse (JS.lit "1.7976931348623159e308") = Some (JS.JInfinity false)
  /\ JS.JSON_parse (JS.lit "-1e400") = Some (JS.JInfinity true)
  /\ JS.JSON_parse (JS.lit "1e-400") = Some (JS.JNum (inject_Z 0))
  /\ JS.JSON_parse (JS.lit "-1E-400") = Some (JS.JNum (inject_Z 0))
  /\ JS.truthy (JS.JNum (inject_Z 0)) = false
  /\ JS.truthy (JS.JInfinity true) = true.
Proof. vm_compute. repeat split; reflexivity. Qed.

End NumberValue.

(** ** The invisible channel *)

Section InvisibleChannel.

Import DocumentWatermarker.
Import BiometricEncryptionService.

Lemma isMarker_spec (c0 : N) :
  isMarker c0 = true <-> c0 = ZERO_BIT \/ c0 = ONE_BIT \/ c0 = SEPARATOR.
Proof.
  unfold isMarker. rewrite !orb_true_iff, !N.eqb_eq. tauto.
Qed.

Lemma binaryToInvisibleText_loop_markers (rest : jsstring) (len i : nat) :
  Forall (fun c0 => isMarker c0 = true) (binaryToInvisibleText_loop len i rest).
Proof.
  revert i. induction rest as [|b rest IH]; intros i; cbn [binaryToInvisibleText_loop].
  - constructor.
  - constructor.
    + destruct (b =? _); reflexivity.
    + destruct (_ && _); cbn [app]; [constructor; [reflexivity|]|]; apply IH.
Qed.

Lemma binaryToInvisibleText_markers (binary : jsstring) :
  Forall (fun c0 => isMarker c0 = true) (binaryToInvisibleText binary).
Proof. apply binaryToInvisibleText_loop_markers. Qed.

(** C10: whatever the record and the document text, the invisible
    payload of [embedWatermark] holds no character other than U+200B,
    U+200C and U+200D. *)
Theorem embedWatermark_payload_invisible (rng : RandomSource) (text : jsstring)
    (watermarkData : WatermarkData) :
  Forall (fun c0 => c0 = ZERO_BIT \/ c0 = ONE_BIT \/ c0 = SEPARATOR)
         (invisiblePayload (embedWatermark rng text watermarkData)).
Proof.
  unfold embedWatermark. simpl.
  eapply Forall_impl; [apply binaryToInvisibleText_markers|].
  intros c0 Hc. apply isMarker_spec, Hc.
Qed.

End InvisibleChannel.

(** ** The payload distributor *)

Section Distribution.

Import DocumentWatermarker.
Import BiometricEncryptionService.

Lemma split_ws_scan_concat (str : jsstring) (done : list jsstring)
    (cur : jsstring) (in_ws : bool) :
  concat (JS.split_ws_scan str done cur in_ws) = concat done ++ cur ++ str.
Proof.
  revert done cur in_ws.
  induction str as [|c0 str IH]; intros done cur in_ws; cbn [JS.split_ws_scan].
  - destruct in_ws; rewrite concat_app; cbn [concat]; rewrite ?app_nil_r; reflexivity.
  - destruct (Bool.eqb _ _); rewrite IH.
    + rewrite <- app_assoc. reflexivity.
    + rewrite concat_app. cbn [concat]. rewrite app_nil_r, <- app_assoc. reflexivity.
Qed.

Lemma join_split_ws (text : jsstring) : JS.join (JS.split_ws text) = text.
Proof. unfold JS.join, JS.split_ws. rewrite split_ws_scan_concat. reflexivity. Qed.

Lemma visible_app (a b : jsstring) :
  getUserVisibleText (a ++ b) = getUserVisibleText a ++ getUserVisibleText b.
Proof. apply List.filter_app. Qed.

Lemma visible_of_markers (payload : jsstring) :
  Forall (fun c0 => isMarker c0 = true) payload -> getUserVisibleText payload = [].
Proof.
  induction 1 as [|c0 payload Hc _ IH]; [reflexivity|].
  unfold getUserVisibleText in *. cbn [List.filter]. rewrite Hc. exact IH.
Qed.

Lemma visible_of_plain (text : jsstring) :
  Forall (fun c0 => isMarker c0 = false) text -> getUserVisibleText text = text.
Proof.
  induction 1 as [|c0 text Hc _ IH]; [reflexivity|].
  unfold getUserVisibleText in *. cbn [List.filter]. rewrite Hc. cbn [negb].
  f_equal. exact IH.
Qed.

Lemma slice_markers (payload : jsstring) (a b : nat) :
  Forall (fun c0 => isMarker c0 = true) payload ->
  Forall (fun c0 => isMarker c0 = true) (JS.slice payload a b).
Proof. intros H. unfold JS.slice. apply Forall_take, Forall_drop, H. Qed.

Lemma visible_alter_append (chunk : jsstring) (i : nat) (tokens : list jsstring) :
  getUserVisibleText chunk = [] ->
  getUserVisibleText (concat (alter (fun t0 => t0 ++ chunk) i tokens))
  = getUserVisibleText (concat tokens).
Proof.
  intros Hchunk. revert i.
  induction tokens as [|t0 tokens IH]; intros [|i]; cbn [alter list_alter concat];
    try reflexivity.
  - rewrite !visible_app, Hchunk, app_nil_r. reflexivity.
  - rewrite !visible_app. f_equal. apply IH.
Qed.

Lemma appendChunks_visible (payload : jsstring) (chunkSize : nat) (slots : list nat)
    (payloadIndex : nat) (tokens : list jsstring) :
  Forall (fun c0 => isMarker c0 = true) payload ->
  getUserVisibleText (concat (snd (appendChunks payload chunkSize slots payloadIndex tokens)))
  = getUserVisibleText (concat tokens).
Proof.
  intros Hp. revert payloadIndex tokens.
  induction slots as [|slot slots IH]; intros payloadIndex tokens; cbn [appendChunks].
  - reflexivity.
  - destruct (length payload <=? payloadIndex)%nat; [reflexivity|].
    rewrite IH. apply visible_alter_append, visible_of_markers, slice_markers, Hp.
Qed.




End Distribution.

(** ** The number of insertion slots *)

Section SlotCount.

Import DocumentWatermarker.
Import DocxHandler.

Lemma Qceiling_div32 (z : Z) : Qceiling (inject_Z z / 32) = (- ((- z) / 32))%Z.
Proof.
  unfold Qceiling, Qfloor, Qdiv, Qinv, Qmult, Qopp, inject_Z. cbn.
  rewrite Z.mul_1_r. reflexivity.
Qed.

Lemma Qfloor_three_tenths (z : Z) : Qfloor ((3 # 10) * inject_Z z) = (3 * z / 10)%Z.
Proof. reflexivity. Qed.

Lemma spec_minSlots_eq (payloadLength : nat) :
  spec_minSlots payloadLength = Nat.max 1 ((payloadLength + 31) / 32).
Proof. unfold spec_minSlots. rewrite Qceiling_div32. lia. Qed.

Lemma spec_maxSlots_eq (slotCount : nat) :
  spec_maxSlots slotCount = Nat.max 1 (slotCount * 3 / 10).
Proof. unfold spec_maxSlots. rewrite Qfloor_three_tenths. lia. Qed.

(** C9, as the code has it: the plain-text distributor asks for the
    slot count of the specification; the word-processor distributor
    asks for the larger of the two bounds instead of the smaller, so it
    never asks for fewer slots, and asks for the same number only when
    the two bounds agree or there is at most one candidate. *)
Theorem slot_counts_compared (slotCount payloadLength : nat) :
  slotsToUse slotCount payloadLength = spec_slotCount slotCount payloadLength
  /\ determineSlotCount slotCount payloadLength
     = Nat.min slotCount (Nat.max (spec_minSlots payloadLength) (spec_maxSlots slotCount))
  /\ (slotsToUse slotCount payloadLength <= determineSlotCount slotCount payloadLength)%nat
  /\ (determineSlotCount slotCount payloadLength = slotsToUse slotCount payloadLength
      <-> spec_minSlots payloadLength = spec_maxSlots slotCount
          \/ (slotCount <= 1)%nat).
Proof.
  unfold spec_slotCount, clamp. rewrite spec_minSlots_eq, spec_maxSlots_eq.
  unfold slotsToUse, determineSlotCount.
  assert (Hfloor : (10 * (slotCount * 3 / 10) <= slotCount * 3)%nat) by lia.
  generalize dependent (slotCount * 3 / 10)%nat. intros a Ha.
  generalize ((payloadLength + 31) / 32)%nat. intros b.
  repeat split; lia.
Qed.

(** C9 as stated fails: with ten candidate slots and a payload of 32
    characters the plain-text distributor asks for one slot and the
    word-processor distributor for three. *)
Lemma slot_counts_differ :
  slotsToUse 10 32 = 1%nat
  /\ determineSlotCount 10 32 = 3%nat
  /\ determineSlotCount 10 32 <> slotsToUse 10 32.
Proof. split; [reflexivity|]. split; [reflexivity|]. discriminate. Qed.

End SlotCount.

(** ** Minutiae normalisation and the quality gate *)

Section Normalisation.

Import FingerprintProcessor.

Lemma distance2_sym (p q : MinutiaePoint) : distance2 p q = distance2 q p.
Proof. unfold distance2. lia. Qed.

Lemma tooClose_distance2 (point existing : MinutiaePoint) :
  tooClose point existing = negb (25 <=? distance2 existing point)%Z.
Proof.
  unfold tooClose, distance2. cbv zeta.
  destruct (Z.ltb_spec ((existing.(x) - point.(x)) * (existing.(x) - point.(x))
                        + (existing.(y) - point.(y)) * (existing.(y) - point.(y))) 25);
    destruct (Z.leb_spec 25 ((existing.(x) - point.(x)) ^ 2
                             + (existing.(y) - point.(y)) ^ 2));
    try reflexivity; lia.
Qed.

Lemma existsb_tooClose (point : MinutiaePoint) (kept : list MinutiaePoint) :
  existsb (tooClose point) kept
  = negb (forallb (fun existing => (25 <=? distance2 existing point)%Z) kept).
Proof.
  induction kept as [|e kept IH]; [reflexivity|].
  cbn [existsb forallb]. rewrite IH, tooClose_distance2, negb_andb. reflexivity.
Qed.

Lemma farApart_snoc (kept : list MinutiaePoint) (point : MinutiaePoint) :
  farApart kept ->
  forallb (fun existing => (25 <=? distance2 existing point)%Z) kept = true ->
  farApart (kept ++ [point]).
Proof.
  intros Hfar Hall i j p q Hij Hi Hj.
  rewrite forallb_forall in Hall.
  assert (Hnew : forall e, e ∈ kept -> (25 <= distance2 e point)%Z).
  { intros e He. apply Z.leb_le, Hall, list_elem_of_In, He. }
  apply lookup_snoc_Some in Hi as [[Hi1 Hi2]|[Hi1 Hi2]];
    apply lookup_snoc_Some in Hj as [[Hj1 Hj2]|[Hj1 Hj2]]; subst.
  - eapply Hfar; eassumption.
  - apply Hnew. eapply list_elem_of_lookup_2, Hi2.
  - rewrite distance2_sym. apply Hnew. eapply list_elem_of_lookup_2, Hj2.
  - lia.
Qed.

Lemma normalize_loop_invariant (minutiae filtered : list MinutiaePoint) :
  farApart filtered -> (length filtered < 80)%nat ->
  farApart (normalize_loop minutiae filtered)
  /\ (length (normalize_loop minutiae filtered) <= 80)%nat.
Proof.
  revert filtered.
  induction minutiae as [|point rest IH]; intros filtered Hfar Hlen;
    cbn [normalize_loop].
  - split; [exact Hfar|lia].
  - cbv zeta. rewrite existsb_tooClose.
    destruct (forallb _ filtered) eqn:Hall; cbn [negb].
    + pose proof (farApart_snoc _ _ Hfar Hall) as Hfar'.
      destruct (Nat.leb_spec MAX_MINUTIAE (length (filtered ++ [point]))) as [Hfull|Hroom].
      * split; [exact Hfar'|]. rewrite length_app. cbn. lia.
      * apply IH; [exact Hfar'|]. unfold MAX_MINUTIAE in Hroom. exact Hroom.
    + destruct (Nat.leb_spec MAX_MINUTIAE (length filtered)) as [Hfull|Hroom].
      * split; [exact Hfar|lia].
      * apply IH; assumption.
Qed.

Lemma normalize_loop_sublist (minutiae filtered : list MinutiaePoint) :
  exists kept, normalize_loop minutiae filtered = filtered ++ kept
               /\ sublist kept minutiae.
Proof.
  revert filtered.
  induction minutiae as [|point rest IH]; intros filtered; cbn [normalize_loop].
  - exists []. rewrite app_nil_r. split; [reflexivity|constructor].
  - cbv zeta. destruct (existsb _ _).
    + destruct (_ <=? _)%nat.
      * exists []. rewrite app_nil_r. split; [reflexivity|apply sublist_nil_l].
      * destruct (IH filtered) as (kept & -> & Hsub).
        exists kept. split; [reflexivity|apply sublist_cons, Hsub].
    + destruct (_ <=? _)%nat.
      * exists [point]. split; [reflexivity|].
        apply sublist_skip, sublist_nil_l.
      * destruct (IH (filtered ++ [point])) as (kept & -> & Hsub).
        exists (point :: kept). rewrite <- app_assoc. split; [reflexivity|].
        apply sublist_skip, Hsub.
Qed.

Lemma normalize_loop_snoc (before filtered : list MinutiaePoint)
    (candidate : MinutiaePoint) :
  (length filtered < 80)%nat ->
  normalize_loop (before ++ [candidate]) filtered
  = greedy_step (normalize_loop before filtered) candidate.
Proof.
  revert filtered.
  induction before as [|point rest IH]; intros filtered Hlen;
    cbn [app normalize_loop]; cbv zeta.
  - unfold greedy_step. rewrite existsb_tooClose.
    destruct (Nat.leb_spec 80 (length filtered)) as [Hfull|_]; [lia|].
    destruct (forallb _ filtered); cbn [negb]; destruct (_ <=? _)%nat; reflexivity.
  - destruct (existsb _ filtered).
    + destruct (Nat.leb_spec MAX_MINUTIAE (length filtered)) as [Hfull|Hroom].
      * unfold MAX_MINUTIAE in Hfull. lia.
      * apply IH, Hlen.
    + destruct (Nat.leb_spec MAX_MINUTIAE (length (filtered ++ [point]))) as [Hfull|Hroom].
      * unfold greedy_step. unfold MAX_MINUTIAE in Hfull.
        destruct (Nat.leb_spec 80 (length (filtered ++ [point]))); [reflexivity|lia].
      * apply IH. exact Hroom.
Qed.

Lemma normalizeMinutiae_greedy (minutiae : list MinutiaePoint) :
  normalizeMinutiae minutiae = foldl greedy_step [] minutiae.
Proof.
  unfold normalizeMinutiae.
  induction minutiae as [|candidate before IH] using rev_ind; [reflexivity|].
  rewrite foldl_snoc, <- IH. apply normalize_loop_snoc. cbn. lia.
Qed.

(** C7: the list [normalizeMinutiae] returns has at most eighty points,
    any two of its points (at different positions) are at least five
    pixels apart, it keeps the scan order of the candidates, and it is
    the greedy selection of the candidates. *)
Theorem normalizeMinutiae_invariant (minutiae : list MinutiaePoint) :
  let kept := normalizeMinutiae minutiae in
  (length kept <= 80)%nat
  /\ (forall i j p q, i <> j -> kept !! i = Some p -> kept !! j = Some q ->
                      (5 ^ 2 <= distance2 p q)%Z)
  /\ sublist kept minutiae
  /\ kept = foldl greedy_step [] minutiae.
Proof.
  cbv zeta.
  destruct (normalize_loop_invariant minutiae []) as [Hfar Hlen].
  { intros i j p q _ Hi. rewrite lookup_nil in Hi. discriminate. }
  { cbn. lia. }
  split; [exact Hlen|]. split; [exact Hfar|]. split.
  - destruct (normalize_loop_sublist minutiae []) as (kept & Heq & Hsub).
    unfold normalizeMinutiae. rewrite Heq. exact Hsub.
  - apply normalizeMinutiae_greedy.
Qed.

(** Points three pixels apart on a line: every second one is kept; and
    of a hundred well separated points the first eighty are. *)
Example normalizeMinutiae_line :
  map x (normalizeMinutiae (map (fun i => minutiaAt (3 * Z.of_nat i) 1) (seq 0 6)))
  = [0; 6; 12]%Z.
Proof. reflexivity. Qed.

Example normalizeMinutiae_cap :
  length (normalizeMinutiae (map (fun i => minutiaAt (5 * Z.of_nat i) 1) (seq 0 100)))
  = 80%nat.
Proof. vm_compute. reflexivity. Qed.

Section Gate.

Variable luminance : N -> N -> N -> Z.
Variable atan2_degrees : Z -> Z -> Q.

(** C6: on a decoded image [processFingerprint] rejects exactly when
    fewer than twelve minutiae remain after normalisation, and the
    message of the rejection gives the number found and the twelve
    required. *)
Theorem processFingerprint_gate (imageData : ImageData) :
  let found := normalizedMinutiae luminance atan2_degrees imageData in
  let outcome := processFingerprint luminance atan2_degrees (Some imageData) in
  outcome = (if (length found <? 12)%nat
             then Rejected (JS.lit "Fingerprint quality insufficient: detected "
                            ++ JS.N_toString (N.of_nat (length found))
                            ++ JS.lit " minutiae; at least 12 are required.")
             else Resolved found)
  /\ ((exists message, outcome = Rejected message) <-> (length found < 12)%nat)
  /\ (outcome = Resolved found <-> (12 <= length found)%nat).
Proof.
  cbv zeta. unfold processFingerprint, qualityGate, MIN_MINUTIAE.
  destruct (Nat.ltb_spec (length (normalizedMinutiae luminance atan2_degrees imageData)) 12)
    as [Hfew|Henough].
  - split; [|split].
    + unfold qualityMessage. do 3 f_equal.
    + split; [intros _; exact Hfew|intros _; eexists; reflexivity].
    + split; [discriminate|lia].
  - split; [reflexivity|split].
    + split; [intros [message Hm]; discriminate|lia].
    + split; [intros _; exact Henough|reflexivity].
Qed.

End Gate.

(** The boundary of the gate: eleven points are rejected, twelve are
    accepted. *)
Example qualityGate_eleven :
  qualityGate (map (fun i => minutiaAt (5 * Z.of_nat i) 1) (seq 0 11))
  = Rejected (JS.lit "Fingerprint quality insufficient: detected 11 minutiae; at least 12 are required.").
Proof. reflexivity. Qed.

Example qualityGate_twelve :
  let points := map (fun i => minutiaAt (5 * Z.of_nat i) 1) (seq 0 12) in
  qualityGate points = Resolved points.
Proof. reflexivity. Qed.

End Normalisation.

(** ** The median filter *)

Section MedianFilter.

Import FingerprintProcessor.

Lemma filterPixel_other (data : list N) (width py px : nat) (filtered : list N)
    (k : nat) :
  (k < (py * width + px) * 4 \/ (py * width + px) * 4 + 3 < k)%nat ->
  filterPixel data width py filtered px !! k = filtered !! k.
Proof.
  intros Hk. unfold filterPixel. cbv zeta.
  rewrite !list_lookup_insert_ne by lia. reflexivity.
Qed.

Lemma filterRow_other (data : list N) (width py : nat) (columns : list nat)
    (filtered : list N) (k : nat) :
  (forall px, px ∈ columns ->
              (k < (py * width + px) * 4 \/ (py * width + px) * 4 + 3 < k)%nat) ->
  foldl (filterPixel data width py) filtered columns !! k = filtered !! k.
Proof.
  revert filtered.
  induction columns as [|px columns IH]; intros filtered Hk; cbn [foldl].
  - reflexivity.
  - rewrite IH.
    + apply filterPixel_other, Hk. left.
    + intros px' Hpx'. apply Hk. right. exact Hpx'.
Qed.

Lemma filterRows_other (data : list N) (width : nat) (columns rows : list nat)
    (filtered : list N) (k : nat) :
  (forall px py, px ∈ columns -> py ∈ rows ->
                 (k < (py * width + px) * 4 \/ (py * width + px) * 4 + 3 < k)%nat) ->
  foldl (fun acc py => foldl (filterPixel data width py) acc columns) filtered rows !! k
  = filtered !! k.
Proof.
  revert filtered.
  induction rows as [|py rows IH]; intros filtered Hk; cbn [foldl].
  - reflexivity.
  - rewrite IH.
    + apply filterRow_other. intros px Hpx. apply Hk; [exact Hpx|left].
    + intros px py' Hpx Hpy'. apply Hk; [exact Hpx|right; exact Hpy'].
Qed.

Lemma pixel_index_apart (width px py qx qy channel : nat) :
  (px < width)%nat -> (qx < width)%nat -> (channel < 4)%nat ->
  (px, py) <> (qx, qy) ->
  (channelIndex width qx qy channel < (py * width + px) * 4
   \/ (py * width + px) * 4 + 3 < channelIndex width qx qy channel)%nat.
Proof.
  intros Hpx Hqx Hc Hne. unfold channelIndex.
  destruct (Nat.lt_trichotomy qy py) as [Hlt|[Heq|Hgt]].
  - left. assert (qy * width + width <= py * width)%nat by nia. lia.
  - subst qy. assert (px <> qx) by congruence. lia.
  - right. assert (py * width + width <= qy * width)%nat by nia. lia.
Qed.

(** C8, as the code has it: the filter writes a fresh buffer of zeros at
    the interior pixels only, so every channel of every border pixel of
    its output is zero, whatever the input holds there. *)
Theorem applyMedianFilter_border (data : list N) (width height : nat)
    (px py channel : nat) :
  (px < width)%nat -> (py < height)%nat -> (channel < 4)%nat ->
  onBorder width height px py ->
  (channelIndex width px py channel < length data)%nat ->
  applyMedianFilter data width height !! channelIndex width px py channel = Some 0.
Proof.
  intros Hpx Hpy Hc Hborder Hin. unfold applyMedianFilter.
  rewrite filterRows_other.
  - apply lookup_replicate_2, Hin.
  - intros qx qy Hqx Hqy. apply elem_of_seq in Hqx, Hqy.
    apply pixel_index_apart; [lia|lia|lia|].
    intros Heq. injection Heq as -> ->. unfold onBorder in Hborder. lia.
Qed.

Lemma applyMedianFilter_border_witness :
  (2 < 3)%nat /\ (0 < 3)%nat /\ (1 < 4)%nat
  /\ onBorder 3 3 2 0
  /\ (channelIndex 3 2 0 1 < length whiteImage)%nat
  /\ applyMedianFilter whiteImage 3 3 !! channelIndex 3 2 0 1 = Some 0.
Proof.
  assert (Hpx : (2 < 3)%nat) by lia.
  assert (Hpy : (0 < 3)%nat) by lia.
  assert (Hchannel : (1 < 4)%nat) by lia.
  assert (Hborder : onBorder 3 3 2 0) by (unfold onBorder; lia).
  assert (Hin : (channelIndex 3 2 0 1 < length whiteImage)%nat)
    by (unfold channelIndex; cbn; lia).
  repeat (split; [assumption|]).
  exact (applyMedianFilter_border whiteImage 3 3 2 0 1 Hpx Hpy Hchannel Hborder Hin).
Defined.

(** Inside the border the filter stores the median of the 3x3
    neighbourhood in the three colour channels and copies alpha. *)
Example applyMedianFilter_interior :
  applyMedianFilter [1;0;0;9; 2;0;0;9; 3;0;0;9;
                     4;0;0;9; 250;0;0;7; 6;0;0;9;
                     7;0;0;9; 8;0;0;9; 9;0;0;9] 3 3
  = [0;0;0;0; 0;0;0;0; 0;0;0;0;
     0;0;0;0; 6;6;6;7; 0;0;0;0;
     0;0;0;0; 0;0;0;0; 0;0;0;0].
Proof. reflexivity. Qed.

(** C8 as stated fails: in a white 3x3 image the corner pixel of the
    output is zero in all four channels, while the input has 255 there. *)
Lemma applyMedianFilter_border_changed :
  take 4 (applyMedianFilter whiteImage 3 3) = [0; 0; 0; 0]
  /\ take 4 whiteImage = [255; 255; 255; 255]
  /\ applyMedianFilter whiteImage 3 3 !! channelIndex 3 0 0 0
     <> whiteImage !! channelIndex 3 0 0 0.
Proof. split; [reflexivity|]. split; [reflexivity|]. discriminate. Qed.

End MedianFilter.

(** ** The fuzzy vault *)

Section Vault.

Import FuzzyVaultGenerator.

Local Open Scope Z_scope.

(** *** The secret as text *)

Lemma byteToHex_length_ge (byte : Z) : (2 <= length (byteToHex byte))%nat.
Proof.
  unfold byteToHex, JS.padStart. rewrite length_app, length_replicate. lia.
Qed.

Lemma byteToHex_length (byte : Z) :
  0 <= byte < 256 -> length (byteToHex byte) = 2%nat.
Proof.
  intros Hb.
  assert (Hall : forallb (fun n => (length (byteToHex (Z.of_nat n)) =? 2)%nat) (seq 0 256)
                 = true) by (vm_compute; reflexivity).
  rewrite forallb_forall in Hall.
  specialize (Hall (Z.to_nat byte)). rewrite Z2Nat.id in Hall by lia.
  apply Nat.eqb_eq, Hall, in_seq. lia.
Qed.

Lemma polynomialToSecret_length (coefficients : list Z) :
  (2 * length coefficients <= length (polynomialToSecret coefficients))%nat.
Proof.
  unfold polynomialToSecret.
  induction coefficients as [|coeff rest IH]; cbn [flat_map length]; [lia|].
  rewrite length_app. pose proof (byteToHex_length_ge coeff). lia.
Qed.

Lemma generateSecret_length (bytes : list Z) :
  Forall (fun byte => 0 <= byte < 256) bytes ->
  length (generateSecret bytes) = (2 * length bytes)%nat.
Proof.
  unfold generateSecret.
  induction 1 as [|byte rest Hb _ IH]; cbn [flat_map length]; [reflexivity|].
  rewrite length_app, IH, (byteToHex_length _ Hb). lia.
Qed.

(** [hexToBytes] reads back the bytes [generateSecret] printed, so a
    generated secret always has its polynomial. *)
Lemma parseInt16_byteToHex (byte : Z) (rest : jsstring) :
  0 <= byte < 256 ->
  parseInt16 (JS.substr (byteToHex byte ++ rest) 0 2) = Some byte
  /\ drop 2 (byteToHex byte ++ rest) = rest.
Proof.
  intros Hb.
  assert (Hall : forallb (fun n =>
                    match byteToHex (Z.of_nat n) with
                    | [a; b] => match parseInt16 [a; b] with
                                | Some v => (v =? Z.of_nat n)
                                | None => false
                                end
                    | _ => false
                    end) (seq 0 256) = true) by (vm_compute; reflexivity).
  rewrite forallb_forall in Hall.
  specialize (Hall (Z.to_nat byte)). rewrite Z2Nat.id in Hall by lia.
  assert (Hin : In (Z.to_nat byte) (seq 0 256)) by (apply in_seq; lia).
  specialize (Hall Hin).
  destruct (byteToHex byte) as [|a [|b [|? ?]]]; try discriminate.
  unfold JS.substr. cbn -[parseInt16]. rewrite firstn_O.
  destruct (parseInt16 [a; b]) as [v|]; [|discriminate].
  apply Z.eqb_eq in Hall. subst v. split; reflexivity.
Qed.

Lemma hexToBytes_loop_generateSecret (bytes : list Z) (fuel : nat) :
  Forall (fun byte => 0 <= byte < 256) bytes ->
  (length bytes <= fuel)%nat ->
  hexToBytes_loop fuel (generateSecret bytes) = Some bytes.
Proof.
  intros Hbytes. revert fuel.
  induction Hbytes as [|byte rest Hb _ IH]; intros fuel Hfuel.
  - destruct fuel; reflexivity.
  - destruct fuel as [|fuel]; [cbn in Hfuel; lia|].
    unfold generateSecret. cbn [flat_map hexToBytes_loop].
    destruct (parseInt16_byteToHex byte (flat_map byteToHex rest) Hb) as [Hparse Hdrop].
    pose proof (byteToHex_length byte Hb) as Hlen.
    destruct (byteToHex byte ++ flat_map byteToHex rest) eqn:Happ.
    { apply (f_equal length) in Happ. rewrite length_app, Hlen in Happ. discriminate. }
    rewrite Hparse, Hdrop. fold (generateSecret rest).
    rewrite IH by (cbn in Hfuel; lia). reflexivity.
Qed.

(** The fuel of [hexToBytes], the length of the string, is enough. *)
Lemma hexToBytes_loop_fuel (fuel1 fuel2 : nat) (hex : jsstring) :
  (length hex <= fuel1)%nat -> (length hex <= fuel2)%nat ->
  hexToBytes_loop fuel1 hex = hexToBytes_loop fuel2 hex.
Proof.
  revert fuel2 hex.
  induction fuel1 as [|fuel1 IH]; intros fuel2 hex H1 H2.
  - destruct hex; [|cbn in H1; lia]. destruct fuel2; reflexivity.
  - destruct hex as [|a rest]; [destruct fuel2; reflexivity|].
    destruct fuel2 as [|fuel2]; [cbn in H2; lia|].
    cbn [hexToBytes_loop].
    assert (Hdrop : (length (drop 2 (a :: rest)) <= length rest)%nat).
    { rewrite length_drop. cbn [length]. lia. }
    cbn [length] in H1, H2. rewrite (IH fuel2); [reflexivity|lia|lia].
Qed.

Lemma secretToPolynomial_generateSecret (bytes : list Z) :
  Forall (fun byte => 0 <= byte < 256) bytes ->
  secretToPolynomial (generateSecret bytes)
  = Some (map (fun byte => Z.rem byte fieldSize) bytes).
Proof.
  intros Hbytes. unfold secretToPolynomial, hexToBytes.
  rewrite hexToBytes_loop_generateSecret; [reflexivity|exact Hbytes|].
  rewrite generateSecret_length by exact Hbytes. lia.
Qed.

(** *** The modular inverse terminates *)

(** Once the remainder is below the fuel, more fuel changes nothing. *)
Lemma modInverse_loop_enough (fuel extra : nat) (oldR r oldS s0 : Z) :
  0 <= r < Z.of_nat fuel ->
  modInverse_loop (fuel + extra) oldR r oldS s0 = modInverse_loop fuel oldR r oldS s0.
Proof.
  revert oldR r oldS s0.
  induction fuel as [|fuel IH]; intros oldR r oldS s0 Hr; [lia|].
  cbn [Nat.add modInverse_loop].
  destruct (Z.eqb_spec r 0) as [Hz|Hnz]; [reflexivity|].
  apply IH.
  pose proof (Z.mod_pos_bound oldR r ltac:(lia)) as Hmod.
  rewrite Z.mod_eq in Hmod by lia. lia.
Qed.

Lemma modInverse_fuel (a m : Z) (extra : nat) :
  0 < m ->
  modInverse_loop (Z.to_nat m + 2 + extra) a m 1 0
  = modInverse_loop (Z.to_nat m + 2) a m 1 0.
Proof.
  intros Hm. replace (Z.to_nat m + 2 + extra)%nat with (S (Z.to_nat m + 1 + extra)) by lia.
  replace (Z.to_nat m + 2)%nat with (S (Z.to_nat m + 1)) by lia.
  cbn [modInverse_loop].
  destruct (Z.eqb_spec m 0) as [Hz|Hnz]; [reflexivity|].
  apply modInverse_loop_enough.
  pose proof (Z.mod_pos_bound a m Hm) as Hmod.
  rewrite Z.mod_eq in Hmod by lia. lia.
Qed.

(** The inverse of zero is zero: no exception, no [null]. *)
Example modInverse_zero : modInverse 0 fieldSize = 0.
Proof. reflexivity. Qed.

Example modInverse_three : modInverse 3 fieldSize = 84 /\ Z.rem (3 * 84) fieldSize = 1.
Proof. split; reflexivity. Qed.

(** *** Generating and unlocking *)

Lemma swap_elem_of {A : Type} (arr : list A) (i j : nat) (a : A) :
  a ∈ arr -> a ∈ swap arr i j.
Proof.
  intros Ha. unfold swap.
  destruct (arr !! i) as [ai|] eqn:Hi; [|exact Ha].
  destruct (arr !! j) as [aj|] eqn:Hj; [|exact Ha].
  apply list_elem_of_lookup in Ha as [k Hk].
  pose proof (lookup_lt_Some _ _ _ Hi) as Hil.
  pose proof (lookup_lt_Some _ _ _ Hj) as Hjl.
  destruct (decide (k = i)) as [->|Hki].
  - apply list_elem_of_lookup. exists j.
    rewrite list_lookup_insert_eq by (rewrite length_insert; lia). congruence.
  - destruct (decide (k = j)) as [->|Hkj].
    + apply list_elem_of_lookup. exists i.
      rewrite list_lookup_insert_ne by congruence.
      rewrite list_lookup_insert_eq by lia. congruence.
    + apply list_elem_of_lookup. exists k.
      rewrite !list_lookup_insert_ne by congruence. exact Hk.
Qed.

Lemma shuffle_loop_elem_of {A : Type} (rnd : MathRandom) (i draw : nat)
    (arr : list A) (a : A) :
  a ∈ arr -> a ∈ shuffle_loop rnd draw i arr.
Proof.
  revert draw arr. induction i as [|i IH]; intros draw arr Ha; cbn [shuffle_loop].
  - exact Ha.
  - apply IH, swap_elem_of, Ha.
Qed.

Lemma generateVaultPoints_genuine (rnd : MathRandom) (minutiae : list MinutiaePoint)
    (coefficients : list Z) (minutia : MinutiaePoint) :
  minutia ∈ minutiae ->
  (encodeMinutia minutia, evaluatePolynomial coefficients (encodeMinutia minutia))
  ∈ generateVaultPoints rnd minutiae coefficients.
Proof.
  intros Hin. unfold generateVaultPoints, shuffleArray.
  apply shuffle_loop_elem_of, elem_of_app. left. unfold realPoints.
  apply (list_elem_of_fmap_2
           (fun m => (encodeMinutia m, evaluatePolynomial coefficients (encodeMinutia m)))).
  exact Hin.
Qed.

Lemma findMatchingPoints_all (points : list (Z * Z)) (minutiae : list MinutiaePoint) :
  (forall minutia, minutia ∈ minutiae ->
                   exists y0, (encodeMinutia minutia, y0) ∈ points) ->
  length (findMatchingPoints points minutiae) = length minutiae.
Proof.
  unfold findMatchingPoints.
  induction minutiae as [|minutia rest IH]; intros Hall; cbn [flat_map]; [reflexivity|].
  rewrite length_app, IH.
  - destruct (Hall minutia) as [y0 Hy]; [left|].
    destruct (List.find _ points) eqn:Hfind; [reflexivity|].
    apply list_elem_of_In in Hy.
    pose proof (find_none _ _ Hfind _ Hy) as Hno. cbn in Hno.
    rewrite Z.eqb_refl in Hno. discriminate.
  - intros m Hm. apply Hall. right. exact Hm.
Qed.

Lemma foldl_length_invariant {A B : Type} (step : list A -> B -> list A)
    (n : nat) (items : list B) (start : list A) :
  (forall acc item, length (step acc item) = n) ->
  length start = n ->
  length (foldl step start items) = n.
Proof.
  intros Hstep. revert start.
  induction items as [|item items IH]; intros start Hstart; cbn [foldl].
  - exact Hstart.
  - apply IH, Hstep.
Qed.

Lemma lagrangeInterpolation_length (points : list (Z * Z)) :
  length (lagrangeInterpolation points) = length points.
Proof.
  unfold lagrangeInterpolation. cbv zeta.
  apply foldl_length_invariant.
  - intros acc [i [xi yi]]. rewrite length_map, length_seq. reflexivity.
  - apply length_replicate.
Qed.

(** The part of C3 that holds: with fewer matched points than
    coefficients [unlockVault] returns [null]. *)
Lemma unlockVault_insufficient (vault0 : FuzzyVault) (minutiae : list MinutiaePoint) :
  (length (findMatchingPoints vault0.(vault) minutiae) < length vault0.(polynomial))%nat ->
  unlockVault vault0 minutiae = None.
Proof.
  intros Hfew. unfold unlockVault. cbv zeta.
  destruct (Nat.ltb_spec (length (findMatchingPoints vault0.(vault) minutiae))
                         (length vault0.(polynomial))); [reflexivity|lia].
Qed.

(** Against C2 in general: a vault generated from five or more
    minutiae has no chaff and one genuine point per minutia, the same
    minutiae match that many points, and [unlockVault] answers with one
    byte per matched point: a string of at least ten characters, never
    the eight characters of the secret. *)
Lemma unlockVault_never_the_secret (bytes : list Z) (rnd : MathRandom)
    (minutiae : list MinutiaePoint) (vault0 : FuzzyVault) :
  length bytes = 4%nat ->
  Forall (fun byte => 0 <= byte < 256) bytes ->
  (5 <= length minutiae)%nat ->
  generateVault bytes rnd minutiae = Some vault0 ->
  exists answer, unlockVault vault0 minutiae = Some answer
                 /\ (2 * length minutiae <= length answer)%nat
                 /\ length vault0.(secret) = 8%nat
                 /\ answer <> vault0.(secret).
Proof.
  intros Hlen Hbytes Hmany Hgen. unfold generateVault in Hgen. cbv zeta in Hgen.
  rewrite (secretToPolynomial_generateSecret _ Hbytes) in Hgen.
  injection Hgen as <-. unfold unlockVault. cbn [vault polynomial secret].
  assert (Hmatch : length (findMatchingPoints
                             (generateVaultPoints rnd minutiae
                                (map (fun byte => Z.rem byte fieldSize) bytes)) minutiae)
                   = length minutiae).
  { apply findMatchingPoints_all. intros minutia Hin.
    eexists. apply generateVaultPoints_genuine, Hin. }
  rewrite Hmatch, length_map, Hlen.
  destruct (Nat.ltb_spec (length minutiae) 4) as [Hlt|_]; [lia|].
  eexists. split; [reflexivity|].
  pose proof (polynomialToSecret_length
                (lagrangeInterpolation
                   (findMatchingPoints
                      (generateVaultPoints rnd minutiae
                         (map (fun byte => Z.rem byte fieldSize) bytes)) minutiae)))
    as Hanswer.
  rewrite lagrangeInterpolation_length, Hmatch in Hanswer.
  pose proof (generateSecret_length _ Hbytes) as Hsecret. rewrite Hlen in Hsecret.
  split; [exact Hanswer|]. split; [exact Hsecret|].
  intros Heq. rewrite Heq, Hsecret in Hanswer. lia.
Qed.

Example twelveMinutiae_abscissas :
  map encodeMinutia twelveMinutiae
  = [221; 181; 141; 101; 61; 21; 232; 192; 152; 112; 72; 32].
Proof. reflexivity. Qed.

(** C2 fails on the code.  The vault of the secret bytes 1, 2, 3, 4 over
    twelve minutiae holds the twelve genuine points and the secret
    [01020304]; unlocking it with the same twelve minutiae gives twelve
    bytes, [0000000000000000] followed by [04-f802-fa], not the secret. *)
Theorem unlockVault_full_overlap_fails :
  exists vault0,
    generateVault [1; 2; 3; 4] noRandom twelveMinutiae = Some vault0
    /\ vault0.(secret) = JS.lit "01020304"
    /\ vault0.(polynomial) = [1; 2; 3; 4]
    /\ length (findMatchingPoints vault0.(vault) twelveMinutiae) = 12%nat
    /\ unlockVault vault0 twelveMinutiae = Some (JS.lit "000000000000000004-f802-fa")
    /\ unlockVault vault0 twelveMinutiae <> Some vault0.(secret).
Proof.
  eexists. split; [vm_compute; reflexivity|].
  split; [reflexivity|]. split; [reflexivity|]. split; [reflexivity|].
  split; [vm_compute; reflexivity|]. vm_compute. discriminate.
Qed.

Lemma unlockVault_never_the_secret_witness :
  exists vault0 answer,
    generateVault [1; 2; 3; 4] noRandom twelveMinutiae = Some vault0
    /\ unlockVault vault0 twelveMinutiae = Some answer
    /\ answer <> vault0.(secret).
Proof.
  destruct (generateVault [1; 2; 3; 4] noRandom twelveMinutiae) as [vault0|] eqn:Hgen;
    [|vm_compute in Hgen; discriminate].
  destruct (unlockVault_never_the_secret [1; 2; 3; 4] noRandom twelveMinutiae vault0)
    as (answer & Hanswer & _ & _ & Hne).
  - reflexivity.
  - repeat constructor; lia.
  - cbn. lia.
  - exact Hgen.
  - exists vault0, answer. split; [reflexivity|]. split; assumption.
Defined.

(** Even four minutiae with four different abscissas do not recover the
    secret: the interpolation returns the coefficients in reverse order
    and leaves negative remainders. *)
Example unlockVault_four_points :
  let four := map (fun i => minutiaAt (10 * Z.of_nat i) 1) (seq 1 4) in
  match generateVault [1; 2; 3; 4] noRandom four with
  | Some vault0 => unlockVault vault0 four
  | None => None
  end = Some (JS.lit "04-f802-fa").
Proof. vm_compute. reflexivity. Qed.

(** C3 fails on the code for degenerate matches.  The minutiae at
    (1, 1) and (2, 152) have the same abscissa 6; the vault generated
    from five minutiae that include both is unlocked by the same five
    with two matched points of abscissa 6, and [unlockVault] returns a
    string instead of [null]. *)
Theorem unlockVault_degenerate_not_null :
  exists vault0,
    generateVault [1; 2; 3; 4] noRandom collidingMinutiae = Some vault0
    /\ map fst (findMatchingPoints vault0.(vault) collidingMinutiae) = [6; 6; 221; 181; 141]
    /\ unlockVault vault0 collidingMinutiae = Some (JS.lit "0c-4e54-bfab")
    /\ unlockVault vault0 collidingMinutiae <> None
    /\ JS.lit "0c-4e54-bfab" <> vault0.(secret).
Proof.
  eexists. split; [vm_compute; reflexivity|].
  split; [vm_compute; reflexivity|].
  split; [vm_compute; reflexivity|].
  split; vm_compute; discriminate.
Qed.

End Vault.

(** ** Verification *)

Section Verification.

Import DocumentWatermarker.
Import BiometricEncryptionService.

Variable File : Type.
Variable decodeImage : File -> option ImageData.
Variable readDocument : File -> Promise jsstring.
Variable luminance : N -> N -> N -> Z.
Variable atan2_degrees : Z -> Z -> Q.
Variable angleToString : Q -> jsstring.

Lemma string_strict_eq_true (str : jsstring) (v : JS.JSVal) :
  JS.string_strict_eq str v = true <-> v = JS.JStr str.
Proof.
  destruct v; cbn; try (split; [discriminate|congruence]).
  rewrite bool_decide_eq_true. split; congruence.
Qed.

(** The content hash of an extracted record is the empty string or a
    value that counts as true: [extractWatermark] replaces everything
    else by the empty string. *)
Lemma extractWatermark_contentHash (text : jsstring) (watermarkData : ParsedWatermarkData) :
  extractWatermark text = Some watermarkData ->
  JS.truthy watermarkData.(p_contentHash) = false ->
  watermarkData.(p_contentHash) = JS.JStr [].
Proof.
  unfold extractWatermark. intros Hextract Hfalsy.
  destruct (extractFromZeroWidth text); [|discriminate].
  destruct (binaryToData _) as [parsed|]; [|discriminate].
  destruct (JS.get_property parsed [JS.ch "f"]); [|discriminate].
  destruct (JS.get_property parsed [JS.ch "s"]); [|discriminate].
  destruct (JS.get_property parsed [JS.ch "t"]); [|discriminate].
  destruct (JS.get_property parsed [JS.ch "c"]) as [vc|]; [|discriminate].
  injection Hextract as <-. cbn [p_contentHash] in *.
  unfold JS.or_else in *. destruct (JS.truthy vc) eqn:Hvc; [congruence|reflexivity].
Qed.

(** C1: [verifyDocument] answers [true] exactly when a watermark record
    decodes from the text of the artifact, the stored content hash is
    empty or is the hash of the white-space-normalised text without the
    three markers, and the fingerprint yields minutiae whose hash is the
    stored identity hash.  In every other case, a failed read or a
    rejected fingerprint included, the answer is [false]. *)
Theorem verifyDocument_true_iff (fingerprintFile : File)
    (encryptedDocument : jsstring + File) :
  let verified :=
    verifyDocument File decodeImage readDocument luminance atan2_degrees angleToString
      fingerprintFile encryptedDocument in
  let accepted :=
    exists encryptedText watermarkData minutiae,
      textOf File readDocument encryptedDocument = Resolved encryptedText
      /\ extractWatermark encryptedText = Some watermarkData
      /\ (watermarkData.(p_contentHash) = JS.JStr []
          \/ watermarkData.(p_contentHash)
             = JS.JStr (simpleHash (JS.collapse_ws false
                                      (JS.trim (getUserVisibleText encryptedText)))))
      /\ FingerprintProcessor.processFingerprint luminance atan2_degrees
           (decodeImage fingerprintFile) = Resolved minutiae
      /\ watermarkData.(p_fingerprintHash)
         = JS.JStr (hashMinutiae angleToString minutiae) in
  (verified = true <-> accepted) /\ (verified = false <-> ~ accepted).
Proof.
  cbv zeta.
  match goal with |- (?v = true <-> ?P) /\ _ => assert (Hiff : v = true <-> P) end.
  { unfold verifyDocument, verifyDocument_try, readWatermarkedDocument, bind.
    fold (textOf File readDocument encryptedDocument).
    destruct (textOf File readDocument encryptedDocument) as [encryptedText|message].
    2: { split; [discriminate|]. intros (? & ? & ? & Hread & _). discriminate. }
    destruct (extractWatermark encryptedText) as [watermarkData|] eqn:Hextract.
    2: { split; [discriminate|].
         intros (? & ? & ? & Hread & Hx & _). injection Hread as <-. congruence. }
    fold (hashContent (getUserVisibleText encryptedText)).
    set (currentContentHash := hashContent (getUserVisibleText encryptedText)).
    assert (Hcontent :
              JS.truthy watermarkData.(p_contentHash)
              && negb (JS.string_strict_eq currentContentHash watermarkData.(p_contentHash))
              = false
              <-> watermarkData.(p_contentHash) = JS.JStr []
                  \/ watermarkData.(p_contentHash) = JS.JStr currentContentHash).
    { rewrite andb_false_iff, negb_false_iff, string_strict_eq_true. split.
      - intros [Hfalsy|Heq]; [left|right; exact Heq].
        eapply extractWatermark_contentHash; eassumption.
      - intros [Hempty|Heq]; [left|right; exact Heq].
        rewrite Hempty. reflexivity. }
    destruct (_ && _).
    { split; [discriminate|].
      intros (? & wd & ? & Hread & Hx & Hc & _). injection Hread as <-.
      rewrite Hextract in Hx. injection Hx as <-.
      apply Hcontent in Hc. discriminate. }
    destruct (FingerprintProcessor.processFingerprint _ _ _) as [minutiae|message].
    2: { split; [discriminate|]. intros (? & ? & ? & _ & _ & _ & Hfp & _). discriminate. }
    destruct (JS.string_strict_eq _ _) eqn:Hid; cbn [negb].
    - apply string_strict_eq_true in Hid. split; [intros _|reflexivity].
      exists encryptedText, watermarkData, minutiae.
      split; [reflexivity|]. split; [exact Hextract|].
      split; [apply Hcontent; reflexivity|]. split; [reflexivity|exact Hid].
    - split; [discriminate|].
      intros (? & wd & ms & Hread & Hx & _ & Hfp & Hfh). injection Hread as <-.
      rewrite Hextract in Hx. injection Hx as <-. injection Hfp as <-.
      apply string_strict_eq_true in Hfh. congruence. }
  split; [exact Hiff|].
  rewrite <- Hiff. destruct (verifyDocument _ _ _ _ _ _ _ _); split; congruence.
Qed.

(** A stored content hash that [JSON.parse] reads as zero counts as
    absent, like the empty string.  The literal 1e-400 is below every
    double but zero: [extractWatermark] gives the record an empty content
    hash, so [verifyDocument] skips the integrity check. *)
Example extractWatermark_underflow :
  let json :=
    JS.ch "{" :: member_key "f" ++ JS.quoteJSONString (JS.lit "x")
    ++ JS.ch "," :: member_key "s" ++ JS.quoteJSONString []
    ++ JS.ch "," :: member_key "t" ++ JS.lit "0"
    ++ JS.ch "," :: member_key "c" ++ JS.lit "1e-400" ++ [JS.ch "}"] in
  let text := JS.lit "Hi" ++ binaryToInvisibleText (charsToBinary json) in
  exists watermarkData,
    extractWatermark text = Some watermarkData
    /\ watermarkData.(p_fingerprintHash) = JS.JStr (JS.lit "x")
    /\ watermarkData.(p_timestamp) = JS.JNum (inject_Z 0)
    /\ watermarkData.(p_contentHash) = JS.JStr [].
Proof. vm_compute. eexists. repeat split; reflexivity. Qed.

End Verification.

(** ** [JSON.parse] never runs out of fuel *)

Section JsonFuel.

Lemma skipWS_length (str : jsstring) : (length (JS.skipWS str) <= length str)%nat.
Proof.
  induction str as [|c0 str IH]; cbn [JS.skipWS length]; [lia|].
  destruct (JS.isJSONWhiteSpace c0); cbn [length]; lia.
Qed.

Lemma skipWS_cons (str : jsstring) (c0 : N) (rest : jsstring) :
  JS.skipWS str = c0 :: rest -> (length rest < length str)%nat.
Proof.
  intros H. pose proof (skipWS_length str) as Hlen. rewrite H in Hlen.
  cbn [length] in Hlen. lia.
Qed.

Lemma parseStringChars_shorter_bounded (n : nat) (str content rest : jsstring) :
  (length str <= n)%nat ->
  JS.parseStringChars str = Some (content, rest) ->
  (length rest < length str)%nat.
Proof.
  revert str content rest.
  induction n as [|n IH]; intros str content rest Hn Hparse.
  - destruct str; [discriminate|cbn in Hn; lia].
  - destruct str as [|c0 str]; [discriminate|].
    cbn [JS.parseStringChars] in Hparse. cbn [length] in *.
    destruct (c0 =? 34).
    { injection Hparse as _ <-. lia. }
    destruct (c0 =? 92).
    { destruct str as [|e str]; [discriminate|]. cbn [length] in *.
      destruct (e =? JS.ch "u").
      - destruct str as [|h1 [|h2 [|h3 [|h4 str]]]]; try discriminate.
        cbn [length] in *.
        destruct (JS.hex4_value h1 h2 h3 h4); [|discriminate].
        destruct (JS.parseStringChars str) as [[content' rest']|] eqn:Hrec;
          [|discriminate].
        injection Hparse as _ <-. apply IH in Hrec; lia.
      - destruct (JS.simple_escape e); [|discriminate].
        destruct (JS.parseStringChars str) as [[content' rest']|] eqn:Hrec;
          [|discriminate].
        injection Hparse as _ <-. apply IH in Hrec; lia. }
    destruct (c0 <? 32); [discriminate|].
    destruct (JS.parseStringChars str) as [[content' rest']|] eqn:Hrec; [|discriminate].
    injection Hparse as _ <-. apply IH in Hrec; lia.
Qed.

Lemma parseStringChars_shorter (str content rest : jsstring) :
  JS.parseStringChars str = Some (content, rest) -> (length rest < length str)%nat.
Proof. apply (parseStringChars_shorter_bounded (length str)). lia. Qed.

Lemma strip_prefix_shorter (word str rest : jsstring) :
  word <> [] -> JS.strip_prefix word str = Some rest -> (length rest < length str)%nat.
Proof.
  revert str. induction word as [|w word IH]; intros str Hword Hstrip; [congruence|].
  destruct str as [|c0 str]; [discriminate|]. cbn [JS.strip_prefix length] in *.
  destruct (w =? c0); [|discriminate].
  destruct word as [|w' word'].
  - cbn in Hstrip. injection Hstrip as <-. lia.
  - apply IH in Hstrip; [lia|discriminate].
Qed.

Lemma takeDigits_length (str : jsstring) :
  (length (snd (JS.takeDigits str)) <= length str)%nat
  /\ (fst (JS.takeDigits str) <> Decimal.Nil ->
      length (snd (JS.takeDigits str)) < length str)%nat.
Proof.
  induction str as [|c0 str [IH1 IH2]]; cbn [JS.takeDigits].
  - cbn. split; [lia|congruence].
  - destruct (JS.takeDigits str) as [u rest]. cbn [fst snd] in *.
    destruct (JS.digit_of c0 u); cbn [fst snd length].
    + split; [lia|intros _; lia].
    + split; [lia|congruence].
Qed.

Lemma parseNumber_shorter (str : jsstring) (q : Q) (rest : jsstring) :
  JS.parseNumber str = Some (q, rest) -> (length rest < length str)%nat.
Proof.
  unfold JS.parseNumber. intros Hparse.
  (* the sign *)
  set (signed := match str with
                 | c0 :: s' => if c0 =? JS.ch "-" then (true, s') else (false, str)
                 | [] => (false, str)
                 end) in *.
  assert (Hsign : (length (snd signed) <= length str)%nat).
  { unfold signed. destruct str as [|c0 s']; [cbn; lia|].
    destruct (c0 =? JS.ch "-"); cbn [snd length]; lia. }
  destruct signed as [negative s1]. cbn [snd] in Hsign.
  (* the integer part *)
  set (whole := match s1 with
                | c0 :: s' => if c0 =? 48 then (Decimal.D0 Decimal.Nil, s')
                              else JS.takeDigits s1
                | [] => (Decimal.Nil, s1)
                end) in *.
  assert (Hwhole : fst whole <> Decimal.Nil -> (length (snd whole) < length s1)%nat).
  { unfold whole. destruct s1 as [|c0 s']; [cbn; congruence|].
    destruct (c0 =? 48); [cbn [snd length]; lia|].
    apply takeDigits_length. }
  destruct whole as [int_part s2]. cbn [fst snd] in Hwhole.
  assert (Hint : int_part <> Decimal.Nil) by (destruct int_part; congruence).
  specialize (Hwhole Hint).
  (* the fraction *)
  set (fraction := match s2 with
                   | c0 :: s' =>
                       if c0 =? JS.ch "." then
                         match JS.takeDigits s' with
                         | (Decimal.Nil, _) => None
                         | (u, rest0) => Some (u, rest0)
                         end
                       else Some (Decimal.Nil, s2)
                   | [] => Some (Decimal.Nil, s2)
                   end) in *.
  assert (Hfraction : forall u s3, fraction = Some (u, s3) ->
                                   (length s3 <= length s2)%nat).
  { unfold fraction. intros u s3 Hf. destruct s2 as [|c0 s']; [injection Hf as _ <-; lia|].
    destruct (c0 =? JS.ch ".").
    - pose proof (takeDigits_length s') as [Hle _].
      destruct (JS.takeDigits s') as [u' rest0]. cbn [snd] in Hle.
      destruct u'; try discriminate; injection Hf as _ <-; cbn [length]; lia.
    - injection Hf as _ <-. lia. }
  destruct int_part; try congruence;
    (destruct fraction as [[frac_part s3]|]; [|discriminate]);
    specialize (Hfraction _ _ eq_refl);
    match type of Hparse with
    | match ?exponent with Some _ => _ | None => _ end = _ =>
        assert (Hexp : forall e s5, exponent = Some (e, s5) ->
                                    (length s5 <= length s3)%nat);
        [ intros e s5 He; destruct s3 as [|c1 s'];
          [ injection He as _ <-; lia | ];
          destruct ((c1 =? JS.ch "e") || (c1 =? JS.ch "E"));
          [ | injection He as _ <-; lia ];
          match type of He with
          | (let '(_, _) := ?sign in _) = _ =>
              assert (Hs4 : (length (snd sign) <= length s')%nat);
              [ destruct s' as [|d s'']; [cbn; lia|];
                destruct (d =? JS.ch "-"); [cbn [snd length]; lia|];
                destruct (d =? JS.ch "+"); cbn [snd length]; lia
              | destruct sign as [exp_negative s4]; cbn [snd] in Hs4;
                pose proof (takeDigits_length s4) as [Hle _];
                destruct (JS.takeDigits s4) as [u' rest0]; cbn [snd] in Hle;
                destruct u'; try discriminate; injection He as _ <-;
                cbn [length]; lia ]
          end
        | destruct exponent as [[e s5]|]; [|discriminate];
          specialize (Hexp _ _ eq_refl); injection Hparse as _ <-; lia ]
    end.
Qed.

Lemma parse_shorter (fuel : nat) :
  (forall str v rest, JS.parseValue fuel str = Some (v, rest) ->
                      (length rest < length str)%nat)
  /\ (forall str acc v rest, JS.parseElements fuel str acc = Some (v, rest) ->
                             (length rest < length str)%nat)
  /\ (forall str acc v rest, JS.parseMembers fuel str acc = Some (v, rest) ->
                             (length rest < length str)%nat).
Proof.
  induction fuel as [|fuel (IHV & IHE & IHM)].
  - repeat split; intros; discriminate.
  - split; [|split].
    + intros str v rest Hparse. cbn [JS.parseValue] in Hparse.
      pose proof (skipWS_length str) as Hskip.
      destruct (JS.skipWS str) as [|c0 s'] eqn:Hs; [discriminate|].
      cbn [length] in Hskip.
      destruct (c0 =? JS.ch "{").
      { destruct (JS.skipWS s') as [|c2 s2] eqn:Hs2; [discriminate|].
        apply skipWS_cons in Hs2 as Hlen2.
        destruct (c2 =? JS.ch "}").
        - injection Hparse as _ <-. lia.
        - apply IHM in Hparse. cbn [length] in Hparse. lia. }
      destruct (c0 =? JS.ch "[").
      { destruct (JS.skipWS s') as [|c2 s2] eqn:Hs2; [discriminate|].
        apply skipWS_cons in Hs2 as Hlen2.
        destruct (c2 =? JS.ch "]").
        - injection Hparse as _ <-. lia.
        - apply IHE in Hparse. cbn [length] in Hparse. lia. }
      destruct (c0 =? 34).
      { destruct (JS.parseStringChars s') as [[content rest0]|] eqn:Hstr; [|discriminate].
        apply parseStringChars_shorter in Hstr. injection Hparse as _ <-. lia. }
      destruct (c0 =? JS.ch "t").
      { destruct (JS.strip_prefix _ _) as [rest0|] eqn:Hword; [|discriminate].
        apply strip_prefix_shorter in Hword; [|discriminate].
        injection Hparse as _ <-. cbn [length] in Hword. lia. }
      destruct (c0 =? JS.ch "f").
      { destruct (JS.strip_prefix _ _) as [rest0|] eqn:Hword; [|discriminate].
        apply strip_prefix_shorter in Hword; [|discriminate].
        injection Hparse as _ <-. cbn [length] in Hword. lia. }
      destruct (c0 =? JS.ch "n").
      { destruct (JS.strip_prefix _ _) as [rest0|] eqn:Hword; [|discriminate].
        apply strip_prefix_shorter in Hword; [|discriminate].
        injection Hparse as _ <-. cbn [length] in Hword. lia. }
      destruct (JS.parseNumber (c0 :: s')) as [[q rest0]|] eqn:Hnum; [|discriminate].
      apply parseNumber_shorter in Hnum. injection Hparse as _ <-.
      cbn [length] in Hnum. lia.
    + intros str acc v rest Hparse. cbn [JS.parseElements] in Hparse.
      destruct (JS.parseValue fuel str) as [[v0 rest0]|] eqn:Hvalue; [|discriminate].
      apply IHV in Hvalue.
      destruct (JS.skipWS rest0) as [|c0 rest'] eqn:Hs; [discriminate|].
      apply skipWS_cons in Hs.
      destruct (c0 =? JS.ch ",").
      { apply IHE in Hparse. lia. }
      destruct (c0 =? JS.ch "]"); [|discriminate].
      injection Hparse as _ <-. lia.
    + intros str acc v rest Hparse. cbn [JS.parseMembers] in Hparse.
      destruct (JS.skipWS str) as [|c0 s1] eqn:Hs; [discriminate|].
      apply skipWS_cons in Hs.
      destruct (c0 =? 34); [|discriminate].
      destruct (JS.parseStringChars s1) as [[key rest0]|] eqn:Hkey; [|discriminate].
      apply parseStringChars_shorter in Hkey.
      destruct (JS.skipWS rest0) as [|c2 rest2] eqn:Hs2; [discriminate|].
      apply skipWS_cons in Hs2.
      destruct (c2 =? JS.ch ":"); [|discriminate].
      destruct (JS.parseValue fuel rest2) as [[v0 rest3]|] eqn:Hvalue; [|discriminate].
      apply IHV in Hvalue.
      destruct (JS.skipWS rest3) as [|c3 rest4] eqn:Hs3; [discriminate|].
      apply skipWS_cons in Hs3.
      destruct (c3 =? JS.ch ",").
      { apply IHM in Hparse. lia. }
      destruct (c3 =? JS.ch "}"); [|discriminate].
      injection Hparse as _ <-. lia.
Qed.

(** With fuel above twice the length of the input (plus one for a value,
    plus two for the elements of an array or the members of an object)
    the parsers do not depend on the fuel. *)
Lemma parse_fuel (fuel1 : nat) :
  (forall fuel2 str, (2 * length str + 1 <= fuel1)%nat -> (2 * length str + 1 <= fuel2)%nat ->
                     JS.parseValue fuel1 str = JS.parseValue fuel2 str)
  /\ (forall fuel2 str acc,
         (2 * length str + 2 <= fuel1)%nat -> (2 * length str + 2 <= fuel2)%nat ->
         JS.parseElements fuel1 str acc = JS.parseElements fuel2 str acc)
  /\ (forall fuel2 str acc,
         (2 * length str + 2 <= fuel1)%nat -> (2 * length str + 2 <= fuel2)%nat ->
         JS.parseMembers fuel1 str acc = JS.parseMembers fuel2 str acc).
Proof.
  induction fuel1 as [|fuel1 (IHV & IHE & IHM)].
  - repeat split; intros; lia.
  - split; [|split].
    + intros [|fuel2] str H1 H2; [lia|]. cbn [JS.parseValue].
      pose proof (skipWS_length str) as Hskip.
      destruct (JS.skipWS str) as [|c0 s'] eqn:Hs; [reflexivity|].
      cbn [length] in Hskip.
      destruct (c0 =? JS.ch "{").
      { destruct (JS.skipWS s') as [|c2 s2] eqn:Hs2; [reflexivity|].
        apply skipWS_cons in Hs2.
        destruct (c2 =? JS.ch "}"); [reflexivity|].
        apply IHM; cbn [length]; lia. }
      destruct (c0 =? JS.ch "[").
      { destruct (JS.skipWS s') as [|c2 s2] eqn:Hs2; [reflexivity|].
        apply skipWS_cons in Hs2.
        destruct (c2 =? JS.ch "]"); [reflexivity|].
        apply IHE; cbn [length]; lia. }
      reflexivity.
    + intros [|fuel2] str acc H1 H2; [lia|]. cbn [JS.parseElements].
      rewrite (IHV fuel2 str) by lia.
      destruct (JS.parseValue fuel2 str) as [[v0 rest0]|] eqn:Hvalue; [|reflexivity].
      apply (proj1 (parse_shorter fuel2)) in Hvalue.
      destruct (JS.skipWS rest0) as [|c0 rest'] eqn:Hs; [reflexivity|].
      apply skipWS_cons in Hs.
      destruct (c0 =? JS.ch ","); [|reflexivity].
      apply IHE; lia.
    + intros [|fuel2] str acc H1 H2; [lia|]. cbn [JS.parseMembers].
      destruct (JS.skipWS str) as [|c0 s1] eqn:Hs; [reflexivity|].
      apply skipWS_cons in Hs.
      destruct (c0 =? 34); [|reflexivity].
      destruct (JS.parseStringChars s1) as [[key rest0]|] eqn:Hkey; [|reflexivity].
      apply parseStringChars_shorter in Hkey.
      destruct (JS.skipWS rest0) as [|c2 rest2] eqn:Hs2; [reflexivity|].
      apply skipWS_cons in Hs2.
      destruct (c2 =? JS.ch ":"); [|reflexivity].
      rewrite (IHV fuel2 rest2) by lia.
      destruct (JS.parseValue fuel2 rest2) as [[v0 rest3]|] eqn:Hvalue; [|reflexivity].
      apply (proj1 (parse_shorter fuel2)) in Hvalue.
      destruct (JS.skipWS rest3) as [|c3 rest4] eqn:Hs3; [reflexivity|].
      apply skipWS_cons in Hs3.
      destruct (c3 =? JS.ch ","); [|reflexivity].
      apply IHM; lia.
Qed.

(** The fuel of [JSON_parse] is enough: more fuel parses the same value. *)
Lemma JSON_parse_fuel (text : jsstring) (extra : nat) :
  JS.parseValue (2 * length text + 2 + extra) text
  = JS.parseValue (2 * length text + 2) text.
Proof. apply (proj1 (parse_fuel _)); lia. Qed.

End JsonFuel.

(** ** The watermark codec *)

Section Codec.

Import DocumentWatermarker.

(** *** Characters as eight binary digits *)

Lemma byteBits_spec (charCode : N) :
  charCode < 256 ->
  length (byteBits charCode) = 8%nat
  /\ JS.parseInt2 (byteBits charCode) = Some charCode
  /\ Forall (fun b => JS.isBinaryDigit b = true) (byteBits charCode).
Proof.
  intros Hc.
  assert (Hall : forallb (fun n =>
                    let bits := byteBits (N.of_nat n) in
                    (length bits =? 8)%nat
                    && match JS.parseInt2 bits with
                       | Some v => v =? N.of_nat n
                       | None => false
                       end
                    && forallb JS.isBinaryDigit bits) (seq 0 256) = true)
    by (vm_compute; reflexivity).
  rewrite forallb_forall in Hall.
  specialize (Hall (N.to_nat charCode)). rewrite N2Nat.id in Hall.
  assert (Hin : In (N.to_nat charCode) (seq 0 256)) by (apply in_seq; lia).
  specialize (Hall Hin). cbv zeta in Hall.
  apply andb_true_iff in Hall as [Hall Hdigits].
  apply andb_true_iff in Hall as [Hlen Hparse].
  split; [apply Nat.eqb_eq, Hlen|]. split.
  - destruct (JS.parseInt2 (byteBits charCode)) as [v|]; [|discriminate].
    apply N.eqb_eq in Hparse. congruence.
  - apply Forall_forall. rewrite forallb_forall in Hdigits.
    intros b Hb. apply Hdigits, list_elem_of_In, Hb.
Qed.

Lemma charsToBinary_digits (jsonString : jsstring) :
  Forall (fun charCode => charCode < 256) jsonString ->
  Forall (fun b => JS.isBinaryDigit b = true) (charsToBinary jsonString).
Proof.
  induction 1 as [|charCode rest Hc _ IH]; cbn [charsToBinary]; [constructor|].
  apply Forall_app. split; [|exact IH].
  apply (byteBits_spec charCode Hc).
Qed.

Lemma charsToBinary_length (jsonString : jsstring) :
  Forall (fun charCode => charCode < 256) jsonString ->
  length (charsToBinary jsonString) = (8 * length jsonString)%nat.
Proof.
  induction 1 as [|charCode rest Hc _ IH]; cbn [charsToBinary length]; [reflexivity|].
  rewrite length_app, IH.
  destruct (byteBits_spec charCode Hc) as [Hlen _]. unfold byteBits in Hlen. lia.
Qed.

Lemma binaryToChars_charsToBinary (jsonString : jsstring) (fuel : nat) :
  Forall (fun charCode => charCode < 256) jsonString ->
  (length jsonString <= fuel)%nat ->
  binaryToChars fuel (charsToBinary jsonString) = jsonString.
Proof.
  intros Hjson. revert fuel.
  induction Hjson as [|charCode rest Hc _ IH]; intros fuel Hfuel.
  - destruct fuel; reflexivity.
  - destruct fuel as [|fuel]; [cbn in Hfuel; lia|].
    cbn [charsToBinary binaryToChars]. fold (byteBits charCode).
    destruct (byteBits_spec charCode Hc) as (Hlen & Hparse & _).
    destruct (byteBits charCode ++ charsToBinary rest) eqn:Happ.
    { apply (f_equal length) in Happ. rewrite length_app, Hlen in Happ. discriminate. }
    rewrite <- Happ. unfold JS.substr. rewrite drop_0.
    rewrite take_app_length' by (symmetry; exact Hlen).
    rewrite drop_app_length' by (symmetry; exact Hlen).
    rewrite Hparse. cbn [JS.fromCharCode].
    rewrite N.mod_small by lia. f_equal. apply IH. cbn in Hfuel. lia.
Qed.

(** The fuel of [binaryToData], the length of the binary string, is
    enough: more fuel gives the same characters. *)
Lemma binaryToChars_fuel (fuel1 fuel2 : nat) (binary : jsstring) :
  (length binary <= fuel1)%nat -> (length binary <= fuel2)%nat ->
  binaryToChars fuel1 binary = binaryToChars fuel2 binary.
Proof.
  revert fuel2 binary.
  induction fuel1 as [|fuel1 IH]; intros fuel2 binary H1 H2.
  - destruct binary; [|cbn in H1; lia]. destruct fuel2; reflexivity.
  - destruct binary as [|b rest]; [destruct fuel2; reflexivity|].
    destruct fuel2 as [|fuel2]; [cbn in H2; lia|].
    cbn [binaryToChars]. f_equal.
    assert (Hdrop : (length (drop 8 (b :: rest)) <= length rest)%nat).
    { rewrite length_drop. cbn [length]. lia. }
    cbn [length] in H1, H2. apply IH; lia.
Qed.

(** *** Binary digits as markers *)

Lemma collectBits_app (a b : jsstring) :
  collectBits (a ++ b) = collectBits a ++ collectBits b.
Proof.
  induction a as [|c0 a IH]; [reflexivity|].
  cbn [app collectBits]. rewrite IH.
  destruct (c0 =? ZERO_BIT); [reflexivity|]. destruct (c0 =? ONE_BIT); reflexivity.
Qed.

Lemma collectBits_loop (rest : jsstring) (len i : nat) :
  Forall (fun b => JS.isBinaryDigit b = true) rest ->
  collectBits (binaryToInvisibleText_loop len i rest) = rest.
Proof.
  intros Hrest. revert i.
  induction Hrest as [|b rest Hb _ IH]; intros i; cbn [binaryToInvisibleText_loop].
  - reflexivity.
  - assert (Htail : collectBits
                      ((if ((i + 1) mod 8 =? 0)%nat && negb (i =? len - 1)%nat
                        then [SEPARATOR] else [])
                       ++ binaryToInvisibleText_loop len (S i) rest) = rest).
    { rewrite collectBits_app, IH. destruct (_ && _); reflexivity. }
    unfold JS.isBinaryDigit in Hb. apply orb_true_iff in Hb as [Hb|Hb];
      apply N.eqb_eq in Hb; subst b; cbn [collectBits]; rewrite Htail; reflexivity.
Qed.

Lemma collectBits_binaryToInvisibleText (binary : jsstring) :
  Forall (fun b => JS.isBinaryDigit b = true) binary ->
  collectBits (binaryToInvisibleText binary) = binary.
Proof. apply collectBits_loop. Qed.

(** *** The slots the distributor selects *)

Lemma insert_sorted_elem_of (v : nat) (l : list nat) (w : nat) :
  w ∈ JS.insert_sorted v l <-> w = v \/ w ∈ l.
Proof.
  induction l as [|u l IH]; cbn [JS.insert_sorted].
  - rewrite list_elem_of_singleton, elem_of_nil. tauto.
  - destruct (v <=? u)%nat.
    + rewrite elem_of_cons. reflexivity.
    + rewrite !elem_of_cons, IH. tauto.
Qed.

Lemma sort_asc_elem_of (l : list nat) (w : nat) : w ∈ JS.sort_asc l <-> w ∈ l.
Proof.
  induction l as [|u l IH]; cbn [JS.sort_asc foldr]; [reflexivity|].
  fold (JS.sort_asc l). rewrite insert_sorted_elem_of, IH, elem_of_cons. reflexivity.
Qed.

Lemma sort_asc_nonempty (l : list nat) : l <> [] -> JS.sort_asc l <> [].
Proof.
  destruct l as [|w l]; [congruence|]. intros _ E.
  assert (Hw : w ∈ JS.sort_asc (w :: l)) by (apply sort_asc_elem_of; left).
  rewrite E in Hw. apply elem_of_nil in Hw. exact Hw.
Qed.

Lemma insert_sorted_sorted (v : nat) (l : list nat) :
  StronglySorted le l -> StronglySorted le (JS.insert_sorted v l).
Proof.
  induction 1 as [|u l Hsorted IH Hall]; cbn [JS.insert_sorted].
  - repeat constructor.
  - destruct (Nat.leb_spec v u) as [Hle|Hgt].
    + constructor; [constructor; assumption|].
      constructor; [exact Hle|].
      eapply Forall_impl; [exact Hall|]. intros w Hw. cbn in *. lia.
    + constructor; [exact IH|].
      apply Forall_forall. intros w Hw.
      apply insert_sorted_elem_of in Hw as [->|Hw]; [lia|].
      rewrite Forall_forall in Hall. apply Hall, Hw.
Qed.

Lemma sort_asc_sorted (l : list nat) : StronglySorted le (JS.sort_asc l).
Proof.
  induction l as [|u l IH]; cbn [JS.sort_asc foldr]; [constructor|].
  apply insert_sorted_sorted, IH.
Qed.

Lemma set_add_elem_of (v : nat) (selected : list nat) (w : nat) :
  w ∈ JS.set_add v selected -> w = v \/ w ∈ selected.
Proof.
  unfold JS.set_add. destruct (existsb _ _); [tauto|].
  rewrite elem_of_app, list_elem_of_singleton. tauto.
Qed.

Lemma set_add_nonempty (v : nat) (selected : list nat) : JS.set_add v selected <> [].
Proof.
  unfold JS.set_add. destruct (existsb _ selected) eqn:Hex.
  - destruct selected; [discriminate|discriminate].
  - destruct selected; discriminate.
Qed.

Lemma pickRandom_fill_elem_of (rng : RandomSource) (wordIndexes : list nat)
    (count attempt i n : nat) (selected : list nat) (w : nat) :
  wordIndexes <> [] ->
  w ∈ pickRandom_fill rng wordIndexes count attempt i n selected ->
  w ∈ wordIndexes \/ w ∈ selected.
Proof.
  intros Hwords. revert i selected.
  induction n as [|n IH]; intros i selected Hw; cbn [pickRandom_fill] in Hw.
  - right. exact Hw.
  - destruct (length selected <? count)%nat; [|right; exact Hw].
    cbv zeta in Hw. apply IH in Hw as [Hw|Hw]; [left; exact Hw|].
    apply set_add_elem_of in Hw as [->|Hw]; [left|right; exact Hw].
    apply list_elem_of_In, nth_In.
    assert (0 < length wordIndexes)%nat by (destruct wordIndexes; [congruence|cbn; lia]).
    pose proof (N.mod_upper_bound (rng attempt i mod 2 ^ 32)
                  (N.of_nat (length wordIndexes)) ltac:(lia)).
    lia.
Qed.

Lemma pickRandom_fill_grows (rng : RandomSource) (wordIndexes : list nat)
    (count attempt i n : nat) (selected : list nat) :
  selected <> [] ->
  pickRandom_fill rng wordIndexes count attempt i n selected <> [].
Proof.
  revert i selected.
  induction n as [|n IH]; intros i selected Hsel; cbn [pickRandom_fill]; [exact Hsel|].
  destruct (length selected <? count)%nat; [|exact Hsel].
  apply IH, set_add_nonempty.
Qed.

Lemma pickRandom_attempts_elem_of (rng : RandomSource) (wordIndexes : list nat)
    (count attempts left : nat) (selected : list nat) (w : nat) :
  wordIndexes <> [] ->
  w ∈ pickRandom_attempts rng wordIndexes count attempts left selected ->
  w ∈ wordIndexes \/ w ∈ selected.
Proof.
  intros Hwords. revert attempts selected.
  induction left as [|left IH]; intros attempts selected Hw;
    cbn [pickRandom_attempts] in Hw.
  - right. exact Hw.
  - destruct (length selected <? count)%nat; [|right; exact Hw].
    apply IH in Hw as [Hw|Hw]; [left; exact Hw|].
    eapply pickRandom_fill_elem_of; eassumption.
Qed.

Lemma pickRandom_attempts_grows (rng : RandomSource) (wordIndexes : list nat)
    (count attempts left : nat) (selected : list nat) :
  selected <> [] ->
  pickRandom_attempts rng wordIndexes count attempts left selected <> [].
Proof.
  revert attempts selected.
  induction left as [|left IH]; intros attempts selected Hsel;
    cbn [pickRandom_attempts]; [exact Hsel|].
  destruct (length selected <? count)%nat; [|exact Hsel].
  apply IH, pickRandom_fill_grows, Hsel.
Qed.

Lemma pickRandomWordSlots_elem_of (rng : RandomSource) (wordIndexes : list nat)
    (count : nat) (w : nat) :
  wordIndexes <> [] ->
  w ∈ pickRandomWordSlots rng wordIndexes count -> w ∈ wordIndexes.
Proof.
  intros Hwords Hw. unfold pickRandomWordSlots in Hw.
  destruct (length wordIndexes <=? count)%nat; [exact Hw|].
  apply pickRandom_attempts_elem_of in Hw as [Hw|Hw]; [exact Hw| |exact Hwords].
  apply elem_of_nil in Hw. contradiction.
Qed.

Lemma pickRandomWordSlots_nonempty (rng : RandomSource) (wordIndexes : list nat)
    (count : nat) :
  wordIndexes <> [] -> (1 <= count)%nat ->
  pickRandomWordSlots rng wordIndexes count <> [].
Proof.
  intros Hwords Hcount. unfold pickRandomWordSlots.
  destruct (length wordIndexes <=? count)%nat; [exact Hwords|].
  assert (Hfill : forall attempt, pickRandom_fill rng wordIndexes count attempt 0 (count * 2) []
                                  <> []).
  { intros attempt. destruct (count * 2)%nat as [|n] eqn:Hn; [lia|].
    cbn [pickRandom_fill].
    destruct (Nat.ltb_spec (length (@nil nat)) count) as [_|Hge]; [|cbn in Hge; lia].
    apply pickRandom_fill_grows, set_add_nonempty. }
  destruct (count * 5)%nat as [|left] eqn:Hleft; [lia|].
  cbn [pickRandom_attempts].
  destruct (Nat.ltb_spec (length (@nil nat)) count) as [_|Hge]; [|cbn in Hge; lia].
  apply pickRandom_attempts_grows, Hfill.
Qed.

Lemma wordIndexes_from_bound (tokens : list jsstring) (i w : nat) :
  w ∈ wordIndexes_from i tokens -> (i <= w < i + length tokens)%nat.
Proof.
  revert i. induction tokens as [|t0 tokens IH]; intros i Hw; cbn [wordIndexes_from] in Hw.
  - apply elem_of_nil in Hw. contradiction.
  - cbn [length]. destruct (isWordToken t0).
    + apply elem_of_cons in Hw as [->|Hw]; [lia|]. apply IH in Hw. lia.
    + apply IH in Hw. lia.
Qed.

Lemma slotsToUse_positive (words payloadLength : nat) :
  (1 <= words)%nat -> (1 <= slotsToUse words payloadLength)%nat.
Proof. unfold slotsToUse. lia. Qed.

(** *** The distributor keeps the payload in order *)

Lemma collectBits_concat_clean (tokens : list jsstring) :
  Forall (fun t0 => collectBits t0 = []) tokens <-> collectBits (concat tokens) = [].
Proof.
  induction tokens as [|t0 tokens IH]; cbn [concat].
  - split; [reflexivity|constructor].
  - rewrite collectBits_app, Forall_cons, IH. split.
    + intros [-> ->]. reflexivity.
    + intros H. apply app_eq_nil in H. exact H.
Qed.

Lemma collectBits_alter_append (chunk : jsstring) (tokens : list jsstring) (slot : nat) :
  (slot < length tokens)%nat ->
  Forall (fun t0 => collectBits t0 = []) (drop (S slot) tokens) ->
  collectBits (concat (alter (fun t0 => t0 ++ chunk) slot tokens))
  = collectBits (concat tokens) ++ collectBits chunk.
Proof.
  revert slot. induction tokens as [|t0 tokens IH]; intros slot Hslot Hclean.
  - cbn in Hslot. lia.
  - destruct slot as [|slot]; cbn [alter list_alter concat].
    + cbn [drop] in Hclean. rewrite drop_0 in Hclean.
      apply collectBits_concat_clean in Hclean.
      rewrite !collectBits_app, Hclean, !app_nil_r. reflexivity.
    + rewrite !collectBits_app, IH, app_assoc; [reflexivity| |exact Hclean].
      cbn in Hslot. lia.
Qed.

Lemma take_length_take {A : Type} (n : nat) (l : list A) :
  take (length (take n l)) l = take n l.
Proof.
  rewrite length_take. destruct (Nat.le_ge_cases n (length l)).
  - rewrite Nat.min_l by assumption. reflexivity.
  - rewrite Nat.min_r by assumption. rewrite !take_ge by lia. reflexivity.
Qed.

Lemma take_add_drop {A : Type} (n k : nat) (l : list A) :
  take (n + k) l = take n l ++ take k (drop n l).
Proof.
  revert l. induction n as [|n IH]; intros l.
  - rewrite drop_0. reflexivity.
  - destruct l as [|a l]; [rewrite drop_nil, !take_nil; reflexivity|].
    cbn [Nat.add take drop firstn skipn app]. rewrite IH. reflexivity.
Qed.

Lemma last_cons_default (slot : nat) (slots : list nat) (b : nat) :
  List.last (slot :: slots) b = List.last slots slot.
Proof.
  revert slot b. induction slots as [|s1 slots IH]; intros slot b; [reflexivity|].
  change (List.last (slot :: s1 :: slots) b) with (List.last (s1 :: slots) b).
  rewrite !IH. reflexivity.
Qed.

Lemma last_bounds (slots : list nat) (b n : nat) :
  Forall (fun slot => (b <= slot < n)%nat) slots -> (b < n)%nat ->
  (b <= List.last slots b < n)%nat.
Proof.
  intros Hall Hb. revert b Hall Hb.
  induction slots as [|s1 slots IH]; intros b Hall Hb; [cbn; lia|].
  rewrite last_cons_default. apply Forall_cons in Hall as [H1 Hall].
  destruct slots as [|s2 slots]; [cbn; lia|].
  rewrite last_cons_default.
  assert (H2 : (b <= List.last (s2 :: slots) b < n)%nat) by (apply IH; assumption).
  rewrite last_cons_default in H2. exact H2.
Qed.

Lemma clean_after (tokens : list jsstring) (b slot : nat) :
  (b <= slot)%nat ->
  Forall (fun t0 => collectBits t0 = []) (drop (S b) tokens) ->
  Forall (fun t0 => collectBits t0 = []) (drop (S slot) tokens).
Proof.
  intros Hle Hclean.
  replace (S slot) with (S b + (slot - b))%nat by lia.
  rewrite <- drop_drop. apply Forall_drop, Hclean.
Qed.

Lemma appendChunks_bits (payload : jsstring) (chunkSize : nat) (slots : list nat)
    (payloadIndex : nat) (tokens : list jsstring) (b : nat) :
  StronglySorted le slots ->
  Forall (fun slot => (b <= slot < length tokens)%nat) slots ->
  Forall (fun t0 => collectBits t0 = []) (drop (S b) tokens) ->
  let result := appendChunks payload chunkSize slots payloadIndex tokens in
  collectBits (concat (snd result))
  = collectBits (concat tokens)
    ++ collectBits (take (fst result - payloadIndex) (drop payloadIndex payload))
  /\ (payloadIndex <= fst result)%nat
  /\ length (snd result) = length tokens
  /\ Forall (fun t0 => collectBits t0 = []) (drop (S (List.last slots b)) (snd result)).
Proof.
  cbv zeta. revert payloadIndex tokens b.
  induction slots as [|slot slots IH]; intros payloadIndex tokens b Hsorted Hrange Hclean.
  - cbn [appendChunks fst snd List.last].
    rewrite Nat.sub_diag, take_0, app_nil_r. auto.
  - apply StronglySorted_inv in Hsorted as [Hsorted Hhead].
    apply Forall_cons in Hrange as [Hslot Hrange].
    cbn [appendChunks].
    destruct (length payload <=? payloadIndex)%nat.
    + cbn [fst snd]. rewrite Nat.sub_diag, take_0, app_nil_r.
      split; [reflexivity|]. split; [lia|]. split; [reflexivity|].
      eapply clean_after; [|exact Hclean].
      apply (last_bounds (slot :: slots) b (length tokens)); [|lia].
      constructor; assumption.
    + set (chunk := JS.slice payload payloadIndex (payloadIndex + chunkSize)).
      set (tokens' := alter (fun t0 => t0 ++ chunk) slot tokens).
      assert (Hlen' : length tokens' = length tokens) by apply length_alter.
      destruct (IH (payloadIndex + length chunk)%nat tokens' slot Hsorted)
        as (Hbits & Hindex & Hlength & Hlast).
      { apply Forall_forall. intros w Hw.
        rewrite Forall_forall in Hhead, Hrange.
        specialize (Hhead w Hw). specialize (Hrange w Hw). rewrite Hlen'. lia. }
      { unfold tokens'. rewrite drop_alter_lt by lia.
        eapply clean_after; [|exact Hclean]. lia. }
      rewrite last_cons_default.
      split; [|split; [lia|split; [congruence|exact Hlast]]].
      rewrite Hbits.
      assert (Halter : collectBits (concat tokens')
                       = collectBits (concat tokens) ++ collectBits chunk).
      { unfold tokens'. apply collectBits_alter_append; [lia|].
        eapply clean_after; [|exact Hclean]. lia. }
      rewrite Halter, <- app_assoc, <- collectBits_app. do 2 f_equal.
      set (final := fst (appendChunks payload chunkSize slots
                           (payloadIndex + length chunk) tokens')) in *.
      replace (final - payloadIndex)%nat
        with (length chunk + (final - (payloadIndex + length chunk)))%nat by lia.
      rewrite take_add_drop, drop_drop. f_equal.
      unfold chunk, JS.slice.
      replace (payloadIndex + chunkSize - payloadIndex)%nat with chunkSize by lia.
      symmetry. apply take_length_take.
Qed.

Lemma distribute_bits (rng : RandomSource) (text payload : jsstring) :
  collectBits text = [] ->
  collectBits (distributeInvisiblePayload rng text payload) = collectBits payload.
Proof.
  intros Htext.
  assert (Hfront : collectBits (payload ++ text) = collectBits payload).
  { rewrite collectBits_app, Htext, app_nil_r. reflexivity. }
  unfold distributeInvisiblePayload.
  destruct payload as [|p0 payload']; [exact Htext|].
  set (payload := p0 :: payload') in *.
  set (tokens := JS.split_ws text).
  destruct (length tokens =? 0)%nat; [exact Hfront|].
  set (wordIndexes := wordIndexes_from 0 tokens).
  destruct (Nat.eqb_spec (length wordIndexes) 0) as [_|Hwords]; [exact Hfront|].
  cbv zeta.
  set (slots := JS.sort_asc (pickRandomWordSlots rng wordIndexes
                               (slotsToUse (length wordIndexes) (length payload)))).
  assert (Hne : wordIndexes <> []) by (intros E; rewrite E in Hwords; apply Hwords; reflexivity).
  assert (Hclean : Forall (fun t0 => collectBits t0 = []) tokens).
  { apply collectBits_concat_clean. unfold tokens.
    pose proof (join_split_ws text) as Hjoin. unfold JS.join in Hjoin.
    rewrite Hjoin. exact Htext. }
  assert (Hrange : Forall (fun slot => (0 <= slot < length tokens)%nat) slots).
  { apply Forall_forall. intros w Hw. unfold slots in Hw.
    apply sort_asc_elem_of, pickRandomWordSlots_elem_of, wordIndexes_from_bound in Hw;
      [lia|exact Hne]. }
  assert (Hslots : slots <> []).
  { apply sort_asc_nonempty, pickRandomWordSlots_nonempty; [exact Hne|].
    apply slotsToUse_positive. destruct wordIndexes; [congruence|cbn; lia]. }
  match goal with
  | |- context [appendChunks payload ?cs slots 0 tokens] =>
      destruct (appendChunks_bits payload cs slots 0 tokens 0 (sort_asc_sorted _) Hrange)
        as (Hbits & _ & Hlength & Hlast);
      [apply Forall_drop, Hclean|];
      destruct (appendChunks payload cs slots 0 tokens) as [payloadIndex tokens1]
  end.
  cbn [fst snd] in *.
  apply collectBits_concat_clean in Hclean.
  rewrite Hclean, drop_0, Nat.sub_0_r in Hbits. cbn [app] in Hbits.
  unfold JS.join.
  destruct (Nat.ltb_spec payloadIndex (length payload)) as [Hrest|Hdone].
  - destruct slots as [|s1 slots'] eqn:Hs; [congruence|]. rewrite <- Hs in *.
    assert (Hlastb : (0 <= List.last slots 0 < length tokens)%nat).
    { apply last_bounds; [exact Hrange|]. rewrite Hs in Hrange.
      apply Forall_cons in Hrange as [H1 _]. lia. }
    rewrite collectBits_alter_append; [|lia|exact Hlast].
    rewrite Hbits, <- collectBits_app. f_equal.
    unfold JS.slice. rewrite (take_ge (drop payloadIndex payload)).
    + apply take_drop.
    + rewrite length_drop. lia.
  - rewrite Hbits, take_ge by lia. reflexivity.
Qed.

(** *** [JSON.parse] reads what [JSON.stringify] wrote *)

Lemma parseStringChars_quote_unit (c0 : N) (X : jsstring) :
  c0 < 256 ->
  JS.parseStringChars (JS.quote_unit c0 ++ X) = parsedAs c0 (JS.parseStringChars X).
Proof.
  intros Hc. rewrite <- (N2Nat.id c0).
  assert (Hn : (N.to_nat c0 < 256)%nat) by lia.
  generalize dependent (N.to_nat c0). clear c0 Hc. intros n Hn.
  do 256 (destruct n as [|n]; [reflexivity|]). lia.
Qed.

Lemma quote_units_cons (c0 : N) (str : jsstring) :
  c0 < 256 -> JS.quote_units (c0 :: str) = JS.quote_unit c0 ++ JS.quote_units str.
Proof.
  intros Hc. cbn [JS.quote_units].
  assert (Hhigh : JS.isHighSurrogate c0 = false).
  { unfold JS.isHighSurrogate. apply andb_false_iff. left. apply N.leb_gt. lia. }
  rewrite Hhigh. reflexivity.
Qed.

Lemma parseStringChars_quote_units (str X : jsstring) :
  Forall (fun c0 => c0 < 256) str ->
  JS.parseStringChars (JS.quote_units str ++ 34 :: X) = Some (str, X).
Proof.
  induction 1 as [|c0 str Hc _ IH].
  - reflexivity.
  - rewrite quote_units_cons by exact Hc.
    rewrite <- app_assoc, parseStringChars_quote_unit by exact Hc.
    rewrite IH. reflexivity.
Qed.

Lemma quote_unit_ascii (c0 : N) :
  c0 < 256 -> Forall (fun d => d < 256) (JS.quote_unit c0).
Proof.
  intros Hc.
  assert (Hall : forallb (fun n => forallb (fun d => d <? 256) (JS.quote_unit (N.of_nat n)))
                         (seq 0 256) = true) by (vm_compute; reflexivity).
  rewrite forallb_forall in Hall.
  specialize (Hall (N.to_nat c0)). rewrite N2Nat.id in Hall.
  assert (Hin : In (N.to_nat c0) (seq 0 256)) by (apply in_seq; lia).
  specialize (Hall Hin). rewrite forallb_forall in Hall.
  apply Forall_forall. intros d Hd. apply N.ltb_lt, Hall, list_elem_of_In, Hd.
Qed.

Lemma quote_units_ascii (str : jsstring) :
  Forall (fun c0 => c0 < 256) str -> Forall (fun d => d < 256) (JS.quote_units str).
Proof.
  induction 1 as [|c0 str Hc _ IH]; [constructor|].
  rewrite quote_units_cons by exact Hc.
  apply Forall_app. split; [apply quote_unit_ascii, Hc|exact IH].
Qed.

Lemma digit_of_nondigit (c0 : N) (u : Decimal.uint) :
  JS.isDigit c0 = false -> JS.digit_of c0 u = None.
Proof.
  unfold JS.isDigit, JS.digit_of. intros Hc.
  apply andb_false_iff in Hc.
  repeat match goal with
         | |- context [c0 =? ?k] => destruct (N.eqb_spec c0 k) as [->|_]
         end; try reflexivity;
    destruct Hc as [Hc|Hc]; cbn in Hc; discriminate.
Qed.

Lemma takeDigits_uint_chars (u : Decimal.uint) (X : jsstring) :
  startsWithoutDigit X -> JS.takeDigits (JS.uint_chars u ++ X) = (u, X).
Proof.
  intros HX. induction u; cbn [JS.uint_chars app JS.takeDigits];
    try (rewrite IHu; reflexivity).
  destruct X as [|c0 X]; [reflexivity|].
  cbn [JS.takeDigits]. destruct (JS.takeDigits X) as [u' rest].
  rewrite digit_of_nondigit by exact HX. reflexivity.
Qed.

Lemma nzhead_no_zero (u d : Decimal.uint) : Decimal.nzhead u <> Decimal.D0 d.
Proof. induction u; cbn [Decimal.nzhead]; try discriminate. exact IHu. Qed.

Lemma to_uint_head (p : positive) :
  exists d tail, JS.uint_chars (Pos.to_uint p) = d :: tail /\ 49 <= d <= 57.
Proof.
  pose proof (DecimalPos.Unsigned.to_of (Pos.to_uint p)) as Hnorm.
  rewrite DecimalPos.Unsigned.of_to in Hnorm. cbn [N.to_uint] in Hnorm.
  pose proof (DecimalPos.Unsigned.to_uint_nonnil p) as Hnil.
  destruct (Pos.to_uint p) as [|u|u|u|u|u|u|u|u|u|u] eqn:Hu; [congruence| |..];
    try (eexists _, _; split; [reflexivity|lia]).
  exfalso. unfold Decimal.unorm in Hnorm.
  destruct (Decimal.nzhead (Decimal.D0 u)) eqn:Hhead;
    try discriminate.
  - pose proof (DecimalPos.Unsigned.to_uint_nonzero p) as Hzero.
    rewrite Hu in Hzero. congruence.
  - eapply nzhead_no_zero, Hhead.
Qed.

Lemma decimal_value_integer (m : Z) : JS.decimal_value m (0 - Z.of_nat 0) = inject_Z m.
Proof.
  unfold JS.decimal_value. change (0 - Z.of_nat 0)%Z with 0%Z.
  change (0 <=? 0)%Z with true. cbv iota.
  rewrite Z.pow_0_r, Z.mul_1_r. reflexivity.
Qed.

Lemma parseNumber_positive (negative : bool) (p : positive) (X : jsstring) :
  JS.parseNumber ((if negative then [JS.ch "-"] else [])
                  ++ JS.uint_chars (Pos.to_uint p) ++ 44 :: X)
  = Some (inject_Z (if negative then Z.neg p else Z.pos p), 44 :: X).
Proof.
  destruct (to_uint_head p) as (d & tail & Hchars & Hd).
  pose proof (takeDigits_uint_chars (Pos.to_uint p) (44 :: X) eq_refl) as Htake.
  pose proof (DecimalPos.Unsigned.to_uint_nonnil p) as Hnil.
  pose proof (DecimalN.Unsigned.of_to (N.pos p)) as Hof.
  change (N.to_uint (N.pos p)) with (Pos.to_uint p) in *.
  unfold JS.parseNumber. rewrite Hchars in *.
  destruct negative; cbn [app] in *; rewrite ?N.eqb_refl.
  all: destruct (N.eqb_spec d (JS.ch "-")) as [E|_]; [cbn in E; lia|].
  all: destruct (N.eqb_spec d 48) as [E|_]; [lia|].
  all: rewrite Htake.
  all: destruct (Pos.to_uint p) eqn:Hu; [congruence|..]; rewrite <- Hu in *;
    rewrite Hof; eval_chars; cbn -[JS.decimal_value Z.pow Z.mul Z.add Z.sub Z.of_nat Z.opp];
    rewrite decimal_value_integer, Z.pow_0_r, Z.mul_1_r, Z.add_0_r; reflexivity.
Qed.

Lemma parseNumber_Z_toString (z : Z) (X : jsstring) :
  JS.parseNumber (JS.Z_toString z ++ 44 :: X) = Some (inject_Z z, 44 :: X).
Proof.
  unfold JS.Z_toString, JS.N_toString. destruct z as [|p|p].
  - reflexivity.
  - apply (parseNumber_positive false p X).
  - apply (parseNumber_positive true p X).
Qed.

Lemma Z_toString_head (z : Z) :
  exists d tail, JS.Z_toString z = d :: tail /\ (d = 45 \/ 48 <= d <= 57).
Proof.
  unfold JS.Z_toString, JS.N_toString. destruct z as [|p|p].
  - exists 48, []. split; [reflexivity|lia].
  - destruct (to_uint_head p) as (d & tail & Hchars & Hd).
    exists d, tail. split; [exact Hchars|lia].
  - eexists _, _. split; [reflexivity|]. left. reflexivity.
Qed.

Lemma uint_chars_ascii (u : Decimal.uint) : Forall (fun d => d < 256) (JS.uint_chars u).
Proof. induction u; cbn [JS.uint_chars]; constructor; (lia || assumption). Qed.

Lemma Z_toString_ascii (z : Z) : Forall (fun d => d < 256) (JS.Z_toString z).
Proof.
  unfold JS.Z_toString, JS.N_toString. destruct (z <? 0)%Z.
  - constructor; [cbn; lia|apply uint_chars_ascii].
  - apply uint_chars_ascii.
Qed.

Lemma parseValue_string (n : nat) (str X : jsstring) :
  Forall (fun c0 => c0 < 256) str ->
  JS.parseValue (S n) (JS.quoteJSONString str ++ X) = Some (JS.JStr str, X).
Proof.
  intros Hstr. unfold JS.quoteJSONString.
  cbn [app]. rewrite <- app_assoc. cbn [app].
  cbn [JS.parseValue]. eval_chars. cbn -[JS.parseStringChars].
  rewrite parseStringChars_quote_units by exact Hstr. reflexivity.
Qed.

Lemma parseValue_number (n : nat) (z : Z) (X : jsstring) :
  (- 2 ^ 53 < z < 2 ^ 53)%Z ->
  JS.parseValue (S n) (JS.Z_toString z ++ 44 :: X) = Some (JS.JNum (inject_Z z), 44 :: X).
Proof.
  intros Hrange.
  pose proof (parseNumber_Z_toString z X) as Hparse.
  destruct (Z_toString_head z) as (d & tail & Hz & Hd).
  rewrite Hz in *. cbn [app] in *.
  cbn [JS.parseValue JS.skipWS]. unfold JS.isJSONWhiteSpace. eval_chars.
  repeat (cbn [orb];
          match goal with
          | |- context [N.eqb d ?k] => destruct (N.eqb_spec d k) as [E|_]; [lia|]
          end).
  rewrite Hparse, numberValue_integer by exact Hrange. reflexivity.
Qed.

Lemma parseMembers_string (n : nat) (k : ascii) (str X : jsstring)
    (acc : list (jsstring * JS.JSVal)) :
  latin1 str -> 32 <= JS.ch k -> JS.ch k <> 34 -> JS.ch k <> 92 ->
  JS.parseMembers (S (S n)) (member_key k ++ JS.quoteJSONString str ++ X) acc
  = match JS.skipWS X with
    | c3 :: rest4 =>
        if c3 =? 44 then JS.parseMembers (S n) rest4 (acc ++ [([JS.ch k], JS.JStr str)])
        else if c3 =? 125 then Some (JS.JObj (acc ++ [([JS.ch k], JS.JStr str)]), rest4)
        else None
    | [] => None
    end.
Proof.
  intros Hstr Hk32 Hk34 Hk92. unfold member_key. cbn [app].
  cbn [JS.parseMembers JS.skipWS]. change (JS.isJSONWhiteSpace 34) with false. cbv iota.
  rewrite N.eqb_refl. cbn [JS.parseStringChars].
  destruct (N.eqb_spec (JS.ch k) 34) as [E|_]; [congruence|].
  destruct (N.eqb_spec (JS.ch k) 92) as [E|_]; [congruence|].
  destruct (N.ltb_spec (JS.ch k) 32) as [E|_]; [lia|].
  rewrite N.eqb_refl. cbn [JS.skipWS].
  change (JS.isJSONWhiteSpace (JS.ch ":")) with false. cbv iota.
  rewrite N.eqb_refl.
  rewrite (parseValue_string n str X Hstr). eval_chars. reflexivity.
Qed.

Lemma parseMembers_number (n : nat) (k : ascii) (z : Z) (X : jsstring)
    (acc : list (jsstring * JS.JSVal)) :
  (- 2 ^ 53 < z < 2 ^ 53)%Z ->
  32 <= JS.ch k -> JS.ch k <> 34 -> JS.ch k <> 92 ->
  JS.parseMembers (S (S n)) (member_key k ++ JS.Z_toString z ++ 44 :: X) acc
  = JS.parseMembers (S n) X (acc ++ [([JS.ch k], JS.JNum (inject_Z z))]).
Proof.
  intros Hz Hk32 Hk34 Hk92. unfold member_key. cbn [app].
  cbn [JS.parseMembers JS.skipWS]. change (JS.isJSONWhiteSpace 34) with false. cbv iota.
  rewrite N.eqb_refl. cbn [JS.parseStringChars].
  destruct (N.eqb_spec (JS.ch k) 34) as [E|_]; [congruence|].
  destruct (N.eqb_spec (JS.ch k) 92) as [E|_]; [congruence|].
  destruct (N.ltb_spec (JS.ch k) 32) as [E|_]; [lia|].
  rewrite N.eqb_refl. cbn [JS.skipWS].
  change (JS.isJSONWhiteSpace (JS.ch ":")) with false. cbv iota.
  rewrite N.eqb_refl.
  rewrite (parseValue_number n z X Hz). cbn [JS.skipWS].
  change (JS.isJSONWhiteSpace 44) with false. cbv iota. eval_chars. reflexivity.
Qed.

Lemma parseValue_stringify (n : nat) (data : UltraCompactWatermarkData) :
  latin1 data.(f) -> latin1 data.(s) -> latin1 data.(c) ->
  (- 2 ^ 53 < data.(t) < 2 ^ 53)%Z ->
  JS.parseValue (6 + n) (stringify data) = Some (parsedRecord data, []).
Proof.
  intros Hf Hs Hc Ht. unfold stringify, parsedRecord.
  change (6 + n)%nat with (S (S (S (S (S (S n)))))).
  cbn [app JS.parseValue JS.skipWS].
  change (JS.isJSONWhiteSpace (JS.ch "{")) with false. cbv iota.
  rewrite N.eqb_refl.
  unfold member_key at 1. cbn [app JS.skipWS].
  change (JS.isJSONWhiteSpace 34) with false. cbv iota.
  change (34 =? JS.ch "}") with false. cbv iota.
  change (34 :: JS.ch "f" :: 34 :: JS.ch ":" :: ?X) with (member_key "f" ++ X).
  eval_chars.
  rewrite parseMembers_string; [|exact Hf|cbn; lia..].
  cbn [JS.skipWS]. change (JS.isJSONWhiteSpace 44) with false. cbv iota.
  rewrite N.eqb_refl.
  rewrite parseMembers_string; [|exact Hs|cbn; lia..].
  cbn [JS.skipWS]. change (JS.isJSONWhiteSpace 44) with false. cbv iota.
  rewrite N.eqb_refl.
  rewrite parseMembers_number; [|exact Ht|cbn; lia..].
  rewrite parseMembers_string; [|exact Hc|cbn; lia..].
  reflexivity.
Qed.

Lemma stringify_latin1 (data : UltraCompactWatermarkData) :
  latin1 data.(f) -> latin1 data.(s) -> latin1 data.(c) -> latin1 (stringify data).
Proof.
  intros Hf Hs Hc. unfold stringify, member_key, JS.quoteJSONString, latin1.
  repeat first [ apply Forall_cons; split; [cbn; lia|]
               | apply Forall_app; split
               | apply quote_units_ascii; assumption
               | apply Z_toString_ascii
               | apply Forall_nil; exact I ].
Qed.

Lemma JSON_parse_stringify (data : UltraCompactWatermarkData) :
  latin1 data.(f) -> latin1 data.(s) -> latin1 data.(c) ->
  (- 2 ^ 53 < data.(t) < 2 ^ 53)%Z ->
  JS.JSON_parse (stringify data) = Some (parsedRecord data).
Proof.
  intros Hf Hs Hc Ht. unfold JS.JSON_parse.
  assert (Hfuel : exists n, (2 * length (stringify data) + 2 = 6 + n)%nat).
  { assert (2 <= length (stringify data))%nat
      by (unfold stringify, member_key; cbn [app length]; lia).
    exists (2 * length (stringify data) - 4)%nat. lia. }
  destruct Hfuel as [n ->].
  rewrite parseValue_stringify by assumption. reflexivity.
Qed.

(** *** The round trip *)

Lemma collectBits_plain (text : jsstring) :
  Forall (fun c0 => c0 <> ZERO_BIT /\ c0 <> ONE_BIT) text -> collectBits text = [].
Proof.
  induction 1 as [|c0 text [Hzero Hone] _ IH]; [reflexivity|].
  cbn [collectBits].
  destruct (N.eqb_spec c0 ZERO_BIT) as [E|_]; [contradiction|].
  destruct (N.eqb_spec c0 ONE_BIT) as [E|_]; [contradiction|].
  exact IH.
Qed.

Lemma lookup_parsed (vf vs vc : jsstring) (vt : Q) :
  let members := [([JS.ch "f"], JS.JStr vf); ([JS.ch "s"], JS.JStr vs);
                  ([JS.ch "t"], JS.JNum vt); ([JS.ch "c"], JS.JStr vc)] in
  JS.lookup_member [JS.ch "f"] members = JS.JStr vf
  /\ JS.lookup_member [JS.ch "s"] members = JS.JStr vs
  /\ JS.lookup_member [JS.ch "t"] members = JS.JNum vt
  /\ JS.lookup_member [JS.ch "c"] members = JS.JStr vc.
Proof. cbv zeta. repeat split; reflexivity. Qed.

Lemma extractWatermark_of_bits (text : jsstring) (record : WatermarkData) :
  wellFormed record ->
  collectBits text = dataToBinary (compact record) ->
  extractWatermark text = Some (extracted record).
Proof.
  intros (Hf & Hs & Hc & Ht) Hbits.
  pose proof (stringify_latin1 (compact record) Hf Hs Hc) as Hjson.
  unfold extractWatermark, extractFromZeroWidth. rewrite Hbits.
  unfold dataToBinary in *.
  destruct (charsToBinary (stringify (compact record))) as [|b0 bits] eqn:Hbinary.
  { apply (f_equal length) in Hbinary.
    rewrite charsToBinary_length in Hbinary by exact Hjson.
    unfold stringify in Hbinary. cbn [length] in Hbinary. lia. }
  rewrite <- Hbinary. unfold binaryToData.
  rewrite binaryToChars_charsToBinary;
    [|exact Hjson|rewrite charsToBinary_length by exact Hjson; lia].
  rewrite JSON_parse_stringify by assumption.
  unfold parsedRecord, extracted, compact. cbn [f s t c].
  change (JS.get_property (JS.JObj ?m) ?k) with (Some (JS.lookup_member k m)).
  cbv iota.
  destruct (lookup_parsed (fingerprintHash record) (secret (wm_vault record))
              (contentHash record) (inject_Z (timestamp record)))
    as (-> & -> & -> & ->).
  assert (Hcontent : JS.or_else (JS.JStr (contentHash record)) (JS.JStr [])
                     = JS.JStr (contentHash record)).
  { unfold JS.or_else. destruct (contentHash record); reflexivity. }
  rewrite Hcontent. reflexivity.
Qed.

Lemma dataToBinary_digits (record : WatermarkData) :
  wellFormed record ->
  Forall (fun b => JS.isBinaryDigit b = true) (dataToBinary (compact record)).
Proof.
  intros (Hf & Hs & Hc & _). apply charsToBinary_digits, stringify_latin1; assumption.
Qed.



(** The scenario of the specification: the marker stream of the record
    carries eight bits per character of the compact JSON text, and the
    record with an empty content hash comes back with an empty one. *)
Example concrete_scenario :
  let payload := invisiblePayload (embedWatermark sampleRandom (JS.lit "Hi") sampleRecord) in
  length (collectBits payload) = (8 * length (stringify (compact sampleRecord)))%nat
  /\ extractWatermark payload = Some (extracted sampleRecord).
Proof. vm_compute. split; reflexivity. Qed.

Example legacy_scenario :
  extractWatermark
    (watermarkedText (embedWatermark sampleRandom (JS.lit "Hi there") legacyRecord))
  = Some (extracted legacyRecord)
  /\ p_contentHash (extracted legacyRecord) = JS.JStr [].
Proof. vm_compute. split; reflexivity. Qed.

(** No JSON value starts with an equals sign, whatever the fuel. *)
Lemma parseValue_equals_sign (fuel : nat) (rest : jsstring) :
  JS.parseValue fuel (61 :: rest) = None.
Proof.
  destruct fuel as [|fuel]; [reflexivity|].
  cbn [JS.parseValue JS.skipWS]. change (JS.isJSONWhiteSpace 61) with false. cbv iota.
  eval_chars. cbn [N.eqb Pos.eqb]. unfold JS.parseNumber. eval_chars.
  cbn [N.eqb Pos.eqb JS.takeDigits]. destruct (JS.takeDigits rest) as [u rest'].
  reflexivity.
Qed.


End Codec.

(** ** The fuzzy vault over the field of 251 elements *)

Section VaultField.

Import FuzzyVaultGenerator.

Local Open Scope Z_scope.

Lemma encodeMinutia_range (minutia : MinutiaePoint) :
  1 <= encodeMinutia minutia < fieldSize.
Proof.
  unfold encodeMinutia, fieldSize. cbv zeta.
  match goal with |- context [Z.rem ?a 251] => pose proof (Z.rem_bound_abs a 251 ltac:(lia)) end. lia.
Qed.

Lemma evaluate_loop_value (coefficients : list Z) (x0 result power : Z) :
  Forall (fun coeff => 0 <= coeff) coefficients -> 0 <= x0 ->
  0 <= result < fieldSize -> 0 <= power ->
  evaluate_loop coefficients x0 result power
  = (result + power * polynomialValue coefficients x0) mod fieldSize.
Proof.
  intros Hcoeffs Hx. revert result power.
  induction Hcoeffs as [|coeff rest Hc _ IH]; intros result power Hr Hp;
    cbn [evaluate_loop polynomialValue].
  - rewrite Z.mul_0_r, Z.add_0_r, Z.mod_small; [reflexivity|exact Hr].
  - unfold fieldSize in *.
    rewrite !Z.rem_mod_nonneg by nia.
    rewrite IH.
    + rewrite Z.add_mod_idemp_l by lia.
      rewrite <- Z.add_mod_idemp_r by lia.
      rewrite Z.mul_mod_idemp_l by lia.
      rewrite Z.add_mod_idemp_r by lia.
      f_equal. ring.
    + apply Z.mod_pos_bound. lia.
    + apply Z.mod_pos_bound. lia.
Qed.

(** X1: for coefficients and an abscissa that are not negative,
    [evaluatePolynomial] returns the value of the polynomial (lowest
    degree first) reduced modulo 251. *)
Theorem evaluatePolynomial_value (coefficients : list Z) (x0 : Z) :
  Forall (fun coeff => 0 <= coeff) coefficients -> 0 <= x0 ->
  evaluatePolynomial coefficients x0 = polynomialValue coefficients x0 mod fieldSize.
Proof.
  intros Hcoeffs Hx. unfold evaluatePolynomial.
  rewrite evaluate_loop_value by (assumption || (unfold fieldSize; lia)).
  f_equal. lia.
Qed.

Lemma evaluatePolynomial_value_witness :
  Forall (fun coeff => 0 <= coeff) [1; 2; 3; 4] /\ 0 <= 221
  /\ evaluatePolynomial [1; 2; 3; 4] 221 = polynomialValue [1; 2; 3; 4] 221 mod fieldSize.
Proof.
  assert (Hcoeffs : Forall (fun coeff => 0 <= coeff) [1; 2; 3; 4])
    by (repeat constructor; lia).
  assert (Hx : 0 <= 221) by lia.
  split; [exact Hcoeffs|]. split; [exact Hx|].
  exact (evaluatePolynomial_value _ _ Hcoeffs Hx).
Defined.

Lemma evaluatePolynomial_range (coefficients : list Z) (x0 : Z) :
  Forall (fun coeff => 0 <= coeff) coefficients -> 0 <= x0 ->
  0 <= evaluatePolynomial coefficients x0 < fieldSize.
Proof.
  intros Hcoeffs Hx. unfold evaluatePolynomial.
  rewrite evaluate_loop_value by (assumption || (unfold fieldSize; lia)).
  apply Z.mod_pos_bound. reflexivity.
Qed.

(** swap is a permutation *)
Lemma lookup_two_split {A : Type} (l : list A) (p q : nat) (a b : A) :
  (p < q)%nat -> l !! p = Some a -> l !! q = Some b ->
  exists l1 m1 m2, l = l1 ++ a :: m1 ++ b :: m2
                   /\ length l1 = p /\ length m1 = (q - S p)%nat.
Proof.
  intros Hpq Hp Hq.
  pose proof (lookup_lt_Some _ _ _ Hp) as Hpl.
  pose proof (lookup_lt_Some _ _ _ Hq) as Hql.
  assert (Hq' : drop (S p) l !! (q - S p)%nat = Some b).
  { rewrite lookup_drop. replace (S p + (q - S p))%nat with q by lia. exact Hq. }
  exists (take p l), (take (q - S p) (drop (S p) l)), (drop (S (q - S p)) (drop (S p) l)).
  split; [|split].
  - rewrite (take_drop_middle _ _ _ Hq'). symmetry. apply take_drop_middle, Hp.
  - rewrite length_take. lia.
  - rewrite length_take, length_drop. lia.
Qed.

Lemma swap_Permutation {A : Type} (arr : list A) (i j : nat) : swap arr i j ≡ₚ arr.
Proof.
  unfold swap.
  destruct (arr !! i) as [ai|] eqn:Hi; [|reflexivity].
  destruct (arr !! j) as [aj|] eqn:Hj; [|reflexivity].
  assert (Hgen : forall (l : list A) (p q : nat) (a b : A),
             (p < q)%nat -> l !! p = Some a -> l !! q = Some b ->
             <[q := a]> (<[p := b]> l) ≡ₚ l).
  { intros l p q a b Hpq Hp Hq.
    destruct (lookup_two_split l p q a b Hpq Hp Hq) as (l1 & m1 & m2 & -> & Hl1 & Hm1).
    rewrite (insert_app_r_alt l1 _ p) by lia.
    replace (p - length l1)%nat with 0%nat by lia.
    rewrite (insert_app_r_alt l1 _ q) by lia.
    replace (q - length l1)%nat with (S (length m1 + 0)) by lia.
    change (<[0%nat := b]> (a :: m1 ++ b :: m2)) with (b :: m1 ++ b :: m2).
    change (<[S (length m1 + 0) := a]> (b :: m1 ++ b :: m2))
      with (b :: <[(length m1 + 0)%nat := a]> (m1 ++ b :: m2)).
    rewrite insert_app_r.
    change (<[0%nat := a]> (b :: m2)) with (a :: m2).
    apply Permutation_app_head.
    rewrite <- !Permutation_middle.
    apply perm_swap. }
  destruct (Nat.lt_trichotomy i j) as [Hlt|[->|Hgt]].
  - apply (Hgen arr i j ai aj Hlt Hi Hj).
  - rewrite list_insert_insert_eq. rewrite list_insert_id; [reflexivity|exact Hi].
  - rewrite list_insert_insert_ne by lia. apply (Hgen arr j i aj ai Hgt Hj Hi).
Qed.

Lemma shuffle_loop_Permutation {A : Type} (rnd : MathRandom) (i draw : nat) (arr : list A) :
  shuffle_loop rnd draw i arr ≡ₚ arr.
Proof.
  revert draw arr. induction i as [|i IH]; intros draw arr; cbn [shuffle_loop].
  - reflexivity.
  - rewrite IH. apply swap_Permutation.
Qed.

Lemma shuffleArray_Permutation {A : Type} (rnd : MathRandom) (draw : nat) (array : list A) :
  shuffleArray rnd draw array ≡ₚ array.
Proof. apply shuffle_loop_Permutation. Qed.

(** X2: the vault is a rearrangement of the genuine points, one per
    minutia, followed by [5 - n] chaff points when there are [n < 5]
    minutiae (none otherwise): the shuffle neither loses nor invents a
    point, and the vault has [max(5, n)] points. *)
Theorem generateVaultPoints_Permutation (rnd : MathRandom)
    (minutiae : list MinutiaePoint) (coefficients : list Z) :
  generateVaultPoints rnd minutiae coefficients
  ≡ₚ realPoints minutiae coefficients ++ chaffPoints rnd (vaultSize - length minutiae)
  /\ length (generateVaultPoints rnd minutiae coefficients)
     = Nat.max vaultSize (length minutiae).
Proof.
  assert (Hperm : generateVaultPoints rnd minutiae coefficients
                  ≡ₚ realPoints minutiae coefficients
                     ++ chaffPoints rnd (vaultSize - length minutiae))
    by apply shuffleArray_Permutation.
  split; [exact Hperm|].
  rewrite Hperm, length_app. unfold realPoints, chaffPoints.
  rewrite !length_map, length_seq. lia.
Qed.

Lemma secret_polynomial_range (bytes : list Z) :
  Forall (fun byte => 0 <= byte < 256) bytes ->
  Forall (fun coeff => 0 <= coeff < fieldSize) (map (fun byte => Z.rem byte fieldSize) bytes).
Proof.
  intros Hbytes. apply Forall_map. eapply Forall_impl; [exact Hbytes|].
  intros byte Hb. cbn beta in Hb |- *. unfold fieldSize. rewrite Z.rem_mod_nonneg by lia.
  apply Z.mod_pos_bound. lia.
Qed.

(** X3: in a vault generated from secret bytes, both coordinates of every
    point lie in the field [0, 251), and every enrolled minutia has its
    point in the vault: an abscissa in [1, 251), never zero, with the
    value of the vault's polynomial at it. *)
Theorem generateVault_points (bytes : list Z) (rnd : MathRandom)
    (minutiae : list MinutiaePoint) (vault0 : FuzzyVault) :
  Forall (fun byte => 0 <= byte < 256) bytes ->
  generateVault bytes rnd minutiae = Some vault0 ->
  Forall (fun point => 0 <= fst point < fieldSize /\ 0 <= snd point < fieldSize)
         vault0.(vault)
  /\ forall minutia, minutia ∈ minutiae ->
       1 <= encodeMinutia minutia < fieldSize
       /\ (encodeMinutia minutia,
           evaluatePolynomial vault0.(polynomial) (encodeMinutia minutia))
          ∈ vault0.(vault).
Proof.
  intros Hbytes Hgen. unfold generateVault in Hgen. cbv zeta in Hgen.
  rewrite (secretToPolynomial_generateSecret _ Hbytes) in Hgen.
  injection Hgen as <-. cbn [vault polynomial].
  pose proof (secret_polynomial_range bytes Hbytes) as Hrange.
  assert (Hcoeffs : Forall (fun coeff => 0 <= coeff)
                           (map (fun byte => Z.rem byte fieldSize) bytes)).
  { eapply Forall_impl; [exact Hrange|]. intros coeff Hc. cbn beta in Hc. lia. }
  split.
  - unfold generateVaultPoints. rewrite shuffleArray_Permutation. apply Forall_app. split.
    + unfold realPoints. apply Forall_map, Forall_forall. intros minutia _. cbn [fst snd].
      pose proof (encodeMinutia_range minutia) as Hx.
      split; [lia|]. apply evaluatePolynomial_range; [exact Hcoeffs|lia].
    + unfold chaffPoints, randomBelow. apply Forall_map, Forall_forall. intros i _.
      cbn [fst snd]. unfold fieldSize.
      pose proof (Nat.mod_upper_bound (rnd (2 * i)%nat) (Z.to_nat 251) ltac:(lia)).
      pose proof (Nat.mod_upper_bound (rnd (2 * i + 1)%nat) (Z.to_nat 251) ltac:(lia)).
      lia.
  - intros minutia Hin. split; [apply encodeMinutia_range|].
    apply generateVaultPoints_genuine, Hin.
Qed.

Lemma generateVault_points_witness :
  Forall (fun byte => 0 <= byte < 256)%Z [1; 2; 3; 4]%Z
  /\ exists vault0,
       generateVault [1; 2; 3; 4]%Z noRandom twelveMinutiae = Some vault0
       /\ Forall (fun point => (0 <= fst point < fieldSize)%Z
                               /\ (0 <= snd point < fieldSize)%Z) vault0.(vault)
       /\ (encodeMinutia (minutiaAt 10 1),
           evaluatePolynomial vault0.(polynomial) (encodeMinutia (minutiaAt 10 1)))
          ∈ vault0.(vault).
Proof.
  assert (Hbytes : Forall (fun byte => 0 <= byte < 256)%Z [1; 2; 3; 4]%Z)
    by (repeat constructor; lia).
  split; [exact Hbytes|].
  assert (Hsome : exists vault0,
             generateVault [1; 2; 3; 4]%Z noRandom twelveMinutiae = Some vault0)
    by (vm_compute; eexists; reflexivity).
  destruct Hsome as [vault0 Hgen]. exists vault0. split; [exact Hgen|].
  destruct (generateVault_points _ noRandom twelveMinutiae vault0 Hbytes Hgen)
    as [Hfield Hgenuine].
  split; [exact Hfield|]. apply Hgenuine. left.
Defined.

(** X4: for every field element [a] from 1 to 250, [modInverse(a, 251)]
    is a field element from 1 to 250 and the product of the two is 1
    modulo 251. *)
Theorem modInverse_field (a : Z) :
  1 <= a < fieldSize ->
  1 <= modInverse a fieldSize < fieldSize
  /\ (a * modInverse a fieldSize) mod fieldSize = 1.
Proof.
  intros Ha.
  assert (Hall : forallb (fun n =>
                    let inverse := modInverse (Z.of_nat n) fieldSize in
                    (1 <=? inverse) && (inverse <? fieldSize)
                    && ((Z.of_nat n * inverse) mod fieldSize =? 1))
                   (seq 1 250) = true) by (vm_compute; reflexivity).
  rewrite forallb_forall in Hall.
  specialize (Hall (Z.to_nat a)). rewrite Z2Nat.id in Hall by lia.
  assert (Hin : In (Z.to_nat a) (seq 1 250)) by (apply in_seq; unfold fieldSize in Ha; lia).
  specialize (Hall Hin). cbv zeta in Hall.
  apply andb_prop in Hall as [Hall Hone]. apply andb_prop in Hall as [Hlow Hhigh].
  apply Z.leb_le in Hlow. apply Z.ltb_lt in Hhigh. apply Z.eqb_eq in Hone.
  split; [split|]; assumption.
Qed.

Lemma modInverse_field_witness :
  1 <= 3 < fieldSize
  /\ 1 <= modInverse 3 fieldSize < fieldSize
  /\ (3 * modInverse 3 fieldSize) mod fieldSize = 1.
Proof.
  assert (Ha : 1 <= 3 < fieldSize) by (unfold fieldSize; lia).
  split; [exact Ha|]. exact (modInverse_field 3 Ha).
Defined.

Lemma findMatchingPoints_length (points : list (Z * Z)) (minutiae : list MinutiaePoint) :
  (length (findMatchingPoints points minutiae) <= length minutiae)%nat.
Proof.
  unfold findMatchingPoints.
  induction minutiae as [|minutia rest IH]; cbn [flat_map length]; [lia|].
  rewrite length_app. destruct (List.find _ points); cbn [length]; lia.
Qed.

(** X5: [findMatchingPoints] returns at most one point per presented
    minutia, and every point it returns is a point of the vault whose
    abscissa is the encoding of a presented minutia. *)
Theorem findMatchingPoints_sound (points : list (Z * Z)) (minutiae : list MinutiaePoint) :
  (length (findMatchingPoints points minutiae) <= length minutiae)%nat
  /\ Forall (fun point =>
               point ∈ points
               /\ exists minutia, minutia ∈ minutiae /\ fst point = encodeMinutia minutia)
            (findMatchingPoints points minutiae).
Proof.
  split; [apply findMatchingPoints_length|]. unfold findMatchingPoints.
  induction minutiae as [|minutia rest IHall]; cbn [flat_map]; [constructor|].
  apply Forall_app. split.
  - destruct (List.find _ points) as [point|] eqn:Hfind; [|constructor].
    apply find_some in Hfind as [Hin Hx]. apply Z.eqb_eq in Hx.
    constructor; [|constructor]. split; [apply list_elem_of_In, Hin|].
    exists minutia. split; [left|exact Hx].
  - eapply Forall_impl; [exact IHall|].
    intros point [Hin [m [Hm Hx]]]. split; [exact Hin|].
    exists m. split; [right; exact Hm|exact Hx].
Qed.

(** X6: a vault generated from [n] secret bytes is never unlocked by
    fewer than [n] minutiae: [unlockVault] returns [null], whatever the
    minutiae are. *)
Theorem unlockVault_too_few (bytes : list Z) (rnd : MathRandom)
    (enrolled presented : list MinutiaePoint) (vault0 : FuzzyVault) :
  Forall (fun byte => 0 <= byte < 256) bytes ->
  generateVault bytes rnd enrolled = Some vault0 ->
  (length presented < length bytes)%nat ->
  unlockVault vault0 presented = None.
Proof.
  intros Hbytes Hgen Hfew. unfold generateVault in Hgen. cbv zeta in Hgen.
  rewrite (secretToPolynomial_generateSecret _ Hbytes) in Hgen.
  injection Hgen as <-. apply unlockVault_insufficient. cbn [vault polynomial].
  rewrite length_map.
  pose proof (findMatchingPoints_length
                (generateVaultPoints rnd enrolled
                   (map (fun byte => Z.rem byte fieldSize) bytes)) presented) as Hlen.
  lia.
Qed.

Lemma unlockVault_too_few_witness :
  Forall (fun byte => 0 <= byte < 256) [1; 2; 3; 4]
  /\ (exists vault0,
        generateVault [1; 2; 3; 4] noRandom twelveMinutiae = Some vault0
        /\ (length (take 3 twelveMinutiae) < length [1; 2; 3; 4])%nat
        /\ unlockVault vault0 (take 3 twelveMinutiae) = None).
Proof.
  assert (Hbytes : Forall (fun byte => 0 <= byte < 256) [1; 2; 3; 4])
    by (repeat constructor; lia).
  split; [exact Hbytes|].
  destruct (generateVault [1; 2; 3; 4] noRandom twelveMinutiae) as [vault0|] eqn:Hgen;
    [|discriminate].
  exists vault0. split; [reflexivity|].
  assert (Hfew : (length (take 3 twelveMinutiae) < length [1; 2; 3; 4])%nat)
    by (cbn; lia).
  split; [exact Hfew|].
  exact (unlockVault_too_few _ noRandom twelveMinutiae _ vault0 Hbytes Hgen Hfew).
Defined.

(** X7: the polynomial of a generated vault gives the secret back
    through [polynomialToSecret] exactly when every secret byte is below
    251; a byte from 251 to 255 is reduced modulo 251 in the polynomial
    and cannot be recovered from it. *)
Theorem polynomialToSecret_secret (bytes : list Z) (rnd : MathRandom)
    (minutiae : list MinutiaePoint) (vault0 : FuzzyVault) :
  Forall (fun byte => 0 <= byte < 256) bytes ->
  generateVault bytes rnd minutiae = Some vault0 ->
  polynomialToSecret vault0.(polynomial) = vault0.(secret)
  <-> Forall (fun byte => byte < fieldSize) bytes.
Proof.
  intros Hbytes Hgen. unfold generateVault in Hgen. cbv zeta in Hgen.
  rewrite (secretToPolynomial_generateSecret _ Hbytes) in Hgen.
  injection Hgen as <-. cbn [secret polynomial].
  change (polynomialToSecret (map (fun byte => Z.rem byte fieldSize) bytes))
    with (generateSecret (map (fun byte => Z.rem byte fieldSize) bytes)).
  assert (Hsmall : map (fun byte => Z.rem byte fieldSize) bytes = bytes
                   <-> Forall (fun byte => byte < fieldSize) bytes).
  { clear rnd minutiae. induction Hbytes as [|byte rest Hb _ IH]; cbn [map].
    - split; [constructor|reflexivity].
    - unfold fieldSize in *. rewrite Z.rem_mod_nonneg by lia. split.
      + intros Heq. injection Heq as Hbyte Hrest. constructor; [|apply IH, Hrest].
        pose proof (Z.mod_pos_bound byte 251 ltac:(lia)). lia.
      + intros Hall. apply Forall_cons in Hall as [Hbyte Hrest].
        rewrite Z.mod_small by lia. f_equal. apply IH, Hrest. }
  rewrite <- Hsmall. split; [|intros ->; reflexivity].
  intros Heq.
  assert (Hrange : Forall (fun byte => 0 <= byte < 256)
                          (map (fun byte => Z.rem byte fieldSize) bytes)).
  { eapply Forall_impl; [apply secret_polynomial_range, Hbytes|].
    intros coeff Hc. cbn beta in Hc. unfold fieldSize in Hc. lia. }
  pose proof (hexToBytes_loop_generateSecret _ (length bytes) Hrange) as Hleft.
  rewrite length_map in Hleft. specialize (Hleft (Nat.le_refl _)).
  rewrite Heq, (hexToBytes_loop_generateSecret _ _ Hbytes (Nat.le_refl _)) in Hleft.
  congruence.
Qed.

Lemma polynomialToSecret_secret_witness :
  Forall (fun byte => 0 <= byte < 256)%Z [1; 2; 3; 255]%Z
  /\ exists vault0,
       generateVault [1; 2; 3; 255]%Z noRandom twelveMinutiae = Some vault0
       /\ (polynomialToSecret vault0.(polynomial) = vault0.(secret)
           <-> Forall (fun byte => byte < fieldSize)%Z [1; 2; 3; 255]%Z).
Proof.
  assert (Hbytes : Forall (fun byte => 0 <= byte < 256)%Z [1; 2; 3; 255]%Z)
    by (repeat constructor; lia).
  split; [exact Hbytes|].
  assert (Hsome : exists vault0,
             generateVault [1; 2; 3; 255]%Z noRandom twelveMinutiae = Some vault0)
    by (vm_compute; eexists; reflexivity).
  destruct Hsome as [vault0 Hgen]. exists vault0. split; [exact Hgen|].
  exact (polynomialToSecret_secret _ noRandom twelveMinutiae vault0 Hbytes Hgen).
Defined.

End VaultField.

(** ** The image pipeline *)

Section ImagePipeline.

Import FingerprintProcessor.

(** *** The median filter inside the border *)

Lemma filterPixel_length (data : list N) (width py px : nat) (filtered : list N) :
  length (filterPixel data width py filtered px) = length filtered.
Proof. unfold filterPixel. cbv zeta. rewrite !length_insert. reflexivity. Qed.

Lemma filterRow_length (data : list N) (width py : nat) (columns : list nat)
    (filtered : list N) :
  length (foldl (filterPixel data width py) filtered columns) = length filtered.
Proof.
  revert filtered. induction columns as [|px columns IH]; intros filtered; cbn [foldl].
  - reflexivity.
  - rewrite IH. apply filterPixel_length.
Qed.

Lemma filterRows_length (data : list N) (width : nat) (columns rows : list nat)
    (filtered : list N) :
  length (foldl (fun acc py => foldl (filterPixel data width py) acc columns) filtered rows)
  = length filtered.
Proof.
  revert filtered. induction rows as [|py rows IH]; intros filtered; cbn [foldl].
  - reflexivity.
  - rewrite IH. apply filterRow_length.
Qed.

Lemma filterPixel_written (data : list N) (width py px : nat) (filtered : list N)
    (channel : nat) :
  ((py * width + px) * 4 + 3 < length filtered)%nat -> (channel < 4)%nat ->
  filterPixel data width py filtered px !! ((py * width + px) * 4 + channel)%nat
  = Some (if (channel <? 3)%nat then medianAt data width px py
          else nth ((py * width + px) * 4 + 3) data 0).
Proof.
  intros Hin Hc. unfold filterPixel. cbv zeta.
  set (idx := ((py * width + px) * 4)%nat) in *.
  destruct channel as [|[|[|[|?]]]]; [| | | |lia]; cbn [Nat.ltb Nat.leb].
 - rewrite Nat.add_0_r. rewrite !list_lookup_insert_ne by lia.
    apply list_lookup_insert_eq. lia.
  - rewrite !list_lookup_insert_ne by lia.
    apply list_lookup_insert_eq. rewrite length_insert. lia.
  - rewrite !list_lookup_insert_ne by lia.
    apply list_lookup_insert_eq. rewrite !length_insert. lia.
  - apply list_lookup_insert_eq. rewrite !length_insert. lia.
Qed.

(** X9: on an image buffer of four bytes per pixel the median filter
    keeps the length of the buffer, and at a pixel that is not on the
    border it stores the median of the 3x3 neighbourhood in the red, green
    and blue channels and the alpha value of its input in the fourth.
    The nine values it reads for such a pixel all lie inside the
    buffer. *)
Theorem applyMedianFilter_interior_pixels (data : list N) (width height : nat)
    (px py channel : nat) :
  length data = (4 * width * height)%nat ->
  interior width height px py -> (channel < 4)%nat ->
  length (applyMedianFilter data width height) = length data
  /\ applyMedianFilter data width height !! channelIndex width px py channel
     = Some (if (channel <? 3)%nat then medianAt data width px py
             else nth (channelIndex width px py 3) data 0)
  /\ (forall ky kx : Z, ky ∈ [-1; 0; 1]%Z -> kx ∈ [-1; 0; 1]%Z ->
        (0 <= ((Z.of_nat py + ky) * Z.of_nat width + (Z.of_nat px + kx)) * 4
         < Z.of_nat (length data))%Z).
Proof.
  intros Hlength [Hpx Hpy] Hc. unfold applyMedianFilter.
  assert (Hrow : (py * width + width <= (height - 1) * width)%nat) by nia.
  assert (Hsize : ((height - 1) * width + width = width * height)%nat) by nia.
  assert (Hin : (channelIndex width px py 3 < length data)%nat)
    by (unfold channelIndex; lia).
  split; [rewrite filterRows_length; apply length_replicate|]. split.
  - unfold channelIndex in *.
    assert (Hrows : seq 1 (height - 2)
                    = seq 1 (py - 1) ++ py :: seq (S py) (height - 2 - py)).
    { replace (height - 2)%nat with ((py - 1) + S (height - 2 - py))%nat at 1 by lia.
      rewrite seq_app. cbn [seq]. replace (1 + (py - 1))%nat with py by lia. reflexivity. }
    assert (Hcols : seq 1 (width - 2)
                    = seq 1 (px - 1) ++ px :: seq (S px) (width - 2 - px)).
    { replace (width - 2)%nat with ((px - 1) + S (width - 2 - px))%nat at 1 by lia.
      rewrite seq_app. cbn [seq]. replace (1 + (px - 1))%nat with px by lia. reflexivity. }
    rewrite Hrows, foldl_app. cbn [foldl].
    set (before := foldl _ (replicate (length data) 0) (seq 1 (py - 1))).
    assert (Hbefore : length before = length data).
    { unfold before. rewrite filterRows_length. apply length_replicate. }
    rewrite filterRows_other.
    2:{ intros qx qy Hqx Hqy. apply elem_of_seq in Hqx, Hqy.
        apply (pixel_index_apart width qx qy px py channel); [lia|lia|lia|].
        intros Heq. injection Heq as -> ->. lia. }
    rewrite Hcols, foldl_app. cbn [foldl].
    rewrite filterRow_other.
    2:{ intros qx Hqx. apply elem_of_seq in Hqx.
        apply (pixel_index_apart width qx py px py channel); [lia|lia|lia|].
        intros Heq. injection Heq as ->. lia. }
    apply filterPixel_written; [|exact Hc].
    rewrite filterRow_length, Hbefore. exact Hin.
  - intros ky kx Hky Hkx.
    assert (Hky' : (-1 <= ky <= 1)%Z).
    { repeat (apply elem_of_cons in Hky as [->|Hky]; [lia|]). inversion Hky. }
    assert (Hkx' : (-1 <= kx <= 1)%Z).
    { repeat (apply elem_of_cons in Hkx as [->|Hkx]; [lia|]). inversion Hkx. }
    assert (Hlow : (0 <= (Z.of_nat py + ky) * Z.of_nat width)%Z) by nia.
    assert (Hhigh : ((Z.of_nat py + ky) * Z.of_nat width + Z.of_nat width
                     <= Z.of_nat (width * height))%Z) by nia.
    lia.
Qed.

Lemma applyMedianFilter_interior_pixels_witness :
  length rampImage = (4 * 3 * 3)%nat
  /\ interior 3 3 1 1 /\ (0 < 4)%nat
  /\ length (applyMedianFilter rampImage 3 3) = length rampImage
  /\ applyMedianFilter rampImage 3 3 !! channelIndex 3 1 1 0
     = Some (if (0 <? 3)%nat then medianAt rampImage 3 1 1
             else nth (channelIndex 3 1 1 3) rampImage 0)
  /\ nth (channelIndex 3 1 1 0) rampImage 0 = 70
  /\ medianAt rampImage 3 1 1 = 50.
Proof.
  assert (Hlength : length rampImage = (4 * 3 * 3)%nat) by reflexivity.
  assert (Hinside : interior 3 3 1 1) by (unfold interior; cbn; lia).
  assert (Hchannel : (0 < 4)%nat) by lia.
  split; [exact Hlength|]. split; [exact Hinside|]. split; [exact Hchannel|].
  destruct (applyMedianFilter_interior_pixels rampImage 3 3 1 1 0
              Hlength Hinside Hchannel) as (Hkept & Hstored & _).
  split; [exact Hkept|]. split; [exact Hstored|]. split; reflexivity.
Defined.

Lemma insert_value_Permutation (v : N) (l : list N) : insert_value v l ≡ₚ v :: l.
Proof.
  induction l as [|w l IH]; cbn [insert_value]; [reflexivity|].
  destruct (v <=? w); [reflexivity|]. rewrite IH. apply perm_swap.
Qed.

Lemma sort_values_Permutation (l : list N) : sort_values l ≡ₚ l.
Proof.
  unfold sort_values. induction l as [|v l IH]; cbn [foldr]; [reflexivity|].
  rewrite insert_value_Permutation, IH. reflexivity.
Qed.

Lemma insert_value_sorted (v : N) (l : list N) :
  StronglySorted N.le l -> StronglySorted N.le (insert_value v l).
Proof.
  induction 1 as [|w l Hsorted IH Hall]; cbn [insert_value].
  - constructor; constructor.
  - destruct (N.leb_spec v w) as [Hle|Hgt].
    + constructor; [constructor; assumption|].
      constructor; [exact Hle|].
      eapply Forall_impl; [exact Hall|]. intros u Hu. cbn beta in Hu |- *. lia.
    + constructor; [exact IH|].
      rewrite insert_value_Permutation. constructor; [lia|exact Hall].
Qed.

Lemma sort_values_sorted (l : list N) : StronglySorted N.le (sort_values l).
Proof.
  unfold sort_values. induction l as [|v l IH]; cbn [foldr]; [constructor|].
  apply insert_value_sorted, IH.
Qed.

(** In a sorted list the element at position [k] has the first [k + 1]
    elements at or below it and the elements from position [k] on at or
    above it. *)
Lemma sorted_nth_bounds (sorted : list N) (k : nat) :
  StronglySorted N.le sorted -> (k < length sorted)%nat ->
  Forall (fun v => v <= nth k sorted 0) (take (S k) sorted)
  /\ Forall (fun v => nth k sorted 0 <= v) (drop k sorted).
Proof.
  intros Hsorted. revert k.
  induction Hsorted as [|w l Hsorted IH Hall]; intros k Hk; [cbn in Hk; lia|].
  destruct k as [|k].
  - cbn [nth take drop firstn]. rewrite firstn_O. split.
    + constructor; [lia|constructor].
    + constructor; [lia|exact Hall].
  - cbn [length] in Hk. destruct (IH k ltac:(lia)) as [Hlow Hhigh].
    cbn [nth drop]. split; [|exact Hhigh].
    change (take (S (S k)) (w :: l)) with (w :: take (S k) l).
    constructor; [|exact Hlow].
    rewrite Forall_forall in Hall. apply Hall.
    apply list_elem_of_In, nth_In. lia.
Qed.

Lemma count_at_least (test : N -> bool) (part whole : list N) :
  sublist part whole -> Forall (fun v => test v = true) part ->
  (length part <= length (List.filter test whole))%nat.
Proof.
  induction 1 as [|v part whole Hsub IH|v part whole Hsub IH]; intros Hall; cbn [List.filter].
  - cbn. lia.
  - apply Forall_cons in Hall as [Hv Hrest]. rewrite Hv. cbn [length].
    specialize (IH Hrest). lia.
  - specialize (IH Hall). destruct (test v); cbn [length]; lia.
Qed.

Lemma filter_length_Permutation (test : N -> bool) (l1 l2 : list N) :
  l1 ≡ₚ l2 -> length (List.filter test l1) = length (List.filter test l2).
Proof.
  induction 1 as [|v l1 l2 _ IH|v w l|l1 l2 l3 _ IH1 _ IH2]; cbn [List.filter].
  - reflexivity.
  - destruct (test v); cbn [length]; lia.
  - destruct (test v), (test w); reflexivity.
  - lia.
Qed.

(** X10: the value the filter computes for a pixel is a median of the
    nine red values around it: it is one of them, at least five of them
    are at most it and at least five are at least it. *)
Theorem medianAt_median (data : list N) (width px py : nat) :
  let values := redNeighbourhood data width px py in
  let median := medianAt data width px py in
  median ∈ values
  /\ (5 <= length (List.filter (fun v => (v <=? median)%N) values))%nat
  /\ (5 <= length (List.filter (fun v => (median <=? v)%N) values))%nat.
Proof.
  cbv zeta. unfold medianAt. fold (redNeighbourhood data width px py).
  set (values := redNeighbourhood data width px py).
  assert (Hlen : length values = 9%nat) by reflexivity.
  rewrite Hlen. change (9 / 2)%nat with 4%nat.
  pose proof (sort_values_Permutation values) as Hperm.
  pose proof (sort_values_sorted values) as Hsorted.
  assert (Hlen' : length (sort_values values) = 9%nat)
    by (rewrite Hperm; exact Hlen).
  destruct (sorted_nth_bounds (sort_values values) 4 Hsorted ltac:(lia)) as [Hlow Hhigh].
  set (median := nth 4 (sort_values values) 0) in *.
  split; [|split].
  - rewrite <- Hperm. apply list_elem_of_In, nth_In. lia.
  - rewrite <- (filter_length_Permutation _ _ _ Hperm).
    etransitivity; [|apply (count_at_least _ (take 5 (sort_values values)))].
    + rewrite length_take. lia.
    + apply sublist_take.
    + eapply Forall_impl; [exact Hlow|]. intros v Hv. apply N.leb_le, Hv.
  - rewrite <- (filter_length_Permutation _ _ _ Hperm).
    etransitivity; [|apply (count_at_least _ (drop 4 (sort_values values)))].
    + rewrite length_drop. lia.
    + apply sublist_drop.
    + eapply Forall_impl; [exact Hhigh|]. intros v Hv. apply N.leb_le, Hv.
Qed.

(** *** Thinning only clears interior pixels *)

Lemma thinned_refl (width height : nat) (image : list N) :
  thinned width height image image.
Proof. split; [reflexivity|]. intros k. left. reflexivity. Qed.

Lemma thinPixel_thinned (width height py px : nat) (original : list N)
    (state : list N * bool) :
  (1 <= px <= width - 2)%nat -> (1 <= py <= height - 2)%nat ->
  thinned width height original (fst state) ->
  thinned width height original (fst (thinPixel width height py state px)).
Proof.
  intros Hpx Hpy [Hlen Hpixels]. destruct state as [skeleton changed].
  cbn [fst] in *. unfold thinPixel.
  destruct (N.eqb_spec (nth (py * width + px) skeleton 0) 1) as [Hone|_];
    [|split; assumption].
  cbv zeta. destruct (_ && _); [|split; assumption].
  cbn [fst]. split; [rewrite length_insert; exact Hlen|].
  intros k. destruct (decide (k = (py * width + px)%nat)) as [->|Hk].
  - right.
    assert (Hin : (py * width + px < length skeleton)%nat).
    { destruct (Nat.lt_ge_cases (py * width + px) (length skeleton)) as [Hlt|Hge];
        [exact Hlt|].
      rewrite nth_overflow in Hone by exact Hge. discriminate. }
    assert (Hcur : skeleton !! (py * width + px)%nat = Some 1).
    { rewrite <- Hone.
      destruct (skeleton !! (py * width + px)%nat) as [v|] eqn:Hv.
      - f_equal. symmetry. apply nth_lookup_Some. exact Hv.
      - apply lookup_ge_None in Hv. lia. }
    split; [|split].
    + destruct (Hpixels (py * width + px)%nat) as [Hsame|(_ & Hzero & _)];
        [congruence|congruence].
    + apply list_lookup_insert_eq. exact Hin.
    + exists px, py. split; [split; assumption|reflexivity].
  - rewrite list_lookup_insert_ne by congruence. apply Hpixels.
Qed.

Lemma thinRow_thinned (width height py : nat) (original : list N)
    (columns : list nat) (state : list N * bool) :
  (forall px, px ∈ columns -> (1 <= px <= width - 2)%nat) ->
  (1 <= py <= height - 2)%nat ->
  thinned width height original (fst state) ->
  thinned width height original (fst (foldl (thinPixel width height py) state columns)).
Proof.
  revert state. induction columns as [|px columns IH]; intros state Hcols Hpy Hinv;
    cbn [foldl]; [exact Hinv|].
  apply IH; [intros qx Hqx; apply Hcols; right; exact Hqx|exact Hpy|].
  apply thinPixel_thinned; [apply Hcols; left|exact Hpy|exact Hinv].
Qed.

Lemma thinRows_thinned (width height : nat) (original : list N)
    (rows : list nat) (state : list N * bool) :
  (forall py, py ∈ rows -> (1 <= py <= height - 2)%nat) ->
  thinned width height original (fst state) ->
  thinned width height original
    (fst (foldl (fun state py => foldl (thinPixel width height py) state (seq 1 (width - 2)))
                state rows)).
Proof.
  revert state. induction rows as [|py rows IH]; intros state Hrows Hinv;
    cbn [foldl]; [exact Hinv|].
  apply IH; [intros qy Hqy; apply Hrows; right; exact Hqy|].
  apply thinRow_thinned; [|apply Hrows; left|exact Hinv].
  intros px Hpx. apply elem_of_seq in Hpx. lia.
Qed.

Lemma thinPass_thinned (width height : nat) (original skeleton : list N) :
  thinned width height original skeleton ->
  thinned width height original (fst (thinPass width height skeleton)).
Proof.
  intros Hinv. unfold thinPass. apply thinRows_thinned; [|exact Hinv].
  intros py Hpy. apply elem_of_seq in Hpy. lia.
Qed.

Lemma skeletonize_loop_thinned (passes width height : nat) (original skeleton : list N) :
  thinned width height original skeleton ->
  thinned width height original (skeletonize_loop passes width height skeleton).
Proof.
  revert skeleton. induction passes as [|passes IH]; intros skeleton Hinv;
    cbn [skeletonize_loop]; [exact Hinv|].
  pose proof (thinPass_thinned width height original skeleton Hinv) as Hpass.
  destruct (thinPass width height skeleton) as [skeleton' changed]. cbn [fst] in Hpass.
  destruct changed; [apply IH, Hpass|exact Hpass].
Qed.

(** X11: [skeletonize] keeps the length of the image and only clears
    pixels: every pixel of the skeleton has the value it had, or it was 1
    and is now 0; and a pixel on the border keeps its value. *)
Theorem skeletonize_thins (binaryData : list N) (width height : nat) :
  let skeleton := skeletonize binaryData width height in
  length skeleton = length binaryData
  /\ (forall k, skeleton !! k = binaryData !! k
                \/ (binaryData !! k = Some 1 /\ skeleton !! k = Some 0))
  /\ (forall px py, (px < width)%nat -> onBorder width height px py ->
                    skeleton !! (py * width + px)%nat
                    = binaryData !! (py * width + px)%nat).
Proof.
  cbv zeta. unfold skeletonize.
  destruct (skeletonize_loop_thinned 50 width height binaryData binaryData
              (thinned_refl width height binaryData)) as [Hlen Hpixels].
  split; [exact Hlen|]. split.
  - intros k. destruct (Hpixels k) as [Hsame|(Hone & Hzero & _)];
      [left; exact Hsame|right; split; assumption].
  - intros px py Hpx Hborder.
    destruct (Hpixels (py * width + px)%nat)
      as [Hsame|(_ & _ & qx & qy & [Hqx Hqy] & Heq)]; [exact Hsame|].
    exfalso. unfold onBorder in Hborder.
    assert (Hrow : py = qy).
    { destruct (Nat.lt_trichotomy py qy) as [Hlt|[Hrow|Hgt]]; [|exact Hrow|].
      - assert (py * width + width <= qy * width)%nat by nia. lia.
      - assert (qy * width + width <= py * width)%nat by nia. lia. }
    subst qy. assert (px = qx) by lia. subst qx. lia.
Qed.

(** *** Where minutiae are found, and which are accepted *)

Section Extraction.

Variable luminance : N -> N -> N -> Z.
Variable atan2_degrees : Z -> Z -> Q.

Lemma analyzeMinutia_found (skeletonData : list N) (px py width height : nat)
    (minutia : MinutiaePoint) :
  analyzeMinutia atan2_degrees skeletonData px py width height = Some minutia ->
  let neighbors := getNeighbors skeletonData px py width height in
  minutia.(x) = Z.of_nat px /\ minutia.(y) = Z.of_nat py
  /\ minutia.(angle) = calculateAngle atan2_degrees neighbors
  /\ sum_values neighbors = match minutia.(type) with ending => 1 | bifurcation => 3 end.
Proof.
  unfold analyzeMinutia. cbv zeta.
  destruct (N.eqb_spec (sum_values (getNeighbors skeletonData px py width height)) 1)
    as [Hone|_]; [intros [= <-]; repeat split; exact Hone|].
  destruct (N.eqb_spec (sum_values (getNeighbors skeletonData px py width height)) 3)
    as [Hthree|_]; [intros [= <-]; repeat split; exact Hthree|discriminate].
Qed.

Lemma extractMinutiae_found (imageData : ImageData) (minutia : MinutiaePoint) :
  minutia ∈ extractMinutiae atan2_degrees imageData ->
  let w := imageData.(width) in
  let h := imageData.(height) in
  let skeletonData := skeletonize (binarizeImage imageData.(data)) w h in
  exists px py,
    interior w h px py
    /\ nth (py * w + px) skeletonData 0 = 1
    /\ analyzeMinutia atan2_degrees skeletonData px py w h = Some minutia.
Proof.
  unfold extractMinutiae. cbv zeta. intros Hin.
  apply list_elem_of_In, in_flat_map in Hin as (py & Hpy & Hin).
  apply in_flat_map in Hin as (px & Hpx & Hin).
  apply in_seq in Hpy, Hpx. exists px, py.
  destruct (N.eqb_spec (nth (py * imageData.(width) + px)
                            (skeletonize (binarizeImage imageData.(data))
                               imageData.(width) imageData.(height)) 0) 1)
    as [Hone|_]; [|destruct Hin].
  destruct (analyzeMinutia _ _ _ _ _ _) as [found|] eqn:Hfound; [|destruct Hin].
  destruct Hin as [<-|[]].
  split; [unfold interior; lia|]. split; [exact Hone|reflexivity].
Qed.

Lemma extractMinutiae_position (imageData : ImageData) (minutia : MinutiaePoint) :
  minutia ∈ extractMinutiae atan2_degrees imageData ->
  (1 <= minutia.(x) <= Z.of_nat imageData.(width) - 2)%Z
  /\ (1 <= minutia.(y) <= Z.of_nat imageData.(height) - 2)%Z.
Proof.
  intros Hin.
  destruct (extractMinutiae_found imageData minutia Hin) as (px & py & [Hpx Hpy] & _ & Hfound).
  apply analyzeMinutia_found in Hfound as (-> & -> & _). lia.
Qed.

(** X12: every minutia [extractMinutiae] returns sits at a pixel that is
    not on the border and that is set in the skeleton; it is an ending
    when exactly one of the eight neighbours is set and a bifurcation when
    exactly three are, and its angle is computed from these neighbours. *)
Theorem extractMinutiae_sound (imageData : ImageData) (minutia : MinutiaePoint) :
  minutia ∈ extractMinutiae atan2_degrees imageData ->
  let w := imageData.(width) in
  let h := imageData.(height) in
  let skeletonData := skeletonize (binarizeImage imageData.(data)) w h in
  exists px py,
    interior w h px py
    /\ minutia.(x) = Z.of_nat px /\ minutia.(y) = Z.of_nat py
    /\ nth (py * w + px) skeletonData 0 = 1
    /\ sum_values (getNeighbors skeletonData px py w h)
       = match minutia.(type) with ending => 1 | bifurcation => 3 end
    /\ minutia.(angle)
       = calculateAngle atan2_degrees (getNeighbors skeletonData px py w h).
Proof.
  intros Hin. cbv zeta.
  destruct (extractMinutiae_found imageData minutia Hin) as (px & py & Hinside & Hone & Hfound).
  apply analyzeMinutia_found in Hfound as (Hx & Hy & Hangle & Hsum).
  exists px, py. repeat split; try assumption; apply Hinside.
Qed.

(** Normalising a second time changes nothing. *)
Lemma normalize_loop_fixed (rest kept : list MinutiaePoint) :
  farApart (kept ++ rest) -> (length (kept ++ rest) <= 80)%nat ->
  normalize_loop rest kept = kept ++ rest.
Proof.
  revert kept. induction rest as [|point rest IH]; intros kept Hfar Hlen;
    cbn [normalize_loop]; [rewrite app_nil_r; reflexivity|].
  cbv zeta. rewrite existsb_tooClose.
  assert (Hall : forallb (fun existing => (25 <=? distance2 existing point)%Z) kept = true).
  { apply forallb_forall. intros existing Hin. apply Z.leb_le.
    apply list_elem_of_In, list_elem_of_lookup in Hin as [i Hi].
    apply (Hfar i (length kept) existing point).
    - apply lookup_lt_Some in Hi. lia.
    - rewrite lookup_app_l by (eapply lookup_lt_Some, Hi). exact Hi.
    - rewrite lookup_app_r by lia. rewrite Nat.sub_diag. reflexivity. }
  rewrite Hall. cbn [negb].
  replace (kept ++ point :: rest) with ((kept ++ [point]) ++ rest) in *
    by (rewrite <- app_assoc; reflexivity).
  destruct (Nat.leb_spec MAX_MINUTIAE (length (kept ++ [point]))) as [Hfull|Hroom].
  - unfold MAX_MINUTIAE in Hfull. rewrite length_app in Hlen.
    destruct rest; [rewrite app_nil_r; reflexivity|cbn [length] in Hlen; lia].
  - apply IH; assumption.
Qed.

(** X13: normalising minutiae a second time changes nothing. *)
Theorem normalizeMinutiae_idempotent (minutiae : list MinutiaePoint) :
  normalizeMinutiae (normalizeMinutiae minutiae) = normalizeMinutiae minutiae.
Proof.
  destruct (normalize_loop_invariant minutiae []) as [Hfar Hlen].
  { intros i j p q _ Hi. rewrite lookup_nil in Hi. discriminate. }
  { cbn. lia. }
  unfold normalizeMinutiae at 1. rewrite normalize_loop_fixed; [reflexivity|exact Hfar|exact Hlen].
Qed.

(** X14: whenever [processFingerprint] resolves, the image was decoded
    and the minutiae it resolves with are between twelve and eighty, any
    two of them at least five pixels apart, each at a pixel that is not
    on the border of the image. *)
Theorem processFingerprint_accepted (image : option ImageData)
    (minutiae : list MinutiaePoint) :
  processFingerprint luminance atan2_degrees image = Resolved minutiae ->
  exists imageData,
    image = Some imageData
    /\ (12 <= length minutiae <= 80)%nat
    /\ farApart minutiae
    /\ Forall (fun minutia =>
                 (1 <= minutia.(x) <= Z.of_nat imageData.(width) - 2)%Z
                 /\ (1 <= minutia.(y) <= Z.of_nat imageData.(height) - 2)%Z)
              minutiae.
Proof.
  unfold processFingerprint. destruct image as [imageData|]; [|discriminate].
  unfold qualityGate, MIN_MINUTIAE.
  destruct (Nat.ltb_spec (length (normalizedMinutiae luminance atan2_degrees imageData)) 12)
    as [|Henough]; [discriminate|].
  intros [= <-]. exists imageData. split; [reflexivity|].
  unfold normalizedMinutiae in *.
  set (found := extractMinutiae atan2_degrees (preprocessImage luminance imageData)) in *.
  destruct (normalize_loop_invariant found []) as [Hfar Hlen].
  { intros i j p q _ Hi. rewrite lookup_nil in Hi. discriminate. }
  { cbn. lia. }
  split; [split; [exact Henough|exact Hlen]|]. split; [exact Hfar|].
  destruct (normalize_loop_sublist found []) as (kept & Heq & Hsub).
  unfold normalizeMinutiae. rewrite Heq. cbn [app].
  apply Forall_forall. intros minutia Hin.
  apply (extractMinutiae_position (preprocessImage luminance imageData)).
  eapply elem_of_sublist; [exact Hin|exact Hsub].
Qed.

End Extraction.

Lemma extractMinutiae_sound_witness :
  minutiaAt 1 1 ∈ extractMinutiae noAngle ridgeImage
  /\ exists px py,
       interior 3 3 px py /\ (minutiaAt 1 1).(x) = Z.of_nat px
       /\ (minutiaAt 1 1).(y) = Z.of_nat py.
Proof.
  assert (Hin : minutiaAt 1 1 ∈ extractMinutiae noAngle ridgeImage) by (left).
  split; [exact Hin|].
  destruct (extractMinutiae_sound noAngle ridgeImage (minutiaAt 1 1) Hin)
    as (px & py & Hinside & Hx & Hy & _).
  exists px, py. split; [exact Hinside|]. split; assumption.
Defined.

Lemma processFingerprint_accepted_witness :
  exists minutiae imageData,
    processFingerprint greyLevel noAngle (Some blocksImage) = Resolved minutiae
    /\ Some blocksImage = Some imageData
    /\ (12 <= length minutiae <= 80)%nat
    /\ farApart minutiae.
Proof.
  assert (Haccepted : exists minutiae,
             processFingerprint greyLevel noAngle (Some blocksImage) = Resolved minutiae)
    by (vm_compute; eexists; reflexivity).
  destruct Haccepted as [minutiae Hprocessed].
  destruct (processFingerprint_accepted greyLevel noAngle _ _ Hprocessed)
    as (imageData & Himage & Hcount & Hfar & _).
  exists minutiae, imageData. split; [exact Hprocessed|]. split; [exact Himage|].
  split; assumption.
Defined.

(** *** Contrast *)

Lemma enhanceContrast_stored_bounds (value : Z) :
  let doubled := Z.min 510 (Z.max 0 (3 * (value - 128) + 256)) in
  (doubled / 2 <= Z.of_N (enhanceContrast_stored value) <= (doubled + 1) / 2)%Z.
Proof.
  cbv zeta. unfold enhanceContrast_stored. cbv zeta.
  set (doubled := Z.min 510 (Z.max 0 (3 * (value - 128) + 256))).
  assert (Hrange : (0 <= doubled <= 510)%Z) by (unfold doubled; lia).
  destruct (Z.even doubled) eqn:Heven.
  - rewrite Z2N.id by (apply Z.div_pos; lia).
    split; [lia|]. apply Z.div_le_mono; lia.
  - assert (Hodd : Z.odd doubled = true) by (rewrite <- Z.negb_even, Heven; reflexivity).
    apply Z.odd_spec in Hodd as [half Hhalf].
    assert (Hlow : (doubled / 2 = half)%Z).
    { rewrite Hhalf. rewrite Z.add_comm, Z.mul_comm, Z.div_add by lia.
      change (1 / 2)%Z with 0%Z. lia. }
    assert (Hhigh : ((doubled + 1) / 2 = half + 1)%Z).
    { rewrite Hhalf. replace (2 * half + 1 + 1)%Z with ((half + 1) * 2)%Z by lia.
      apply Z.div_mul. lia. }
    rewrite Hlow, Hhigh. destruct (Z.even half); rewrite Z2N.id by lia; lia.
Qed.

(** X15: contrast enhancement, as stored in the clamped byte array, never
    inverts two grey levels and never exceeds 255. *)
Theorem enhanceContrast_stored_monotone (value value' : Z) :
  (value <= value')%Z ->
  enhanceContrast_stored value <= enhanceContrast_stored value'
  /\ enhanceContrast_stored value' <= 255.
Proof.
  intros Hle.
  pose proof (enhanceContrast_stored_bounds value) as Hv.
  pose proof (enhanceContrast_stored_bounds value') as Hv'. cbv zeta in Hv, Hv'.
  set (doubled := Z.min 510 (Z.max 0 (3 * (value - 128) + 256))) in *.
  set (doubled' := Z.min 510 (Z.max 0 (3 * (value' - 128) + 256))) in *.
  assert (Hrange : (0 <= doubled <= doubled' /\ doubled' <= 510)%Z)
    by (unfold doubled, doubled'; lia).
  split; [|lia].
  destruct (Z.eq_dec value value') as [->|Hne]; [lia|].
  assert (Hstep : (doubled = doubled' \/ doubled + 1 = doubled' \/ doubled + 2 <= doubled')%Z)
    by lia.
  destruct Hstep as [Hsame|[Hone|Htwo]].
  - assert (Heq : enhanceContrast_stored value = enhanceContrast_stored value').
    { unfold enhanceContrast_stored. cbv zeta. fold doubled doubled'. rewrite Hsame.
      reflexivity. }
    lia.
  - (* one half apart: only where a value is clamped *)
    assert (Hcases : (doubled = 0 /\ doubled' = 1)%Z)
      by (unfold doubled, doubled' in *; lia).
    unfold enhanceContrast_stored. cbv zeta. fold doubled doubled'.
    destruct Hcases as [-> ->]. vm_compute. discriminate.
  - assert ((doubled + 1) / 2 <= doubled' / 2)%Z; [|lia].
    replace (doubled + 1)%Z with (doubled - 1 + 1 * 2)%Z by lia.
    rewrite Z.div_add by lia.
    assert ((doubled - 1) / 2 + 1 = (doubled - 1 + 1 * 2) / 2)%Z as ->
      by (rewrite Z.div_add by lia; reflexivity).
    apply Z.div_le_mono; lia.
Qed.

Lemma enhanceContrast_stored_monotone_witness :
  (100 <= 200)%Z
  /\ enhanceContrast_stored 100 <= enhanceContrast_stored 200
  /\ enhanceContrast_stored 200 <= 255.
Proof.
  assert (Hle : (100 <= 200)%Z) by lia.
  split; [exact Hle|]. exact (enhanceContrast_stored_monotone 100 200 Hle).
Defined.

End ImagePipeline.

(** ** Marker streams *)

Section MarkerStreams.

Import DocumentWatermarker.
Import BiometricEncryptionService.

Lemma invisibleTextToBinary_loop (len i : nat) (binary rest : jsstring) :
  Forall (fun b => JS.isBinaryDigit b = true) binary ->
  invisibleTextToBinary (binaryToInvisibleText_loop len i binary ++ rest)
  = binary ++ invisibleTextToBinary rest.
Proof.
  intros Hbinary. revert i.
  induction Hbinary as [|b binary Hb _ IH]; intros i; cbn [binaryToInvisibleText_loop app];
    [reflexivity|].
  assert (Hdigit : b = 48 \/ b = 49).
  { unfold JS.isBinaryDigit in Hb. apply orb_prop in Hb as [Hb|Hb];
      apply N.eqb_eq in Hb; [left|right]; exact Hb. }
  eval_chars.
  assert (Hmarker : invisibleTextToBinary
                      ((if b =? 49 then ONE_BIT else ZERO_BIT)
                       :: binaryToInvisibleText_loop len (S i) binary ++ rest)
                    = b :: binary ++ invisibleTextToBinary rest).
  { destruct Hdigit as [-> | ->]; cbn [N.eqb Pos.eqb invisibleTextToBinary].
    - change (ZERO_BIT =? ZERO_BIT) with true. cbv iota.
      eval_chars. rewrite IH. reflexivity.
    - change (ONE_BIT =? ZERO_BIT) with false.
      change (ONE_BIT =? ONE_BIT) with true. cbv iota. eval_chars. rewrite IH. reflexivity. }
  destruct (_ && _); cbn [app]; [|exact Hmarker].
  destruct Hdigit as [-> | ->]; cbn [N.eqb Pos.eqb invisibleTextToBinary].
  - change (ZERO_BIT =? ZERO_BIT) with true.
    change (SEPARATOR =? ZERO_BIT) with false.
    change (SEPARATOR =? ONE_BIT) with false. change (SEPARATOR =? SEPARATOR) with true.
    cbv iota. eval_chars. rewrite IH. reflexivity.
  - change (ONE_BIT =? ZERO_BIT) with false.
    change (ONE_BIT =? ONE_BIT) with true. change (SEPARATOR =? ZERO_BIT) with false.
    change (SEPARATOR =? ONE_BIT) with false. change (SEPARATOR =? SEPARATOR) with true.
    cbv iota. eval_chars. rewrite IH. reflexivity.
Qed.

(** X16: [invisibleTextToBinary] reads back the binary digits
    [binaryToInvisibleText] wrote, and stops at the first character that
    is no marker: what follows is ignored. *)
Theorem invisibleTextToBinary_roundtrip (binary rest : jsstring) (char : N) :
  Forall (fun b => JS.isBinaryDigit b = true) binary ->
  isMarker char = false ->
  invisibleTextToBinary (binaryToInvisibleText binary) = binary
  /\ invisibleTextToBinary (binaryToInvisibleText binary ++ char :: rest) = binary.
Proof.
  intros Hbinary Hchar. unfold binaryToInvisibleText. split.
  - rewrite <- (app_nil_r (binaryToInvisibleText_loop _ _ _)).
    rewrite invisibleTextToBinary_loop by exact Hbinary. apply app_nil_r.
  - rewrite invisibleTextToBinary_loop by exact Hbinary.
    cbn [invisibleTextToBinary]. unfold isMarker in Hchar.
    apply orb_false_elim in Hchar as [Hchar Hsep].
    apply orb_false_elim in Hchar as [Hzero Hone].
    rewrite Hzero, Hone, Hsep. apply app_nil_r.
Qed.

Lemma invisibleTextToBinary_roundtrip_witness :
  Forall (fun b => JS.isBinaryDigit b = true) (JS.lit "0100100001")
  /\ isMarker (JS.ch "a") = false
  /\ invisibleTextToBinary (binaryToInvisibleText (JS.lit "0100100001")) = JS.lit "0100100001"
  /\ invisibleTextToBinary
       (binaryToInvisibleText (JS.lit "0100100001") ++ JS.ch "a" :: [ONE_BIT])
     = JS.lit "0100100001".
Proof.
  assert (Hbinary : Forall (fun b => JS.isBinaryDigit b = true) (JS.lit "0100100001"))
    by (repeat constructor).
  assert (Hchar : isMarker (JS.ch "a") = false) by reflexivity.
  split; [exact Hbinary|]. split; [exact Hchar|].
  exact (invisibleTextToBinary_roundtrip _ [ONE_BIT] _ Hbinary Hchar).
Defined.



End MarkerStreams.

(** ** Hashing *)

Section Hashing.

Import BiometricEncryptionService.

Lemma trimStart_app_ws (ws rest : jsstring) :
  forallb JS.isWhiteSpace ws = true -> JS.trimStart (ws ++ rest) = JS.trimStart rest.
Proof.
  induction ws as [|char ws IH]; cbn [forallb app JS.trimStart]; [reflexivity|].
  intros Hws. apply andb_prop in Hws as [Hchar Hws]. rewrite Hchar. apply IH, Hws.
Qed.

Lemma trimStart_snoc (str : jsstring) (char : N) :
  JS.trimStart (str ++ [char])
  = if forallb JS.isWhiteSpace str then JS.trimStart [char] else JS.trimStart str ++ [char].
Proof.
  induction str as [|c0 str IH]; cbn [app forallb]; [reflexivity|].
  cbn [JS.trimStart]. destruct (JS.isWhiteSpace c0); cbn [andb]; [exact IH|].
  reflexivity.
Qed.

Lemma forallb_rev {A : Type} (test : A -> bool) (l : list A) :
  forallb test (rev l) = forallb test l.
Proof.
  induction l as [|a l IH]; [reflexivity|].
  cbn [rev forallb]. rewrite forallb_app, IH. cbn [forallb].
  rewrite andb_true_r. apply andb_comm.
Qed.

(** [trimEnd], read from the front. *)
Lemma trimEnd_cons (char : N) (str : jsstring) :
  JS.trimEnd (char :: str)
  = if forallb JS.isWhiteSpace (char :: str) then [] else char :: JS.trimEnd str.
Proof.
  unfold JS.trimEnd. cbn [rev]. rewrite trimStart_snoc.
  rewrite forallb_rev. cbn [forallb]. rewrite andb_comm.
  destruct (forallb JS.isWhiteSpace str) eqn:Hstr; cbn [andb].
  - cbn [JS.trimStart]. destruct (JS.isWhiteSpace char); [reflexivity|].
    cbn [rev app]. f_equal.
    assert (Hempty : JS.trimStart (rev str) = []).
    { rewrite <- (app_nil_r (rev str)). rewrite trimStart_app_ws; [reflexivity|].
      rewrite forallb_rev. exact Hstr. }
    rewrite Hempty. reflexivity.
  - rewrite rev_app_distr. reflexivity.
Qed.

Lemma words_scan_ws (str : jsstring) :
  forallb JS.isWhiteSpace str = true -> words_scan str [] = [].
Proof.
  induction str as [|char str IH]; cbn [forallb words_scan]; [reflexivity|].
  intros Hws. apply andb_prop in Hws as [-> Hws]. apply IH, Hws.
Qed.

Lemma words_scan_nonempty (str current : jsstring) :
  current <> [] \/ forallb JS.isWhiteSpace str = false -> words_scan str current <> [].
Proof.
  revert current. induction str as [|char str IH]; intros current Hsome; cbn [words_scan].
  - destruct Hsome as [Hcur|Hws]; [|discriminate]. destruct current; congruence.
  - destruct (JS.isWhiteSpace char) eqn:Hchar.
    + destruct current; [|discriminate].
      apply IH. right. destruct Hsome as [Hcur|Hws]; [congruence|].
      cbn [forallb] in Hws. rewrite Hchar in Hws. exact Hws.
    + apply IH. left. destruct current; discriminate.
Qed.

Lemma joinWith_cons (separator : N) (part : jsstring) (parts : list jsstring) :
  parts <> [] ->
  joinWith separator (part :: parts) = part ++ separator :: joinWith separator parts.
Proof. destruct parts; [congruence|reflexivity]. Qed.

(** The normalised content is the words joined by single spaces. *)
Lemma collapse_words (str : jsstring) :
  (forall current, current <> [] ->
     current ++ JS.collapse_ws false (JS.trimEnd str)
     = joinWith 32 (words_scan str current))
  /\ (forallb JS.isWhiteSpace str = false ->
      JS.collapse_ws true (JS.trimEnd str) = joinWith 32 (words_scan str [])).
Proof.
  induction str as [|char str [IHword IHgap]].
  - split; [|discriminate]. intros current Hcur. cbn. rewrite app_nil_r.
    destruct current; [congruence|reflexivity].
  - split.
    + intros current Hcur. rewrite trimEnd_cons. cbn [forallb words_scan].
      destruct (JS.isWhiteSpace char) eqn:Hchar; cbn [andb].
      * destruct current as [|c0 current]; [congruence|].
        destruct (forallb JS.isWhiteSpace str) eqn:Hstr.
        -- rewrite words_scan_ws by exact Hstr. cbn [JS.collapse_ws joinWith].
           apply app_nil_r.
        -- rewrite joinWith_cons by (apply words_scan_nonempty; right; exact Hstr).
           cbn [JS.collapse_ws]. rewrite Hchar. rewrite IHgap by reflexivity.
           reflexivity.
      * cbn [JS.collapse_ws]. rewrite Hchar.
        rewrite <- IHword by (destruct current; discriminate).
        rewrite <- app_assoc. reflexivity.
    + intros Hsome. rewrite trimEnd_cons, Hsome. cbn [forallb words_scan] in *.
      destruct (JS.isWhiteSpace char) eqn:Hchar; cbn [andb] in Hsome.
      * cbn [JS.collapse_ws]. rewrite Hchar. apply IHgap, Hsome.
      * cbn [JS.collapse_ws app]. rewrite Hchar.
        rewrite <- IHword by discriminate. reflexivity.
Qed.

Lemma words_scan_trimStart (str : jsstring) :
  words_scan (JS.trimStart str) [] = words_scan str [].
Proof.
  induction str as [|char str IH]; cbn [JS.trimStart words_scan]; [reflexivity|].
  destruct (JS.isWhiteSpace char) eqn:Hchar; [exact IH|].
  cbn [words_scan]. rewrite Hchar. reflexivity.
Qed.

Lemma normalized_words (content : jsstring) :
  JS.collapse_ws false (JS.trim content) = joinWith 32 (words content).
Proof.
  unfold JS.trim, words. rewrite <- words_scan_trimStart.
  destruct (JS.trimStart content) as [|char str] eqn:Hstart; [reflexivity|].
  assert (Hchar : JS.isWhiteSpace char = false).
  { clear -Hstart. induction content as [|c0 content IH]; [discriminate|].
    cbn [JS.trimStart] in Hstart. destruct (JS.isWhiteSpace c0) eqn:Hc0; [exact (IH Hstart)|].
    injection Hstart as -> _. exact Hc0. }
  destruct (collapse_words str) as [Hword _].
  rewrite trimEnd_cons. cbn [forallb words_scan]. rewrite Hchar. cbn [andb JS.collapse_ws].
  rewrite Hchar. cbn [app]. apply (Hword [char]). discriminate.
Qed.

(** X18: [hashContent] is the hash of the words of the content joined by
    single spaces, so two contents with the same words have the same
    hash, however the words are separated and whatever white space
    surrounds them. *)
Theorem hashContent_words (content content' : jsstring) :
  hashContent content = simpleHash (joinWith (JS.ch " ") (words content))
  /\ (words content = words content' -> hashContent content = hashContent content').
Proof.
  assert (Hhash : forall str, hashContent str = simpleHash (joinWith 32 (words str))).
  { intros str. unfold hashContent. cbv zeta. rewrite normalized_words. reflexivity. }
  split; [apply Hhash|]. intros Hwords. rewrite !Hhash, Hwords. reflexivity.
Qed.

Lemma hex_uint_chars_digits (u : Hexadecimal.uint) :
  Forall (fun char => isHexDigit char = true) (JS.hex_uint_chars u).
Proof. induction u; cbn [JS.hex_uint_chars]; constructor; (reflexivity || assumption). Qed.

Lemma toInt32_range (z : Z) : (- 2 ^ 31 <= toInt32 z < 2 ^ 31)%Z.
Proof.
  unfold toInt32. pose proof (Z.mod_pos_bound (z + 2 ^ 31) (2 ^ 32) ltac:(lia)). lia.
Qed.

Lemma foldl_hashStep_range (str : jsstring) (hash : Z) :
  (- 2 ^ 31 <= hash < 2 ^ 31)%Z -> (- 2 ^ 31 <= foldl hashStep hash str < 2 ^ 31)%Z.
Proof.
  revert hash. induction str as [|char str IH]; intros hash Hhash; cbn [foldl];
    [exact Hhash|].
  apply IH. unfold hashStep. cbv zeta. apply toInt32_range.
Qed.

Lemma simpleHash_value (str : jsstring) :
  exists value, (value <= 2 ^ 31)%N /\ simpleHash str = JS.N_toString16 value.
Proof.
  exists (Z.to_N (Z.abs (foldl hashStep 0%Z str))).
  pose proof (foldl_hashStep_range str 0 ltac:(lia)) as Hrange.
  split; [lia|]. unfold simpleHash, JS.Z_toString16.
  destruct (Z.ltb_spec (Z.abs (foldl hashStep 0%Z str)) 0) as [Hneg|_]; [lia|reflexivity].
Qed.

Lemma simpleHash_digits (str : jsstring) :
  Forall (fun char => isHexDigit char = true) (simpleHash str).
Proof.
  destruct (simpleHash_value str) as (value & _ & ->). apply hex_uint_chars_digits.
Qed.

Lemma simpleHash_nonempty (str : jsstring) : simpleHash str <> [].
Proof.
  destruct (simpleHash_value str) as (value & _ & ->). unfold JS.N_toString16.
  destruct value as [|p]; [discriminate|]. cbn [N.to_hex_uint].
  pose proof (HexadecimalPos.Unsigned.to_uint_nonnil p) as Hnonnil.
  destruct (Pos.to_hex_uint p); [congruence|..]; discriminate.
Qed.

(** X19: [simpleHash] returns a non-empty string of lower-case
    hexadecimal digits without a sign: the hexadecimal text of a number
    that is at most 2^31. *)
Theorem simpleHash_hex (str : jsstring) :
  simpleHash str <> []
  /\ Forall (fun char => isHexDigit char = true) (simpleHash str)
  /\ exists value, (value <= 2 ^ 31)%N /\ simpleHash str = JS.N_toString16 value.
Proof.
  split; [apply simpleHash_nonempty|]. split; [apply simpleHash_digits|].
  apply simpleHash_value.
Qed.

End Hashing.

(** ** Encryption, then verification *)

Section DownloadNames.

Import DocxHandler.
Import BiometricEncryptionService.

Lemma stripExtension_plain (originalName : jsstring) :
  Forall (fun char => char <> JS.ch ".") originalName ->
  stripExtension originalName = originalName.
Proof.
  induction 1 as [|char rest Hchar _ IH]; cbn [stripExtension]; [reflexivity|].
  apply N.eqb_neq in Hchar. rewrite Hchar. cbn [andb]. rewrite IH. reflexivity.
Qed.

Lemma stripExtension_last (base extension : jsstring) :
  extension <> [] -> forallb isExtensionChar extension = true ->
  stripExtension (base ++ JS.ch "." :: extension) = base.
Proof.
  intros Hne Hext. induction base as [|char base IH]; cbn [app stripExtension].
  - rewrite N.eqb_refl, Hext. destruct extension; [congruence|reflexivity].
  - rewrite IH. rewrite forallb_app. cbn [forallb].
    replace (isExtensionChar (JS.ch ".")) with false by reflexivity.
    rewrite andb_false_r, andb_false_r. reflexivity.
Qed.

(** X20: [buildDownloadName] replaces the last extension of the original
    name (a full stop followed by characters other than a full stop and a
    slash) by the extension of the output format, and puts [encrypted_]
    in front. *)
Theorem buildDownloadName_extension (base extension : jsstring) (format0 : DocumentFormat) :
  extension <> [] -> forallb isExtensionChar extension = true ->
  buildDownloadName (base ++ JS.ch "." :: extension) format0
  = JS.lit "encrypted_" ++ base
    ++ match format0 with docx => JS.lit ".docx" | txt => JS.lit ".txt" end.
Proof.
  intros Hne Hext. unfold buildDownloadName. cbv zeta.
  rewrite stripExtension_last by assumption.
  destruct (base ++ JS.ch "." :: extension) eqn:Hname; [|reflexivity].
  destruct base; discriminate.
Qed.

Lemma buildDownloadName_extension_witness :
  JS.lit "txt" <> [] /\ forallb isExtensionChar (JS.lit "txt") = true
  /\ buildDownloadName (JS.lit "report.v2" ++ JS.ch "." :: JS.lit "txt") docx
     = JS.lit "encrypted_" ++ JS.lit "report.v2" ++ JS.lit ".docx".
Proof.
  assert (Hne : JS.lit "txt" <> []) by discriminate.
  assert (Hext : forallb isExtensionChar (JS.lit "txt") = true) by reflexivity.
  split; [exact Hne|]. split; [exact Hext|].
  exact (buildDownloadName_extension (JS.lit "report.v2") (JS.lit "txt") docx Hne Hext).
Defined.

Theorem buildDownloadName_no_extension (originalName : jsstring) (format0 : DocumentFormat) :
  Forall (fun char => char <> JS.ch ".") originalName ->
  buildDownloadName originalName format0
  = JS.lit "encrypted_"
    ++ (match originalName with [] => JS.lit "document" | _ => originalName end)
    ++ match format0 with docx => JS.lit ".docx" | txt => JS.lit ".txt" end.
Proof.
  intros Hplain. unfold buildDownloadName. cbv zeta.
  rewrite stripExtension_plain by exact Hplain. destruct originalName; reflexivity.
Qed.

End DownloadNames.

Section EncryptThenVerify.

Import FingerprintProcessor.
Import FuzzyVaultGenerator.
Import DocumentWatermarker.
Import DocxHandler.
Import BiometricEncryptionService.

Variable File : Type.
Variable decodeImage : File -> option ImageData.
Variable fileName : File -> jsstring.
Variable fileType : File -> jsstring.
Variable fileText : File -> Promise jsstring.
Variable extractTextFromDocx : File -> Promise jsstring.
Variable toLowerCase : jsstring -> jsstring.
Variable luminance : N -> N -> N -> Z.
Variable atan2_degrees : Z -> Z -> Q.
Variable angleToString : Q -> jsstring.
Variable Blob : Type.
Variable embedPayloadInDocx : File -> jsstring -> Promise Blob.
Variable createDocxFromText : jsstring -> Promise Blob.
Variable textBlob : jsstring -> Blob.

Abbreviation encrypt :=
  (encryptDocument File decodeImage fileName fileType fileText extractTextFromDocx
     toLowerCase luminance atan2_degrees angleToString Blob embedPayloadInDocx
     createDocxFromText textBlob).

Abbreviation verify :=
  (verifyDocument File decodeImage
     (readDocumentText File fileName fileType fileText extractTextFromDocx toLowerCase)
     luminance atan2_degrees angleToString).

Lemma isHexDigit_latin1 (str : jsstring) :
  Forall (fun char => isHexDigit char = true) str -> latin1 str.
Proof.
  intros Hhex. eapply Forall_impl; [exact Hhex|]. intros char Hchar. cbn beta in *.
  unfold isHexDigit in Hchar.
  apply orb_prop in Hchar as [Hchar|Hchar]; apply andb_prop in Hchar as [_ Hchar];
    apply N.leb_le in Hchar; lia.
Qed.

Lemma simpleHash_latin1 (str : jsstring) : latin1 (simpleHash str).
Proof. apply isHexDigit_latin1, simpleHash_digits. Qed.

Lemma byteToHex_latin1 (byte : Z) : latin1 (byteToHex byte).
Proof.
  unfold byteToHex, JS.padStart, latin1. apply Forall_app. split.
  - apply Forall_replicate. reflexivity.
  - unfold JS.Z_toString16, JS.N_toString16.
    destruct (byte <? 0)%Z; [constructor; [reflexivity|]|];
      apply isHexDigit_latin1, hex_uint_chars_digits.
Qed.

Lemma generateSecret_latin1 (bytes : list Z) : latin1 (generateSecret bytes).
Proof.
  unfold generateSecret, latin1.
  induction bytes as [|byte bytes IH]; cbn [flat_map]; [constructor|].
  apply Forall_app. split; [apply byteToHex_latin1|exact IH].
Qed.

(** The visible text of a distributed payload of markers is the visible
    text of the document. *)
Lemma distribute_visible (rng : RandomSource) (text payload : jsstring) :
  Forall (fun char => isMarker char = true) payload ->
  getUserVisibleText (distributeInvisiblePayload rng text payload)
  = getUserVisibleText text.
Proof.
  intros Hpayload.
  assert (Hfront : getUserVisibleText (payload ++ text) = getUserVisibleText text).
  { rewrite visible_app, (visible_of_markers _ Hpayload). reflexivity. }
  unfold distributeInvisiblePayload.
  destruct payload as [|p0 payload']; [reflexivity|].
  set (payload := p0 :: payload') in *.
  destruct (length (JS.split_ws text) =? 0)%nat; [exact Hfront|].
  destruct (length (wordIndexes_from 0 (JS.split_ws text)) =? 0)%nat; [exact Hfront|].
  cbv zeta.
  match goal with
  | |- context [appendChunks ?p ?cs ?sl ?i ?tk] =>
      pose proof (appendChunks_visible p cs sl i tk Hpayload) as Hloop;
      destruct (appendChunks p cs sl i tk) as [payloadIndex tokens1]
  end.
  cbn [snd] in Hloop.
  pose proof (join_split_ws text) as Hjoin. unfold JS.join in *.
  rewrite Hjoin in Hloop.
  destruct (payloadIndex <? length payload)%nat; [|exact Hloop].
  destruct (JS.sort_asc _); [exact Hloop|].
  rewrite visible_alter_append; [exact Hloop|].
  apply visible_of_markers, slice_markers, Hpayload.
Qed.

(** What [encryptDocument] returned when it resolved. *)
Lemma encryptDocument_resolved (bytes : list Z) (rnd : MathRandom) (rng : RandomSource)
    (now : Z) (fingerprintFile documentFile : File) (result : EncryptionResult Blob) :
  encrypt bytes rnd rng now fingerprintFile documentFile = Resolved result ->
  exists minutiae vault0 documentText format0,
    processFingerprint luminance atan2_degrees (decodeImage fingerprintFile)
    = Resolved minutiae
    /\ generateVault bytes rnd minutiae = Some vault0
    /\ readDocumentAsPlainText File fileName fileType fileText extractTextFromDocx
         toLowerCase documentFile = Resolved (documentText, format0)
    /\ result.(watermarkData)
       = {| fingerprintHash := hashMinutiae angleToString minutiae;
            wm_vault := vault0;
            timestamp := now;
            contentHash := hashContent documentText |}
    /\ result.(encryptedDocument)
       = watermarkedText (embedWatermark rng documentText result.(watermarkData))
    /\ result.(format) = format0
    /\ result.(downloadName) = buildDownloadName (fileName documentFile) format0.
Proof.
  unfold encryptDocument, readDocumentWithFormat, bind.
  destruct (processFingerprint _ _ _) as [minutiae|] eqn:Hfp; [|discriminate].
  destruct (generateVault bytes rnd minutiae) as [vault0|] eqn:Hvault; [|discriminate].
  destruct (readDocumentAsPlainText _ _ _ _ _ _ _) as [[documentText format0]|] eqn:Hread;
    [|discriminate].
  cbn [fst snd]. cbv zeta.
  match goal with
  | |- match ?promise with _ => _ end = _ -> _ =>
      destruct promise as [blob|]; [|discriminate]
  end.
  intros [= <-]. cbn [watermarkData encryptedDocument format downloadName].
  exists minutiae, vault0, documentText, format0.
  split; [reflexivity|]. split; [exact Hvault|]. repeat split; reflexivity.
Qed.

(** The record of an encryption is one the codec carries faithfully. *)
Lemma encryption_record_wellFormed (bytes : list Z) (rnd : MathRandom)
    (minutiae : list MinutiaePoint) (vault0 : FuzzyVault) (now : Z)
    (documentText : jsstring) :
  generateVault bytes rnd minutiae = Some vault0 ->
  (- 2 ^ 53 < now < 2 ^ 53)%Z ->
  wellFormed {| fingerprintHash := hashMinutiae angleToString minutiae;
                wm_vault := vault0;
                timestamp := now;
                contentHash := hashContent documentText |}.
Proof.
  intros Hgen Hnow. unfold wellFormed. cbn [fingerprintHash wm_vault timestamp contentHash].
  split; [apply simpleHash_latin1|]. split; [|split; [apply simpleHash_latin1|exact Hnow]].
  unfold generateVault in Hgen. cbv zeta in Hgen.
  destruct (secretToPolynomial _); [|discriminate]. injection Hgen as <-.
  apply generateSecret_latin1.
Qed.

(** [verifyDocument] on a text whose markers carry a well-formed record
    with a content hash. *)
Lemma verifyDocument_of_record (presented : File) (text : jsstring)
    (record : WatermarkData) :
  wellFormed record -> record.(contentHash) <> [] ->
  collectBits text = dataToBinary (compact record) ->
  verify presented (inl text) = true
  <-> hashContent (getUserVisibleText text) = record.(contentHash)
      /\ exists minutiae,
           processFingerprint luminance atan2_degrees (decodeImage presented)
           = Resolved minutiae
           /\ hashMinutiae angleToString minutiae = record.(fingerprintHash).
Proof.
  intros Hrecord Hhash Hbits.
  unfold verifyDocument, verifyDocument_try, textOf, bind.
  rewrite (extractWatermark_of_bits text record Hrecord Hbits).
  cbn [p_contentHash p_fingerprintHash extracted JS.truthy].
  destruct (record.(contentHash)) as [|h0 hash] eqn:Hcontent; [congruence|].
  cbn [length Nat.eqb negb andb].
  destruct (JS.string_strict_eq (hashContent (getUserVisibleText text)) (JS.JStr (h0 :: hash)))
    eqn:Hsame; cbn [negb].
  - apply string_strict_eq_true in Hsame. injection Hsame as Hsame.
    destruct (processFingerprint _ _ _) as [minutiae|message].
    + destruct (JS.string_strict_eq (hashMinutiae angleToString minutiae)
                  (JS.JStr record.(fingerprintHash))) eqn:Hid; cbn [negb].
      * apply string_strict_eq_true in Hid. injection Hid as Hid.
        split; [intros _|reflexivity]. split; [congruence|].
        exists minutiae. split; [reflexivity|congruence].
      * split; [discriminate|]. intros [_ (minutiae' & Hfp & Hid')].
        injection Hfp as <-. rewrite Hid' in Hid.
        assert (Htrue : JS.string_strict_eq record.(fingerprintHash)
                          (JS.JStr record.(fingerprintHash)) = true)
          by (apply string_strict_eq_true; reflexivity).
        congruence.
    + split; [discriminate|]. intros [_ (minutiae' & Hfp & _)]. discriminate.
  - split; [discriminate|]. intros [Heq _]. rewrite Heq in Hsame.
    assert (Htrue : JS.string_strict_eq (h0 :: hash) (JS.JStr (h0 :: hash)) = true)
      by (apply string_strict_eq_true; reflexivity).
    congruence.
Qed.

Lemma embedded_bits (rng : RandomSource) (documentText : jsstring) (record : WatermarkData) :
  wellFormed record ->
  Forall (fun char => char <> ZERO_BIT /\ char <> ONE_BIT) documentText ->
  collectBits (watermarkedText (embedWatermark rng documentText record))
  = dataToBinary (compact record).
Proof.
  intros Hrecord Htext. unfold embedWatermark. cbn [watermarkedText]. fold (compact record).
  unfold embedWithZeroWidth. rewrite distribute_bits by (apply collectBits_plain, Htext).
  apply collectBits_binaryToInvisibleText, dataToBinary_digits, Hrecord.
Qed.

(** X21: when [encryptDocument] resolves for a document whose text holds
    none of the three marker characters, [verifyDocument] accepts the
    encrypted text with the same fingerprint file, and the visible text of
    the encrypted document is the text of the document. *)
Theorem encrypt_then_verify (bytes : list Z) (rnd : MathRandom) (rng : RandomSource)
    (now : Z) (fingerprintFile documentFile : File) (result : EncryptionResult Blob)
    (documentText : jsstring) (format0 : DocumentFormat) :
  (- 2 ^ 53 < now < 2 ^ 53)%Z ->
  readDocumentAsPlainText File fileName fileType fileText extractTextFromDocx
    toLowerCase documentFile = Resolved (documentText, format0) ->
  Forall (fun char => isMarker char = false) documentText ->
  encrypt bytes rnd rng now fingerprintFile documentFile = Resolved result ->
  verify fingerprintFile (inl result.(encryptedDocument)) = true
  /\ getUserVisibleText result.(encryptedDocument) = documentText.
Proof.
  intros Hnow Hread Htext Hencrypted.
  destruct (encryptDocument_resolved _ _ _ _ _ _ _ Hencrypted)
    as (minutiae & vault0 & text' & format' & Hfp & Hvault & Hread' & Hrecord & Hdoc & _).
  rewrite Hread in Hread'. injection Hread' as <- <-.
  pose proof (encryption_record_wellFormed _ _ _ _ now documentText Hvault Hnow) as Hwell.
  rewrite <- Hrecord in Hwell.
  assert (Hplain : Forall (fun char => char <> ZERO_BIT /\ char <> ONE_BIT) documentText).
  { eapply Forall_impl; [exact Htext|]. intros char Hchar. cbn beta in Hchar.
    split; intros ->; discriminate. }
  assert (Hvisible : getUserVisibleText result.(encryptedDocument) = documentText).
  { rewrite Hdoc. unfold embedWatermark. cbn [watermarkedText]. unfold embedWithZeroWidth.
    rewrite distribute_visible by apply binaryToInvisibleText_markers.
    apply visible_of_plain, Htext. }
  split; [|exact Hvisible].
  apply (verifyDocument_of_record fingerprintFile _ result.(watermarkData) Hwell).
  - rewrite Hrecord. cbn [contentHash]. apply simpleHash_nonempty.
  - rewrite Hdoc. apply embedded_bits; assumption.
  - rewrite Hvisible, Hrecord. cbn [contentHash fingerprintHash].
    split; [reflexivity|]. exists minutiae. split; [exact Hfp|reflexivity].
Qed.

(** X22: after an encryption (of a text without bit markers), a text that
    carries the same bit markers as the encrypted document is accepted by
    [verifyDocument] exactly when its visible content has the hash of the
    original content and the presented fingerprint is accepted with the
    identity hash of the enrolled one.  So an edit that changes the
    content hash, and a fingerprint with another hash, are both
    rejected. *)
Theorem verifyDocument_after_encryption (bytes : list Z) (rnd : MathRandom)
    (rng : RandomSource) (now : Z) (fingerprintFile documentFile presented : File)
    (result : EncryptionResult Blob) (documentText altered : jsstring)
    (format0 : DocumentFormat) :
  (- 2 ^ 53 < now < 2 ^ 53)%Z ->
  readDocumentAsPlainText File fileName fileType fileText extractTextFromDocx
    toLowerCase documentFile = Resolved (documentText, format0) ->
  Forall (fun char => char <> ZERO_BIT /\ char <> ONE_BIT) documentText ->
  encrypt bytes rnd rng now fingerprintFile documentFile = Resolved result ->
  collectBits altered = collectBits result.(encryptedDocument) ->
  verify presented (inl altered) = true
  <-> hashContent (getUserVisibleText altered) = hashContent documentText
      /\ exists minutiae,
           processFingerprint luminance atan2_degrees (decodeImage presented)
           = Resolved minutiae
           /\ hashMinutiae angleToString minutiae
              = result.(watermarkData).(fingerprintHash).
Proof.
  intros Hnow Hread Hplain Hencrypted Hbits.
  destruct (encryptDocument_resolved _ _ _ _ _ _ _ Hencrypted)
    as (minutiae & vault0 & text' & format' & Hfp & Hvault & Hread' & Hrecord & Hdoc & _).
  rewrite Hread in Hread'. injection Hread' as <- <-.
  pose proof (encryption_record_wellFormed _ _ _ _ now documentText Hvault Hnow) as Hwell.
  rewrite <- Hrecord in Hwell.
  rewrite (verifyDocument_of_record presented altered result.(watermarkData) Hwell).
  - rewrite Hrecord. cbn [contentHash fingerprintHash]. reflexivity.
  - rewrite Hrecord. cbn [contentHash]. apply simpleHash_nonempty.
  - rewrite Hbits, Hdoc. apply embedded_bits; assumption.
Qed.

(** X23: for secret bytes from the byte array, an accepted fingerprint and
    a plain-text document that can be read, [encryptDocument] resolves:
    the download is the watermarked text as [text/plain], the vault
    secret is the hexadecimal text of the bytes and the content hash is
    the hash of the document text. *)
Theorem encryptDocument_text_resolves (bytes : list Z) (rnd : MathRandom)
    (rng : RandomSource) (now : Z) (fingerprintFile documentFile : File)
    (minutiae : list MinutiaePoint) (documentText : jsstring) :
  Forall (fun byte => 0 <= byte < 256)%Z bytes ->
  processFingerprint luminance atan2_degrees (decodeImage fingerprintFile)
  = Resolved minutiae ->
  readDocumentAsPlainText File fileName fileType fileText extractTextFromDocx
    toLowerCase documentFile = Resolved (documentText, txt) ->
  exists result,
    encrypt bytes rnd rng now fingerprintFile documentFile = Resolved result
    /\ result.(downloadBlob) = textBlob result.(encryptedDocument)
    /\ result.(mimeType) = JS.lit "text/plain"
    /\ result.(format) = txt
    /\ result.(watermarkData).(wm_vault).(secret) = generateSecret bytes
    /\ result.(watermarkData).(contentHash) = hashContent documentText.
Proof.
  intros Hbytes Hfp Hread.
  unfold encryptDocument, readDocumentWithFormat, bind. rewrite Hfp.
  unfold generateVault. cbv zeta.
  rewrite (secretToPolynomial_generateSecret _ Hbytes), Hread. cbn [fst snd].
  eexists. split; [reflexivity|].
  cbn [downloadBlob encryptedDocument mimeType format watermarkData wm_vault secret
       contentHash].
  repeat split; reflexivity.
Qed.

End EncryptThenVerify.

Section SampleEncryption.

Import FingerprintProcessor.
Import DocumentWatermarker.
Import DocxHandler.
Import BiometricEncryptionService.

Lemma sampleEncrypt_resolves : exists result, sampleEncrypt = Resolved result.
Proof. vm_compute. eexists. reflexivity. Qed.

Lemma sample_document_read :
  readDocumentAsPlainText bool sampleFileName sampleFileType sampleFileText noDocx
    sampleLowerCase false
  = Resolved (JS.lit "Meet  me at noon", txt).
Proof. reflexivity. Qed.

Lemma sampleFingerprint_accepted :
  exists minutiae,
    processFingerprint greyLevel noAngle (sampleDecodeImage true) = Resolved minutiae.
Proof. vm_compute. eexists. reflexivity. Qed.

Lemma encrypt_then_verify_witness :
  exists result,
    sampleEncrypt = Resolved result
    /\ sampleVerify true (inl result.(encryptedDocument)) = true
    /\ getUserVisibleText result.(encryptedDocument) = JS.lit "Meet  me at noon".
Proof.
  assert (Hnow : (- 2 ^ 53 < 1700000000000 < 2 ^ 53)%Z) by lia.
  assert (Htext : Forall (fun char => isMarker char = false) (JS.lit "Meet  me at noon"))
    by (repeat constructor).
  destruct sampleEncrypt_resolves as [result Hresult]. exists result.
  split; [exact Hresult|].
  exact (encrypt_then_verify bool sampleDecodeImage sampleFileName sampleFileType
           sampleFileText noDocx sampleLowerCase greyLevel noAngle angleAsZero jsstring
           noDocxBlob Resolved sampleTextBlob [1; 2; 3; 4]%Z noRandom sampleRandom
           1700000000000 true false result (JS.lit "Meet  me at noon") txt
           Hnow sample_document_read Htext Hresult).
Defined.

Lemma verifyDocument_after_encryption_witness :
  exists result,
    sampleEncrypt = Resolved result
    /\ (sampleVerify true (inl (result.(encryptedDocument) ++ JS.lit "!")) = true
        <-> hashContent (getUserVisibleText (result.(encryptedDocument) ++ JS.lit "!"))
            = hashContent (JS.lit "Meet  me at noon")
            /\ exists minutiae,
                 processFingerprint greyLevel noAngle (sampleDecodeImage true)
                 = Resolved minutiae
                 /\ hashMinutiae angleAsZero minutiae
                    = result.(watermarkData).(fingerprintHash)).
Proof.
  assert (Hnow : (- 2 ^ 53 < 1700000000000 < 2 ^ 53)%Z) by lia.
  assert (Htext : Forall (fun char => char <> ZERO_BIT /\ char <> ONE_BIT)
                         (JS.lit "Meet  me at noon")).
  { repeat (constructor; [split; discriminate|]). constructor. }
  destruct sampleEncrypt_resolves as [result Hresult]. exists result.
  split; [exact Hresult|].
  assert (Hbits : collectBits (result.(encryptedDocument) ++ JS.lit "!")
                  = collectBits result.(encryptedDocument)).
  { rewrite collectBits_app. apply app_nil_r. }
  exact (verifyDocument_after_encryption bool sampleDecodeImage sampleFileName
           sampleFileType sampleFileText noDocx sampleLowerCase greyLevel noAngle
           angleAsZero jsstring noDocxBlob Resolved sampleTextBlob
           [1; 2; 3; 4]%Z noRandom sampleRandom 1700000000000 true false true result
           (JS.lit "Meet  me at noon") (result.(encryptedDocument) ++ JS.lit "!") txt
           Hnow sample_document_read Htext Hresult Hbits).
Defined.

Lemma encryptDocument_text_resolves_witness :
  Forall (fun byte => 0 <= byte < 256)%Z [1; 2; 3; 4]%Z
  /\ exists minutiae result,
       processFingerprint greyLevel noAngle (sampleDecodeImage true) = Resolved minutiae
       /\ sampleEncrypt = Resolved result
       /\ result.(downloadBlob) = sampleTextBlob result.(encryptedDocument)
       /\ result.(format) = txt.
Proof.
  assert (Hbytes : Forall (fun byte => 0 <= byte < 256)%Z [1; 2; 3; 4]%Z)
    by (repeat constructor; lia).
  split; [exact Hbytes|].
  destruct sampleFingerprint_accepted as [minutiae Hfp]. exists minutiae.
  destruct (encryptDocument_text_resolves bool sampleDecodeImage sampleFileName
              sampleFileType sampleFileText noDocx sampleLowerCase greyLevel noAngle
              angleAsZero jsstring noDocxBlob Resolved sampleTextBlob
              [1; 2; 3; 4]%Z noRandom sampleRandom 1700000000000 true false
              minutiae (JS.lit "Meet  me at noon") Hbytes Hfp sample_document_read)
    as (result & Hresult & Hblob & _ & Hformat & _).
  exists result. split; [exact Hfp|]. split; [exact Hresult|]. split; assumption.
Defined.

End SampleEncryption.

(** ** The word-processor document *)

Section WordProcessor.

Import DocumentWatermarker.
Import DocxHandler.
Import BiometricEncryptionService.

Lemma replaceAll_app (search : N) (replacement a b : jsstring) :
  JS.replaceAll search replacement (a ++ b)
  = JS.replaceAll search replacement a ++ JS.replaceAll search replacement b.
Proof. unfold JS.replaceAll. apply flat_map_app. Qed.

Lemma escapeXml_app (a b : jsstring) : escapeXml (a ++ b) = escapeXml a ++ escapeXml b.
Proof. unfold escapeXml. rewrite !replaceAll_app. reflexivity. Qed.

Lemma escapeXml_char (char : N) : escapeXml [char] = xmlEntity char.
Proof.
  unfold escapeXml, xmlEntity. eval_chars.
  destruct (N.eqb_spec char 38) as [->|H38]; [reflexivity|].
  destruct (N.eqb_spec char 60) as [->|H60]; [reflexivity|].
  destruct (N.eqb_spec char 62) as [->|H62]; [reflexivity|].
  destruct (N.eqb_spec char 34) as [->|H34]; [reflexivity|].
  destruct (N.eqb_spec char 39) as [->|H39]; [reflexivity|].
  apply N.eqb_neq in H38, H60, H62, H34, H39.
  unfold JS.replaceAll. cbn [flat_map app].
  rewrite H38. cbn [flat_map app]. rewrite H60. cbn [flat_map app].
  rewrite H62. cbn [flat_map app]. rewrite H34. cbn [flat_map app]. rewrite H39.
  reflexivity.
Qed.

(** X24: [escapeXml] replaces every character by its entity, each
    character once (the five replacements in sequence never escape the
    ampersand of an entity they wrote), and its result holds no [<], [>],
    double quote or apostrophe. *)
Theorem escapeXml_entities (value : jsstring) :
  escapeXml value = flat_map xmlEntity value
  /\ Forall (fun char => isXmlSpecial char = false) (escapeXml value).
Proof.
  assert (Hflat : escapeXml value = flat_map xmlEntity value).
  { induction value as [|char value IH]; [reflexivity|].
    change (char :: value) with ([char] ++ value).
    rewrite escapeXml_app, escapeXml_char, IH. reflexivity. }
  split; [exact Hflat|]. rewrite Hflat. clear Hflat.
  induction value as [|char value IH]; cbn [flat_map]; [constructor|].
  apply Forall_app. split; [|exact IH].
  unfold xmlEntity, isXmlSpecial. eval_chars.
  destruct (N.eqb_spec char 38); [repeat constructor|].
  destruct (N.eqb_spec char 60); [repeat constructor|].
  destruct (N.eqb_spec char 62); [repeat constructor|].
  destruct (N.eqb_spec char 34); [repeat constructor|].
  destruct (N.eqb_spec char 39); [repeat constructor|].
  constructor; [|constructor].
  repeat (apply orb_false_intro); apply N.eqb_neq; assumption.
Qed.















(** X26: when the payload needs at least as many slots as there are
    candidate nodes, every candidate is used, no random number is drawn
    and the embedding returns, whatever the random source. *)
Theorem embedPayloadInNodes_returns (fuel : nat) (rng : RandomSource)
    (textNodes : list jsstring) (payload : jsstring) :
  (length (candidateIndexes_from 0 textNodes) <= (length payload + 31) / 32)%nat ->
  exists nodes', embedPayloadInNodes fuel rng textNodes payload = Some nodes'.
Proof.
  intros Hall. unfold embedPayloadInNodes.
  destruct payload as [|p0 payload']; [eexists; reflexivity|].
  set (payload := p0 :: payload') in *. cbv zeta.
  set (found := candidateIndexes_from 0 textNodes) in *.
  set (candidateNodes := if (length found =? 0)%nat then [length textNodes] else found).
  assert (Hcount : (length candidateNodes
                    <= determineSlotCount (length candidateNodes) (length payload))%nat).
  { unfold determineSlotCount. cbv zeta.
    assert (Hmin : (length candidateNodes <= Nat.max 1 ((length payload + 31) / 32))%nat).
    { unfold candidateNodes. destruct (Nat.eqb_spec (length found) 0); [cbn|]; lia. }
    lia. }
  unfold pickRandomIndexes.
  destruct (Nat.leb_spec (length candidateNodes)
              (determineSlotCount (length candidateNodes) (length payload))) as [_|Hlt];
    [|lia].
  destruct (appendToNodes _ _ _ _ _ _) as [cursor nodes1]. eexists. reflexivity.
Qed.

Lemma embedPayloadInNodes_returns_witness :
  (length (candidateIndexes_from 0 sampleNodes) <= (length longPayload + 31) / 32)%nat
  /\ exists nodes', embedPayloadInNodes 0 sampleRandom sampleNodes longPayload = Some nodes'.
Proof.
  assert (Hall : (length (candidateIndexes_from 0 sampleNodes)
                  <= (length longPayload + 31) / 32)%nat) by (vm_compute; lia).
  split; [exact Hall|].
  exact (embedPayloadInNodes_returns 0 sampleRandom sampleNodes longPayload Hall).
Defined.

End WordProcessor.

(** ** The size of the payload *)

Section PayloadSize.

Import DocumentWatermarker.











End PayloadSize.
